(** * The RSI engine of the dashboard ([computeRsi] in [script.js])

    [computeRsi(closes, length = 14)] turns a series of closing prices into a
    series of Relative Strength Index values with Wilder's smoothing.  The
    function is embedded over an interface of the arithmetic it uses and
    run at the instance [IEEE] of that interface: binary64 floating point,
    the arithmetic of a JavaScript [Number].  Every evaluation at this
    instance is the value the script computes, bit for bit, and the general
    theorems about it rest on the specification of the operations of
    [float] in [FloatAxioms].

    JavaScript's [null] is [None]; arrays are lists; the window [length] is
    a natural number, and any binary64 value where a call with any window
    is run. *)

From Stdlib Require Import List Arith Lia Bool ZArith Floats Ascii String.
From Stdlib Require Uint63.
Import ListNotations.

Set Implicit Arguments.
Open Scope nat_scope.

(** ** Numbers *)

(** The operations [computeRsi] applies to prices: [+ - * /], [Math.abs],
    the comparisons [a >= b], [a < b] and [a === b], and the conversion of
    the integer [length] to a number. *)
Class Number (num : Type) : Type := {
  of_nat : nat -> num;
  add : num -> num -> num;
  sub : num -> num -> num;
  mul : num -> num -> num;
  div : num -> num -> num;
  abs : num -> num;
  geb : num -> num -> bool;
  ltb : num -> num -> bool;
  eqb : num -> num -> bool
}.

Declare Scope num_scope.
Delimit Scope num_scope with num.
Infix "+" := add : num_scope.
Infix "-" := sub : num_scope.
Infix "*" := mul : num_scope.
Infix "/" := div : num_scope.
Infix ">=?" := geb (at level 70) : num_scope.
Infix "<?" := ltb (at level 70) : num_scope.
Infix "===" := eqb (at level 70) : num_scope.
Notation "0" := (of_nat 0) : num_scope.
Notation "1" := (of_nat 1) : num_scope.
Notation "100" := (of_nat 100) : num_scope.

(** A JavaScript integer below 2^53 is a binary64 value, and [of_uint63]
    is exact there: [of_nat] is the window as the script sees it, for every
    window below 2^53. *)
#[export] Instance IEEE : Number float := {
  of_nat n := PrimFloat.of_uint63 (Uint63.of_Z (Z.of_nat n));
  add := PrimFloat.add;
  sub := PrimFloat.sub;
  mul := PrimFloat.mul;
  div := PrimFloat.div;
  abs := PrimFloat.abs;
  geb a b := PrimFloat.leb b a;
  ltb := PrimFloat.ltb;
  eqb := PrimFloat.eqb
}.

(** ** The function *)

Section Engine.

Context {num : Type} {N : Number num}.
Local Open Scope num_scope.

(** [for (let i = 1; i < closes.length; i++) deltas.push(closes[i] - closes[i - 1])],
    with [prev] the element [closes[i - 1]]. *)
Fixpoint deltas_from (prev : num) (rest : list num) : list num :=
  match rest with
  | [] => []
  | c :: rest' => (c - prev) :: deltas_from c rest'
  end.

Definition deltas (closes : list num) : list num :=
  match closes with
  | [] => []
  | c0 :: rest => deltas_from c0 rest
  end.

(** The callback of [seed.forEach], on the pair [(up, down)]. *)
Definition accumulate (acc : num * num) (d : num) : num * num :=
  let (up, down) := acc in
  if d >=? 0 then (up + d, down) else (up, down + abs d).

(** [up / (down === 0 ? 1 : down)] *)
Definition divisor (down : num) : num := if down === 0 then 1 else down.

Definition strength (up down : num) : num := up / divisor down.

(** The variables of the rolling loop. *)
Record state : Type := {
  avgUp : num;
  avgDown : num;
  rs : num;
  rsi : list (option num)
}.

(** The state on entry to the rolling loop: the seed averages, the seed
    [rs], and the [length + 1] leading [null]s. *)
Definition seed_state (closes : list num) (length : nat) : state :=
  let seed := firstn length (deltas closes) in
  let (up, down) := fold_left accumulate seed (0, 0) in
  let up := up / of_nat length in
  let down := down / of_nat length in
  {| avgUp := up; avgDown := down; rs := strength up down;
     rsi := repeat None (S length) |}.

(** The Wilder update of the two averages for one delta. *)
Definition smooth (length : nat) (up down d : num) : num * num :=
  if d >=? 0
  then ((up * (of_nat length - 1) + d) / of_nat length,
        (down * (of_nat length - 1)) / of_nat length)
  else ((up * (of_nat length - 1)) / of_nat length,
        (down * (of_nat length - 1) + abs d) / of_nat length).

(** [100 - 100 / (1 + rs)] *)
Definition rsi_value (r : num) : num := 100 - 100 / (1 + r).

(** One iteration of the rolling loop, for the delta [d = deltas[i]]. *)
Definition roll (length : nat) (s : state) (d : num) : state :=
  let (up, down) := smooth length (avgUp s) (avgDown s) d in
  let r := strength up down in
  {| avgUp := up; avgDown := down; rs := r;
     rsi := rsi s ++ [Some (rsi_value r)] |}.

(** [while (rsi.length < closes.length) rsi.unshift(null)]: the loop runs
    [closes.length - rsi.length] times (none when the difference is not
    positive). *)
Fixpoint unshift_nulls (times : nat) (out : list (option num)) : list (option num) :=
  match times with
  | O => out
  | S times' => unshift_nulls times' (None :: out)
  end.

(** The state after the rolling loop, which visits [deltas[length]],
    [deltas[length + 1]], ... in order. *)
Definition rolled (closes : list num) (length : nat) : state :=
  fold_left (roll length) (skipn length (deltas closes)) (seed_state closes length).

Definition computeRsi (closes : list num) (length : nat) : list (option num) :=
  let out := rsi (rolled closes length) in
  unshift_nulls (List.length closes - List.length out) out.

End Engine.

(** ** Observing a run *)

Section Observations.

Context {num : Type} {N : Number num}.

(** The states after each iteration of the rolling loop, in order. *)
Fixpoint trace (length : nat) (s : state) (ds : list num) : list state :=
  match ds with
  | [] => []
  | d :: ds' => roll length s d :: trace length (roll length s d) ds'
  end.

(** The seed state followed by the state after every rolling iteration. *)
Definition states (closes : list num) (length : nat) : list state :=
  seed_state closes length
    :: trace length (seed_state closes length) (skipn length (deltas closes)).

(** What an iteration pushes onto [rsi]. *)
Definition emitted (s : state) : option num := Some (rsi_value (rs s)).

(** The values emitted by the rolling loop, one per delta from index
    [length] on. *)
Definition rolling_values (closes : list num) (length : nat) : list (option num) :=
  map emitted (trace length (seed_state closes length) (skipn length (deltas closes))).

(** How a call ends: with a value, or with an error raised. *)
Inductive completion (A : Type) : Type :=
| Normal (value : A)
| Throw (message : string).

End Observations.

Arguments Throw {A} message.

(** ** The algorithm in the words of the specification *)

Section Specification.

Context {num : Type} {N : Number num}.
Local Open Scope num_scope.

(** A sum, taken from [0] in the order of the list. *)
Definition spec_sum (l : list num) : num := fold_left add l 0.

(** "Sum all deltas with [d >= 0] into [sumGain]; sum the absolute value of
    all negative deltas into [sumLoss]." *)
Definition spec_sumGain (seed : list num) : num :=
  spec_sum (filter (fun d => d >=? 0) seed).

Definition spec_sumLoss (seed : list num) : num :=
  spec_sum (map abs (filter (fun d => d <? 0) seed)).

(** A delta that is either [>= 0] or [< 0], and not both: every number but
    a NaN. *)
Definition ordered (d : num) : Prop := (d <? 0) = negb (d >=? 0).

(** "[rs = avgGain / avgLoss]; if [avgLoss == 0], substitute [1] as the
    divisor." *)
Definition spec_divisor (avgLoss : num) : num :=
  if avgLoss === 0 then 1 else avgLoss.

Definition spec_rs (avgGain avgLoss : num) : num := avgGain / spec_divisor avgLoss.

(** The two cases of the Wilder update. *)
Definition spec_wilder (window : nat) (avgs : num * num) (delta : num) : num * num :=
  let (avgGain, avgLoss) := avgs in
  if delta >=? 0
  then ((avgGain * (of_nat window - 1) + delta) / of_nat window,
        (avgLoss * (of_nat window - 1)) / of_nat window)
  else ((avgGain * (of_nat window - 1)) / of_nat window,
        (avgLoss * (of_nat window - 1) + abs delta) / of_nat window).

(** "Emit [rsi = 100 - 100 / (1 + rs)]." *)
Definition spec_rsi (avgs : num * num) : num :=
  100 - 100 / (1 + spec_rs (fst avgs) (snd avgs)).

(** "Every defined output value lies in the closed interval [[0, 100]]." *)
Definition in_range (v : num) : bool := (v >=? 0) && (100 >=? v).

End Specification.

(** ** Binary64 values

    The operations of [float] are specified (module [FloatAxioms]) through
    their images under [Prim2SF] in [spec_float], the type of sign, mantissa
    and exponent.  The predicates below classify such images. *)

Section Binary64Values.

Local Open Scope Z_scope.

(** A shifted record that has lost a non-zero bit. *)
Definition inexact (mrs : shr_record) : bool := shr_r mrs || shr_s mrs.

(** What a location adds to the mantissa it is attached to: at most [1]. *)
Definition slack (l : location) : Z :=
  match l with loc_Exact => 0 | loc_Inexact _ => 1 end.

(** NaN, or a value of sign [s]. *)
Definition signed (s : bool) (x : spec_float) : Prop :=
  match x with
  | S754_nan => True
  | S754_zero s' | S754_infinity s' | S754_finite s' _ _ => s' = s
  end.

(** NaN, a zero of either sign, or a positive value. *)
Definition nonneg (x : spec_float) : Prop :=
  match x with
  | S754_nan | S754_zero _ => True
  | S754_infinity s | S754_finite s _ _ => s = false
  end.

(** NaN or a value [>= 1]: a positive mantissa of [d] digits at exponent
    [e] is at least [2 ^ (d + e - 1)]. *)
Definition ge_one (x : spec_float) : Prop :=
  match x with
  | S754_nan | S754_infinity false => True
  | S754_finite false m e => 0 < Zdigits2 (Zpos m) + e
  | _ => False
  end.

(** NaN, a zero, or a positive value [<= 100]. *)
Definition le_100 (x : spec_float) : Prop :=
  match x with
  | S754_nan | S754_zero _ => True
  | S754_finite false m e => Zpos m * 2 ^ (e + 1074) <= 100 * 2 ^ 1074
  | _ => False
  end.

(** [+0] or a positive finite value. *)
Definition finite_nonneg (x : spec_float) : Prop :=
  match x with
  | S754_zero false | S754_finite false _ _ => True
  | _ => False
  end.

(** A finite value below [2 ^ k]. *)
Definition below (k : Z) (x : spec_float) : Prop :=
  match x with
  | S754_finite _ m e => Zdigits2 (Zpos m) + e <= k
  | _ => True
  end.

(** The images of [1] and [100]. *)
Definition SF_one : spec_float := S754_finite false 4503599627370496 (-52).
Definition SF_100 : spec_float := S754_finite false 7036874417766400 (-46).

Definition fnonneg (x : float) : Prop := nonneg (Prim2SF x).

Definition is_zero (x : float) : Prop := Prim2SF x = S754_zero false.

End Binary64Values.

(** ** The callers and the utilities of the pages

    The rest of [script.js] that is computation rather than network or
    chart-library calls: the RSI sub-chart of the strategy page, which is
    the caller of [computeRsi], and its trade markers; the loading state
    of a button; the choice of the page to initialise; the sentiment
    forecast of the dashboard.
    Numbers are binary64 values throughout. *)

Section Pages.

Local Open Scope float_scope.

(** JavaScript's [ToBoolean] on a number: false for [+0], [-0] and NaN. *)
Definition truthy (x : float) : bool := (x <? 0) || (0 <? x).

(** [array.map((v, i) => f(v, i))], with [i] the index of the first
    element. *)
Fixpoint map_indexed (A B : Type) (f : A -> nat -> B) (i : nat) (l : list A) : list B :=
  match l with
  | [] => []
  | v :: l' => f v i :: map_indexed f (S i) l'
  end.

End Pages.

(** A candle of the strategy page, [{ time, open, high, low, close }].
    [time] is the result of [parseTimeValue], a number or [null].  A price
    is a number; [computeRsi] only subtracts closes, so that a candle
    without a [close] behaves as one whose [close] is NaN. *)
Module Candle.

Record t : Type := {
  time : option float;
  open : float;
  high : float;
  low : float;
  close : float
}.

End Candle.

(** A point of the RSI line, [{ time: times[i], value: v }].  [times[i]] is
    [undefined] ([None]) past the end of [times]; [value] is an entry of
    the output of [computeRsi]. *)
Module Point.

Record t : Type := {
  time : option (option float);
  value : option float
}.

End Point.

Section StrategyPage.

(** The callback of [.filter((v) => v.value)]: [null], [0] and NaN are
    dropped. *)
Definition plotted (p : Point.t) : bool :=
  match Point.value p with
  | None => false
  | Some x => truthy x
  end.

(** [const rsiVals = computeRsi(candles.map((c) => c.close), 14);
     const times = candles.map((c) => c.time);
     const rsiPoints = rsiVals.map((v, i) => ({ time: times[i], value: v }))
                              .filter((v) => v.value);] *)
Definition rsiPoints (candles : list Candle.t) : list Point.t :=
  let rsiVals := computeRsi (map Candle.close candles) 14 in
  let times := map Candle.time candles in
  filter plotted
    (map_indexed
       (fun v i => {| Point.time := nth_error times i; Point.value := v |})
       0 rsiVals).

End StrategyPage.

(** A trade of the simulation, with the fields the markers read. *)
Module Trade.

Record t : Type := {
  entry_time : float;
  exit_time : float;
  direction : string;
  status : string;
  pnl_percent : float
}.

End Trade.

(** A marker of the candle chart. *)
Module Marker.

Record t : Type := {
  time : float;
  position : string;
  color : string;
  shape : string;
  text : string
}.

End Marker.

Section TradeMarkers.

Local Open Scope string_scope.

(** The text of a number in a template literal, [`${x}`]. *)
Variable number_text : float -> string.

Definition entry_marker (t : Trade.t) : Marker.t :=
  {| Marker.time := Trade.entry_time t;
     Marker.position := "belowBar";
     Marker.color := if String.eqb (Trade.direction t) "LONG" then "green" else "red";
     Marker.shape := "arrowUp";
     Marker.text := "ENTRY " ++ Trade.direction t |}.

Definition exit_marker (t : Trade.t) : Marker.t :=
  {| Marker.time := Trade.exit_time t;
     Marker.position := "aboveBar";
     Marker.color := if String.eqb (Trade.status t) "WIN" then "#00ff88" else "#ef4444";
     Marker.shape := "arrowDown";
     Marker.text := Trade.status t ++ " " ++ number_text (Trade.pnl_percent t) ++ "%" |}.

(** The callback of [data.trades.forEach]: two calls of [markers.push]. *)
Definition push_markers (markers : list Marker.t) (t : Trade.t) : list Marker.t :=
  ((markers ++ [entry_marker t]) ++ [exit_marker t])%list.

(** [markers] when [candleSeries.setMarkers(markers)] is called. *)
Definition trade_markers (trades : list Trade.t) : list Marker.t :=
  fold_left push_markers trades [].

End TradeMarkers.

Section Utilities.

Local Open Scope string_scope.

(** The part of a button that [setLoading] reads and writes: [disabled],
    [dataset.label] (absent until it is first written) and [textContent]. *)
Record button : Type := {
  disabled : bool;
  dataset_label : option string;
  textContent : string
}.

(** [a || b] on a [dataset] entry and a string: the entry unless it is
    absent or empty. *)
Definition or_else (a : option string) (b : string) : string :=
  match a with
  | Some s => if String.eqb s "" then b else s
  | None => b
  end.

(** [setLoading(state, btn, label)]; [btn] is [None] when
    [document.getElementById] found no element, and the result is the
    button after the call. *)
Definition setLoading (state : bool) (btn : option button) (label : string)
  : option button :=
  match btn with
  | None => None
  | Some b =>
      let saved := or_else (dataset_label b) (textContent b) in
      Some {| disabled := state;
              dataset_label := Some saved;
              textContent := if state then label else saved |}
  end.

(** A series of calls on the same button, each with its [state] and
    [label]. *)
Definition setLoading_calls (calls : list (bool * string)) (btn : option button)
  : option button :=
  fold_left (fun b call => setLoading (fst call) b (snd call)) calls btn.

(** [pathname.split("/")]: the segments between the slashes, of which
    there is always at least one. *)
Fixpoint split_slash (pathname : string) : list string :=
  match pathname with
  | EmptyString => [EmptyString]
  | String c rest =>
      if Ascii.eqb c "/"%char
      then EmptyString :: split_slash rest
      else match split_slash rest with
           | segment :: segments => String c segment :: segments
           | [] => [String c EmptyString]
           end
  end.

(** [array.pop()]: the last element, [undefined] ([None]) on an empty
    array. *)
Definition pop (segments : list string) : option string :=
  match rev segments with
  | [] => None
  | last :: _ => Some last
  end.

(** [array.includes(x)] *)
Definition includes (names : list string) (x : option string) : bool :=
  match x with
  | None => false
  | Some s => existsb (String.eqb s) names
  end.

(** The three initialisers of the script. *)
Inductive page : Type := initDashboard | initStrategyPage | initAnalyticsPage.

(** The initialiser the script runs for [window.location.pathname], if
    any. *)
Definition init_page (pathname : string) : option page :=
  let currentPage := pop (split_slash pathname) in
  if includes ["index.html"; ""; "index"] currentPage then Some initDashboard
  else if includes ["strategy.html"; "strategy"] currentPage then Some initStrategyPage
  else if includes ["analytics.html"; "analytics"] currentPage then Some initAnalyticsPage
  else None.

(** A segment with no slash in it. *)
Fixpoint no_slash (segment : string) : bool :=
  match segment with
  | EmptyString => true
  | String c rest => negb (Ascii.eqb c "/"%char) && no_slash rest
  end.

End Utilities.

Section Sentiment.

Local Open Scope float_scope.

(** [sent.score]: a number, [null], or absent. *)
Inductive score : Type := Absent | Null | Score (x : float).

(** [sent.score || 0] *)
Definition score_or_zero (sc : score) : float :=
  match sc with
  | Score x => if truthy x then x else 0
  | Absent | Null => 0
  end.

(** [Math.min(a, b)]: NaN if either is NaN, [-0] below [+0]. *)
Definition Math_min (a b : float) : float :=
  if PrimFloat.is_nan a || PrimFloat.is_nan b then nan
  else if (a =? 0) && negb (PrimFloat.get_sign a)
          && ((b =? 0) && PrimFloat.get_sign b) then b
  else if b <? a then b
  else a.

Inductive direction : Type := rise | fall | stable.

(** The literal [0.05] is the binary64 value nearest to it. *)
Definition threshold : float := 0x1.999999999999ap-5.

(** [const dir = s > 0.05 ? "rise" : s < -0.05 ? "fall" : "stable"] *)
Definition forecast_direction (sc : score) : direction :=
  let s := score_or_zero sc in
  if threshold <? s then rise
  else if s <? - threshold then fall
  else stable.

(** The number that [.toFixed(1)] prints as [pct]:
    [Math.min(100, Math.abs(s * 100))]. *)
Definition forecast_percent (sc : score) : float :=
  let s := score_or_zero sc in
  Math_min 100 (PrimFloat.abs (s * 100)).

End Sentiment.

Section Binary64Integers.

Local Open Scope Z_scope.

(** The binary64 value of a whole number [0 <= z < 2 ^ 53]: the mantissa
    of [53] digits and its exponent. *)
Definition SF_int (z : Z) : spec_float :=
  match z with
  | Z0 => S754_zero false
  | Zpos _ =>
      S754_finite false (Z.to_pos (z * 2 ^ (53 - Zdigits2 z))) (Zdigits2 z - 53)
  | Zneg _ => S754_nan
  end.

End Binary64Integers.

(** ** A call with any window

    [computeRsi] does not look at its second argument before it computes
    with it: the window is any number.  The definitions below run the body
    with the window as the binary64 value it is: [slice] converts it to an
    integer, the two [for] loops count with numbers, and [deltas[i]] is
    [undefined] when [i] is not an index of [deltas].  The one operation of
    the body that can raise is the growth of an array past the largest
    array length, [2 ^ 32 - 1], which [push] and [unshift] refuse with a
    [RangeError]. *)

Section AnyWindow.

Local Open Scope float_scope.

(** The largest length of an array. *)
Definition max_array_length : N := 4294967295.

Definition RangeError : string := "RangeError: Invalid array length".

Definition array_full (A : Type) (a : list A) : bool :=
  (max_array_length <=? N.of_nat (List.length a))%N.

(** [a.push(x)] *)
Definition push (A : Type) (a : list A) (x : A) : completion (list A) :=
  if array_full a then Throw RangeError else Normal (a ++ [x]).

(** [ToIntegerOrInfinity]: NaN is [0], a finite number loses its
    fraction. *)
Inductive integer_or_infinity : Type :=
| Integer (z : Z)
| PlusInfinity
| MinusInfinity.

Definition ToIntegerOrInfinity (x : float) : integer_or_infinity :=
  match Prim2SF x with
  | S754_nan | S754_zero _ => Integer 0
  | S754_infinity false => PlusInfinity
  | S754_infinity true => MinusInfinity
  | S754_finite s m e => Integer (cond_Zopp s (Z.shiftl (Zpos m) e))
  end.

(** [a.slice(0, last)] *)
Definition slice_to (A : Type) (a : list A) (last : float) : list A :=
  let len := Z.of_nat (List.length a) in
  match ToIntegerOrInfinity last with
  | MinusInfinity => []
  | PlusInfinity => a
  | Integer z =>
      firstn (Z.to_nat (if (z <? 0)%Z then Z.max (len + z) 0 else Z.min z len)) a
  end.

(** [a[i]] for a number [i]: an element when [i] is a whole number below
    the length ([-0] is the index [0]), [undefined] otherwise. *)
Definition element (A : Type) (a : list A) (i : float) : option A :=
  match Prim2SF i with
  | S754_zero _ => nth_error a 0
  | S754_finite false m e =>
      let z := Z.shiftl (Zpos m) e in
      if (Z.shiftl z (- e) =? Zpos m)%Z && (z <? Z.of_nat (List.length a))%Z
      then nth_error a (Z.to_nat z)
      else None
  | _ => None
  end.

(** [ToNumber] of an element: [undefined] is NaN.  The body applies
    [d >= 0] and [Math.abs(d)] to [d = deltas[i]], and both convert [d] to
    a number first. *)
Definition ToNumber (d : option float) : float :=
  match d with
  | Some x => x
  | None => nan
  end.

(** What one pass through a loop does: go on, leave the loop, or raise. *)
Inductive pass (S : Type) : Type :=
| Continue (s : S)
| Break (s : S)
| Raise (message : string).

Arguments Raise {S} message.

(** At most [fuel] passes of a loop, as long as they go on. *)
Fixpoint passes (S : Type) (fuel : positive) (body : S -> pass S) (s : S) : pass S :=
  match fuel with
  | xH => body s
  | xO fuel' =>
      match passes fuel' body s with
      | Continue s' => passes fuel' body s'
      | done => done
      end
  | xI fuel' =>
      match body s with
      | Continue s1 =>
          match passes fuel' body s1 with
          | Continue s2 => passes fuel' body s2
          | done => done
          end
      | done => done
      end
  end.

(** Every pass of the two [for] loops pushes an entry onto [rsi], so that
    [2 ^ 32] passes are more than any run makes. *)
Definition enough : positive := 4294967296.

(** [for (let i = 0; i <= length; i++) rsi.push(null)] *)
Definition null_pass (length : float) (s : float * list (option float))
  : pass (float * list (option float)) :=
  let (i, rsi) := s in
  if i <=? length
  then match push rsi None with
       | Normal rsi' => Continue (i + 1, rsi')
       | Throw message => Raise message
       end
  else Break s.

(** The two cases of the update, for a window that is any number. *)
Definition smooth_with (length : float) (up down d : float) : float * float :=
  if 0 <=? d
  then ((up * (length - 1) + d) / length, (down * (length - 1)) / length)
  else ((up * (length - 1)) / length, (down * (length - 1) + PrimFloat.abs d) / length).

(** [for (let i = length; i < deltas.length; i++) { ... }] *)
Definition rolling_pass (length : float) (deltas : list float) (c : float * state)
  : pass (float * state) :=
  let (i, s) := c in
  if i <? of_nat (List.length deltas)
  then
    let d := ToNumber (element deltas i) in
    let (up, down) := smooth_with length (avgUp s) (avgDown s) d in
    let r := strength up down in
    match push (rsi s) (Some (rsi_value r)) with
    | Normal rsi' =>
        Continue (i + 1, {| avgUp := up; avgDown := down; rs := r; rsi := rsi' |})
    | Throw message => Raise message
    end
  else Break c.

(** [while (rsi.length < closes.length) rsi.unshift(null)], which runs
    [times] times. *)
Fixpoint unshift_nulls_within (times : nat) (out : list (option float))
  : completion (list (option float)) :=
  match times with
  | O => Normal out
  | S times' =>
      if array_full out then Throw RangeError
      else unshift_nulls_within times' (None :: out)
  end.

(** The call [computeRsi(closes, length)]: the value it returns or the
    error it raises; [None] if a loop has not ended after [enough]
    passes. *)
Definition call_computeRsi (closes : list float) (length : float)
  : option (completion (list (option float))) :=
  let ds := deltas closes in
  let seed := slice_to ds length in
  let (up, down) := fold_left accumulate seed (0, 0) in
  let up := up / length in
  let down := down / length in
  match passes enough (null_pass length) (0, []) with
  | Continue _ => None
  | Raise message => Some (Throw message)
  | Break (_, nulls) =>
      let seeded := {| avgUp := up; avgDown := down; rs := strength up down;
                       rsi := nulls |} in
      match passes enough (rolling_pass length ds) (length, seeded) with
      | Continue _ => None
      | Raise message => Some (Throw message)
      | Break (_, s) =>
          Some (unshift_nulls_within (List.length closes - List.length (rsi s)) (rsi s))
      end
  end.

End AnyWindow.

Arguments Raise {S} message.

Section PassesOneByOne.

(** [fuel] passes of a loop, counted one by one: what [passes] computes
    (lemma [passes_one_by_one]). *)
Fixpoint passes_nat (S : Type) (fuel : nat) (body : S -> pass S) (s : S) : pass S :=
  match fuel with
  | O => Continue s
  | Datatypes.S fuel' =>
      match body s with
      | Continue s' => passes_nat fuel' body s'
      | done => done
      end
  end.

(** The room left in an array. *)
Definition room (A : Type) (a : list A) : nat :=
  N.to_nat max_array_length - List.length a.

End PassesOneByOne.

(** ** The shape of the output *)

Section Shape.

Context {num : Type} {N : Number num}.

Lemma deltas_from_length (rest : list num) :
  forall prev, List.length (deltas_from prev rest) = List.length rest.
Proof.
  induction rest as [|c rest IH]; intros prev; simpl; [reflexivity|].
  now rewrite IH.
Qed.

Lemma deltas_length (closes : list num) :
  List.length (deltas closes) = List.length closes - 1.
Proof.
  destruct closes as [|c0 rest]; simpl; [reflexivity|].
  rewrite deltas_from_length. lia.
Qed.

Lemma nth_error_deltas_from (rest : list num) :
  forall prev i a b,
    nth_error (prev :: rest) i = Some a ->
    nth_error (prev :: rest) (S i) = Some b ->
    nth_error (deltas_from prev rest) i = Some (sub b a).
Proof.
  induction rest as [|c rest IH]; intros prev i a b Ha Hb.
  - destruct i; simpl in Hb; discriminate.
  - destruct i as [|i]; simpl in *.
    + now inversion Ha; inversion Hb.
    + now apply IH.
Qed.

Lemma nth_error_deltas (closes : list num) i a b :
  nth_error closes i = Some a ->
  nth_error closes (S i) = Some b ->
  nth_error (deltas closes) i = Some (sub b a).
Proof.
  destruct closes as [|c0 rest]; [destruct i; discriminate|].
  apply nth_error_deltas_from.
Qed.

Lemma unshift_nulls_app (times : nat) :
  forall out : list (option num),
    unshift_nulls times out = repeat None times ++ out.
Proof.
  induction times as [|k IH]; intros out; simpl; [reflexivity|].
  rewrite IH. change (None :: out) with ([None] ++ out).
  rewrite app_assoc, <- repeat_cons. reflexivity.
Qed.

Lemma trace_length (length : nat) (ds : list num) :
  forall s, List.length (trace length s ds) = List.length ds.
Proof.
  induction ds as [|d ds IH]; intros s; simpl; [reflexivity|].
  now rewrite IH.
Qed.

Lemma rsi_roll (length : nat) (s : state) (d : num) :
  rsi (roll length s d) = rsi s ++ [emitted (roll length s d)].
Proof.
  unfold roll, emitted. destruct (smooth length (avgUp s) (avgDown s) d).
  reflexivity.
Qed.

Lemma rsi_fold_roll (length : nat) (ds : list num) :
  forall s,
    rsi (fold_left (roll length) ds s) = rsi s ++ map emitted (trace length s ds).
Proof.
  induction ds as [|d ds IH]; intros s; simpl.
  - now rewrite app_nil_r.
  - rewrite IH, rsi_roll, <- app_assoc. reflexivity.
Qed.

Lemma rsi_seed_state (closes : list num) (length : nat) :
  rsi (seed_state closes length) = repeat None (S length).
Proof.
  unfold seed_state. destruct (fold_left _ _ _). reflexivity.
Qed.

Lemma rolling_values_length (closes : list num) (length : nat) :
  List.length (rolling_values closes length) = List.length closes - 1 - length.
Proof.
  unfold rolling_values.
  now rewrite length_map, trace_length, length_skipn, deltas_length.
Qed.

(** The final [while] loop never runs: the pad and the rolling values
    already make up at least [closes.length] entries. *)
Lemma computeRsi_unfold (closes : list num) (length : nat) :
  computeRsi closes length = repeat None (S length) ++ rolling_values closes length.
Proof.
  unfold computeRsi, rolled.
  rewrite rsi_fold_roll, rsi_seed_state. fold (rolling_values closes length).
  rewrite unshift_nulls_app, length_app, repeat_length, rolling_values_length.
  replace (List.length closes - (S length + (List.length closes - 1 - length)))
    with 0 by lia.
  reflexivity.
Qed.

Lemma computeRsi_length (closes : list num) (length : nat) :
  List.length (computeRsi closes length) = Nat.max (List.length closes) (S length).
Proof.
  rewrite computeRsi_unfold, length_app, repeat_length, rolling_values_length.
  lia.
Qed.

Lemma rs_seed_state (closes : list num) (length : nat) :
  rs (seed_state closes length)
  = strength (avgUp (seed_state closes length)) (avgDown (seed_state closes length)).
Proof.
  unfold seed_state. destruct (fold_left _ _ _). reflexivity.
Qed.

Lemma roll_averages (length : nat) (s : state) (d : num) :
  (avgUp (roll length s d), avgDown (roll length s d))
  = spec_wilder length (avgUp s, avgDown s) d.
Proof.
  unfold roll, spec_wilder, smooth. destruct (geb d (of_nat 0)); reflexivity.
Qed.

Lemma avgUp_roll (length : nat) (s : state) (d : num) :
  avgUp (roll length s d) = fst (smooth length (avgUp s) (avgDown s) d).
Proof.
  unfold roll. destruct (smooth _ _ _ _). reflexivity.
Qed.

Lemma avgDown_roll (length : nat) (s : state) (d : num) :
  avgDown (roll length s d) = snd (smooth length (avgUp s) (avgDown s) d).
Proof.
  unfold roll. destruct (smooth _ _ _ _). reflexivity.
Qed.

Lemma rs_roll (length : nat) (s : state) (d : num) :
  rs (roll length s d)
  = strength (avgUp (roll length s d)) (avgDown (roll length s d)).
Proof.
  unfold roll. destruct (smooth _ _ _ _). reflexivity.
Qed.

Lemma trace_In (length : nat) (ds : list num) :
  forall s0 s, In s (trace length s0 ds) -> exists s' d, s = roll length s' d.
Proof.
  induction ds as [|d ds IH]; intros s0 s Hin; simpl in Hin; [easy|].
  destruct Hin as [<- | Hin]; [now exists s0, d | now apply IH in Hin].
Qed.

Lemma rs_roll_trace (length : nat) (ds : list num) (s0 s : state) :
  In s (trace length s0 ds) -> rs s = strength (avgUp s) (avgDown s).
Proof.
  intros Hin. apply trace_In in Hin as (s' & d & ->). apply rs_roll.
Qed.

Lemma states_rs (closes : list num) (length : nat) (s : state) :
  In s (states closes length) -> rs s = strength (avgUp s) (avgDown s).
Proof.
  intros [<- | Hin]; [apply rs_seed_state|].
  apply trace_In in Hin as (s' & d & ->). apply rs_roll.
Qed.

Lemma nth_error_trace (length : nat) (ds : list num) :
  forall s k d,
    nth_error ds k = Some d ->
    nth_error (trace length s ds) k
    = Some (roll length (fold_left (roll length) (firstn k ds) s) d).
Proof.
  induction ds as [|d0 ds IH]; intros s k d Hk; [destruct k; discriminate|].
  destruct k as [|k]; simpl in *.
  - now inversion Hk.
  - now apply IH.
Qed.

Lemma nth_error_states (length : nat) (ds : list num) :
  forall s k,
    k <= List.length ds ->
    nth_error (s :: trace length s ds) k
    = Some (fold_left (roll length) (firstn k ds) s).
Proof.
  induction ds as [|d ds IH]; intros s k Hk.
  - destruct k; [reflexivity | simpl in Hk; lia].
  - destruct k as [|k]; [reflexivity|]. simpl in Hk.
    cbn [nth_error trace firstn fold_left]. apply IH. lia.
Qed.

Lemma fold_accumulate (seed : list num) :
  forall up down,
    Forall ordered seed ->
    fold_left accumulate seed (up, down)
    = (fold_left add (filter (fun d => geb d (of_nat 0)) seed) up,
       fold_left add (map abs (filter (fun d => ltb d (of_nat 0)) seed)) down).
Proof.
  induction seed as [|d seed IH]; intros up down Hord; [reflexivity|].
  inversion Hord as [|? ? Hd Hseed]; subst. unfold ordered in Hd.
  simpl. rewrite Hd.
  destruct (geb d (of_nat 0)); simpl; now rewrite IH.
Qed.

Lemma Forall_firstn_skipn (A : Type) (P : A -> Prop) (n : nat) (l : list A) :
  Forall P l -> Forall P (firstn n l) /\ Forall P (skipn n l).
Proof.
  intros H. rewrite <- (firstn_skipn n l) in H. now apply Forall_app in H.
Qed.

(** A defined output entry is the value emitted from some rolling state. *)
Lemma computeRsi_defined (closes : list num) (length : nat) (v : num) :
  In (Some v) (computeRsi closes length) ->
  exists s,
    In s (trace length (seed_state closes length) (skipn length (deltas closes))) /\
    v = rsi_value (rs s).
Proof.
  rewrite computeRsi_unfold. intros Hin.
  apply in_app_or in Hin as [Hpad | Hroll].
  - apply repeat_spec in Hpad. discriminate.
  - apply in_map_iff in Hroll as (s & Hs & Hin). exists s.
    split; [exact Hin | now inversion Hs].
Qed.

(** Past the pad, every entry up to the length of the input is defined. *)
Lemma computeRsi_defined_at (closes : list num) (length k : nat) :
  length + 1 + k < List.length closes ->
  exists v, nth_error (computeRsi closes length) (length + 1 + k) = Some (Some v).
Proof.
  intros Hk. rewrite computeRsi_unfold.
  rewrite nth_error_app2 by (rewrite repeat_length; lia).
  rewrite repeat_length. replace (length + 1 + k - S length) with k by lia.
  unfold rolling_values.
  destruct (nth_error (trace length (seed_state closes length)
                         (skipn length (deltas closes))) k) as [s|] eqn:Hs.
  - exists (rsi_value (rs s)). now rewrite (map_nth_error _ _ _ Hs).
  - apply nth_error_None in Hs.
    rewrite trace_length, length_skipn, deltas_length in Hs. lia.
Qed.

(** *** Claims about the shape *)

(** C1 (the claim fails on the code; this is what the code does).  On the
    empty price series with the default window 14, [computeRsi] returns 15
    [null]s: the output is longer than the input, where the length invariant
    asks for an output of the input's length.  [computeRsi_length] gives the
    length on every input. *)
Theorem computeRsi_empty_input_length :
  computeRsi (@nil float) 14 = repeat None 15 /\
  List.length (computeRsi (@nil float) 14) = 15 /\
  List.length (@nil float) = 0.
Proof.
  repeat split.
Qed.

(** C5.  The entries at the indices [0 .. window] of the output are all
    [null], on every input, in particular when [len(closes) >= window + 1];
    and when [len(closes) < window + 1], every entry of the output is
    [null]. *)
Theorem leading_entries_undefined (closes : list num) (window : nat) :
  (forall i, i <= window -> nth_error (computeRsi closes window) i = Some None) /\
  (List.length closes < window + 1 ->
   Forall (fun o => o = None) (computeRsi closes window)).
Proof.
  rewrite computeRsi_unfold. split.
  - intros i Hi. rewrite nth_error_app1 by (rewrite repeat_length; lia).
    apply nth_error_repeat. lia.
  - intros Hshort.
    assert (Hnone : rolling_values closes window = []).
    { apply length_zero_iff_nil. rewrite rolling_values_length. lia. }
    rewrite Hnone, app_nil_r. apply Forall_forall.
    intros o Ho. now apply repeat_spec in Ho.
Qed.


(** *** Claims about the phases *)

(** C3.  The deltas are the successive differences
    [closes[i + 1] - closes[i]]; the seed is the first [window] of them;
    and, the seed deltas being ordinary numbers, the seed averages are the
    sum of the deltas [d >= 0] (zero deltas included) over [window] and the
    sum of the absolute values of the deltas [d < 0] over [window]. *)
Theorem seed_phase_averages (closes : list num) (window : nat) :
  let seed := firstn window (deltas closes) in
  (forall i a b,
      nth_error closes i = Some a -> nth_error closes (S i) = Some b ->
      nth_error (deltas closes) i = Some (sub b a)) /\
  List.length seed = Nat.min window (List.length closes - 1) /\
  (Forall ordered seed ->
   avgUp (seed_state closes window) = div (spec_sumGain seed) (of_nat window) /\
   avgDown (seed_state closes window) = div (spec_sumLoss seed) (of_nat window)).
Proof.
  intros seed. split; [|split].
  - intros i a b. apply nth_error_deltas.
  - unfold seed. now rewrite length_firstn, deltas_length.
  - intros Hord. unfold seed_state. fold seed.
    rewrite (fold_accumulate _ _ Hord). split; reflexivity.
Qed.

(** C4.  For the delta [d] at index [i = window + k] of the delta array,
    the averages of the state after the iteration are the Wilder update, by
    [d], of the averages of the state before it, [rs] is recomputed from
    the updated averages, and the output entry at index [i + 1] is
    [100 - 100 / (1 + rs)]. *)
Theorem rolling_phase_step (closes : list num) (window k : nat) (d : num)
    (before : state) :
  nth_error (deltas closes) (window + k) = Some d ->
  nth_error (states closes window) k = Some before ->
  exists after,
    nth_error (states closes window) (S k) = Some after /\
    (avgUp after, avgDown after)
    = spec_wilder window (avgUp before, avgDown before) d /\
    rs after = spec_rs (avgUp after) (avgDown after) /\
    nth_error (computeRsi closes window) (window + k + 1)
    = Some (Some (spec_rsi (avgUp after, avgDown after))).
Proof.
  intros Hd Hbefore. rewrite <- nth_error_skipn in Hd.
  assert (Hk : k <= List.length (skipn window (deltas closes))).
  { apply Nat.lt_le_incl, nth_error_Some. congruence. }
  unfold states in *. rewrite (nth_error_states _ _ _ Hk) in Hbefore.
  injection Hbefore as Heq.
  pose proof (nth_error_trace window _ (seed_state closes window) _ Hd) as Hafter.
  rewrite Heq in Hafter.
  exists (roll window before d). cbn [nth_error].
  split; [exact Hafter|]. split; [apply roll_averages|].
  split; [apply rs_roll|].
  rewrite computeRsi_unfold, nth_error_app2 by (rewrite repeat_length; lia).
  rewrite repeat_length. replace (window + k + 1 - S window) with k by lia.
  unfold rolling_values. rewrite (map_nth_error _ _ _ Hafter).
  unfold emitted, spec_rsi. now rewrite rs_roll.
Qed.

End Shape.

(** ** Binary64 arithmetic

    What rounding to nearest preserves: the sign, the number of digits above
    the binary point, and every bound that is a point of the grid of the
    result. *)

Unset Implicit Arguments.

Section Binary64Rounding.

Local Open Scope Z_scope.

(** Digits *)
Lemma digits2_pos_bounds (p : positive) :
  2 ^ (Zpos (digits2_pos p) - 1) <= Zpos p < 2 ^ Zpos (digits2_pos p).
Proof.
  induction p as [p IH | p IH |]; cbn [digits2_pos].
  - rewrite Pos2Z.inj_succ.
    replace (Z.succ (Zpos (digits2_pos p)) - 1) with (Z.succ (Zpos (digits2_pos p) - 1)) by lia.
    rewrite !Z.pow_succ_r by lia. lia.
  - rewrite Pos2Z.inj_succ.
    replace (Z.succ (Zpos (digits2_pos p)) - 1) with (Z.succ (Zpos (digits2_pos p) - 1)) by lia.
    rewrite !Z.pow_succ_r by lia. lia.
  - cbn. lia.
Qed.

Lemma Zdigits2_bounds (m : Z) :
  0 < m -> 2 ^ (Zdigits2 m - 1) <= m < 2 ^ Zdigits2 m.
Proof.
  destruct m as [|p|p]; try lia. intros _. apply digits2_pos_bounds.
Qed.

Lemma Zdigits2_pos (m : Z) : 0 < m -> 0 < Zdigits2 m.
Proof. destruct m; simpl; lia. Qed.

Lemma Zdigits2_le (m k : Z) : 0 < m -> m < 2 ^ k -> Zdigits2 m <= k.
Proof.
  intros Hm Hk. pose proof (Zdigits2_bounds m Hm) as [Hlo _].
  destruct (Z_le_gt_dec (Zdigits2 m) k) as [|Hgt]; [assumption|].
  assert (2 ^ k <= 2 ^ (Zdigits2 m - 1)) by (apply Z.pow_le_mono_r; lia).
  lia.
Qed.

Lemma Zdigits2_ge (m k : Z) : 0 < m -> 2 ^ (k - 1) <= m -> k <= Zdigits2 m.
Proof.
  intros Hm Hk. pose proof (Zdigits2_bounds m Hm) as [_ Hhi].
  pose proof (Zdigits2_pos m Hm).
  destruct (Z_le_gt_dec k (Zdigits2 m)) as [|Hgt]; [assumption|].
  assert (2 ^ Zdigits2 m <= 2 ^ (k - 1)) by (apply Z.pow_le_mono_r; lia).
  lia.
Qed.

(** Shifting right *)
Lemma iter_pos_iter (A : Type) (f : A -> A) (p : positive) :
  forall x, iter_pos f p x = Pos.iter f x p.
Proof.
  induction p as [p IH | p IH |]; intros x; cbn [iter_pos Pos.iter].
  - now rewrite !IH, !Pos.iter_swap.
  - now rewrite !IH.
  - reflexivity.
Qed.

(** The mantissa after [n] right shifts is the quotient by [2 ^ n]; the
    shifted-out bits are recorded: if the result is marked inexact, either
    the input was or the remainder is not zero. *)

Lemma shr_1_spec (mrs : shr_record) :
  0 <= shr_m mrs ->
  shr_m (shr_1 mrs) = shr_m mrs / 2 /\
  (inexact (shr_1 mrs) = true -> inexact mrs = true \/ shr_m mrs mod 2 <> 0).
Proof.
  destruct mrs as [m r s]. unfold inexact. cbn [shr_m shr_r shr_s].
  intros Hm. destruct m as [|[p|p|]|p]; cbn [shr_1 shr_m shr_r shr_s]; try lia.
  - split; [reflexivity|]. rewrite orb_false_l. auto.
  - split; [rewrite Pos2Z.inj_xI; apply Z.div_unique with 1; lia|].
    intros _. right. rewrite Pos2Z.inj_xI.
    rewrite Z.add_comm, Z.mul_comm, Z.mod_add by lia. discriminate.
  - split; [rewrite Pos2Z.inj_xO; apply Z.div_unique with 0; lia|].
    rewrite orb_false_l. auto.
  - split; [reflexivity|]. intros _. right. discriminate.
Qed.

Lemma shr_iter_spec (p : positive) (mrs : shr_record) :
  0 <= shr_m mrs ->
  shr_m (iter_pos shr_1 p mrs) = shr_m mrs / 2 ^ Zpos p /\
  (inexact (iter_pos shr_1 p mrs) = true ->
   inexact mrs = true \/ shr_m mrs mod 2 ^ Zpos p <> 0).
Proof.
  intros Hm. rewrite iter_pos_iter.
  induction p as [|p IH] using Pos.peano_ind.
  - cbn [Pos.iter]. change (2 ^ 1) with 2. now apply shr_1_spec.
  - rewrite Pos.iter_succ, Pos2Z.inj_succ, Z.pow_succ_r by lia.
    destruct IH as [IHm IHi].
    assert (Hpow : 0 < 2 ^ Zpos p) by (apply Z.pow_pos_nonneg; lia).
    assert (Hq : 0 <= shr_m (Pos.iter shr_1 mrs p)).
    { rewrite IHm. apply Z.div_pos; lia. }
    destruct (shr_1_spec _ Hq) as [Hm1 Hi1]. split.
    + rewrite Hm1, IHm, Z.div_div by lia. f_equal. lia.
    + intros Hin. apply Hi1 in Hin as [Hin | Hodd].
      * apply IHi in Hin as [Hin | Hrem]; [now left | right].
        intros Hz. apply Hrem.
        rewrite Z.mul_comm, Z.rem_mul_r in Hz by lia. 
        pose proof (Z.mod_pos_bound (shr_m mrs) (2 ^ Zpos p) Hpow).
        pose proof (Z.mod_pos_bound (shr_m mrs / 2 ^ Zpos p) 2 ltac:(lia)).
        nia.
      * right. intros Hz. apply Hodd. rewrite IHm.
        rewrite Z.mul_comm, Z.rem_mul_r in Hz by lia.
        pose proof (Z.mod_pos_bound (shr_m mrs) (2 ^ Zpos p) Hpow).
        pose proof (Z.mod_pos_bound (shr_m mrs / 2 ^ Zpos p) 2 ltac:(lia)).
        nia.
Qed.

(** Rounding *)
Lemma fexp_eq (e : Z) : fexp prec emax e = Z.max (e - 53) (-1074).
Proof. reflexivity. Qed.

Lemma shr_record_of_loc_m (m : Z) (l : location) :
  shr_m (shr_record_of_loc m l) = m.
Proof. destruct l as [|[]]; reflexivity. Qed.

Lemma shr_record_of_loc_inexact (m : Z) (l : location) :
  inexact (shr_record_of_loc m l) = true -> l <> loc_Exact.
Proof. destruct l as [|[]]; cbn; intros H; discriminate || congruence. Qed.

Lemma shr_fexp_spec (mx ex : Z) (lx : location) :
  0 <= mx ->
  let e' := Z.max ex (fexp prec emax (Zdigits2 mx + ex)) in
  snd (shr_fexp prec emax mx ex lx) = e' /\
  shr_m (fst (shr_fexp prec emax mx ex lx)) = mx / 2 ^ (e' - ex) /\
  (inexact (fst (shr_fexp prec emax mx ex lx)) = true ->
   lx <> loc_Exact \/ mx mod 2 ^ (e' - ex) <> 0).
Proof.
  intros Hmx e'. unfold shr_fexp, shr. subst e'.
  set (f := fexp prec emax (Zdigits2 mx + ex)).
  destruct (f - ex) as [|p|p] eqn:Hn; cbn [fst snd].
  - replace (Z.max ex f) with ex by lia. rewrite Z.sub_diag, Z.pow_0_r, Z.div_1_r.
    split; [reflexivity|]. split; [apply shr_record_of_loc_m|].
    intros H. left. now apply shr_record_of_loc_inexact in H.
  - replace (Z.max ex f) with (ex + Zpos p) by lia.
    replace (ex + Zpos p - ex) with (Zpos p) by lia.
    split; [reflexivity|].
    destruct (shr_iter_spec p (shr_record_of_loc mx lx)) as [Hm Hi].
    { now rewrite shr_record_of_loc_m. }
    rewrite shr_record_of_loc_m in *. split; [exact Hm|].
    intros H. apply Hi in H as [H|H]; [left|now right].
    now apply shr_record_of_loc_inexact in H.
  - replace (Z.max ex f) with ex by lia. rewrite Z.sub_diag, Z.pow_0_r, Z.div_1_r.
    split; [reflexivity|]. split; [apply shr_record_of_loc_m|].
    intros H. left. now apply shr_record_of_loc_inexact in H.
Qed.

Lemma round_nearest_even_spec (mrs : shr_record) :
  let m_r := round_nearest_even (shr_m mrs) (loc_of_shr_record mrs) in
  m_r = shr_m mrs \/ (m_r = shr_m mrs + 1 /\ inexact mrs = true).
Proof.
  destruct mrs as [m [|] [|]]; cbn; auto.
  destruct (Z.even m); auto.
Qed.

Lemma binary_round_aux_spec (sx : bool) (mx ex : Z) (lx : location) :
  0 < mx ->
  let e' := Z.max ex (fexp prec emax (Zdigits2 mx + ex)) in
  let m' := mx / 2 ^ (e' - ex) in
  exists m_r,
    (m_r = m' \/ (m_r = m' + 1 /\ (lx <> loc_Exact \/ mx mod 2 ^ (e' - ex) <> 0))) /\
    ((m_r = 0 /\ binary_round_aux prec emax sx mx ex lx = S754_zero sx) \/
     (exists m'' e'',
         Zpos m'' * 2 ^ (e'' - e') = m_r /\ e' <= e'' /\
         binary_round_aux prec emax sx mx ex lx
         = if e'' <=? emax - prec then S754_finite sx m'' e'' else S754_infinity sx)).
Proof.
  intros Hmx e' m'.
  destruct (shr_fexp_spec mx ex lx ltac:(lia)) as (He1 & Hm1 & Hi1).
  fold e' in He1, Hm1, Hi1. fold m' in Hm1.
  unfold binary_round_aux.
  destruct (shr_fexp prec emax mx ex lx) as [mrs1 e1]. cbn [fst snd] in *. subst e1.
  pose proof (round_nearest_even_spec mrs1) as Hr. cbn zeta in Hr.
  set (m_r := round_nearest_even (shr_m mrs1) (loc_of_shr_record mrs1)) in *.
  rewrite Hm1 in Hr. clearbody m_r.
  (* bounds on the shifted mantissa *)
  pose proof (Zdigits2_bounds mx Hmx) as [_ Hd].
  pose proof (Zdigits2_pos mx Hmx) as Hdpos.
  assert (He' : -1074 <= e') by (subst e'; rewrite fexp_eq; lia).
  assert (Hn : 0 <= e' - ex) by (subst e'; lia).
  assert (Hm' : 0 <= m' < 2 ^ 53).
  { subst m'. split; [apply Z.div_pos; [lia | apply Z.pow_pos_nonneg; lia]|].
    apply Z.div_lt_upper_bound; [apply Z.pow_pos_nonneg; lia|].
    rewrite <- Z.pow_add_r by lia.
    eapply Z.lt_le_trans; [exact Hd|]. apply Z.pow_le_mono_r; [lia|].
    subst e'. rewrite fexp_eq. lia. }
  exists m_r. split.
  { destruct Hr as [Hr | [Hr Hin]]; [now left | right]. split; [exact Hr | auto]. }
  assert (Hmr : 0 <= m_r <= 2 ^ 53) by lia.
  destruct (shr_fexp_spec m_r e' loc_Exact ltac:(lia)) as (He2 & Hm2 & _).
  destruct (shr_fexp prec emax m_r e' loc_Exact) as [mrs2 e2]. cbn [fst snd] in *.
  rewrite <- He2 in Hm2.
  destruct (Z.eq_dec m_r 0) as [Hz | Hnz].
  - left. split; [exact Hz|]. rewrite Hm2, Hz, Z.div_0_l; [reflexivity|].
    apply Z.pow_nonzero; lia.
  - right. assert (Hpos : 0 < m_r) by lia.
    pose proof (Zdigits2_bounds m_r Hpos) as [Hlo Hhi].
    destruct (Z.eq_dec m_r (2 ^ 53)) as [Htop | Hlow].
    + assert (Hd2 : Zdigits2 m_r = 54) by (rewrite Htop; reflexivity).
      assert (He2' : e2 = e' + 1) by (rewrite Hd2, fexp_eq in He2; lia).
      clear He2. subst e2 m_r. replace (e' + 1 - e') with 1 in * by lia.
      change (2 ^ 53 / 2 ^ 1) with (Zpos 4503599627370496) in Hm2. rewrite Hm2.
      exists 4503599627370496%positive, (e' + 1).
      replace (e' + 1 - e') with 1 by lia.
      split; [reflexivity|]. split; [lia | reflexivity].
    + assert (Hd2 : Zdigits2 m_r <= 53) by (apply Zdigits2_le; lia).
      assert (He2' : e2 = e') by (rewrite fexp_eq in He2; lia).
      clear He2. subst e2. rewrite Z.sub_diag, Z.pow_0_r, Z.div_1_r in Hm2.
      rewrite Hm2. destruct m_r as [|p|p]; try lia.
      exists p, e'. rewrite Z.sub_diag, Z.pow_0_r.
      split; [lia|]. split; [lia | reflexivity].
Qed.

(** The sign of a rounded value *)

Lemma binary_round_aux_signed (sx : bool) (mx ex : Z) (lx : location) :
  signed sx (binary_round_aux prec emax sx mx ex lx).
Proof.
  unfold binary_round_aux.
  destruct (shr_fexp prec emax mx ex lx) as [mrs1 e1].
  destruct (shr_fexp prec emax _ e1 loc_Exact) as [mrs2 e2].
  destruct (shr_m mrs2); [reflexivity | | exact I].
  destruct (e2 <=? emax - prec); reflexivity.
Qed.

Lemma binary_round_signed (sx : bool) (mx : positive) (ex : Z) :
  signed sx (binary_round prec emax sx mx ex).
Proof.
  unfold binary_round. destruct (shl_align _ _ _). apply binary_round_aux_signed.
Qed.

(** Magnitude: a rounded value has at least as many digits above the
    binary point as the value rounded, unless that underflows. *)
Lemma Zdigits2_shift (m j : Z) :
  0 < m -> 0 <= j -> Zdigits2 (m * 2 ^ j) = Zdigits2 m + j.
Proof.
  intros Hm Hj. pose proof (Zdigits2_bounds m Hm) as [Hlo Hhi].
  pose proof (Zdigits2_pos m Hm) as Hd.
  assert (Hp : 0 < 2 ^ j) by (apply Z.pow_pos_nonneg; lia).
  apply Z.le_antisymm.
  - apply Zdigits2_le; [nia|]. rewrite Z.pow_add_r by lia. nia.
  - apply Zdigits2_ge; [nia|].
    replace (Zdigits2 m + j - 1) with (Zdigits2 m - 1 + j) by lia.
    rewrite Z.pow_add_r by lia. nia.
Qed.

Lemma Zdigits2_div (m j : Z) :
  0 < m -> 0 <= j -> j < Zdigits2 m -> Zdigits2 (m / 2 ^ j) = Zdigits2 m - j.
Proof.
  intros Hm Hj Hlt. pose proof (Zdigits2_bounds m Hm) as [Hlo Hhi].
  assert (Hp : 0 < 2 ^ j) by (apply Z.pow_pos_nonneg; lia).
  assert (Hq : 2 ^ (Zdigits2 m - j - 1) <= m / 2 ^ j).
  { apply Z.div_le_lower_bound; [lia|]. rewrite <- Z.pow_add_r by lia.
    now replace (j + (Zdigits2 m - j - 1)) with (Zdigits2 m - 1) by lia. }
  assert (Hq0 : 0 < m / 2 ^ j).
  { eapply Z.lt_le_trans; [|exact Hq]. apply Z.pow_pos_nonneg; lia. }
  apply Z.le_antisymm.
  - apply Zdigits2_le; [exact Hq0|]. apply Z.div_lt_upper_bound; [lia|].
    rewrite <- Z.pow_add_r by lia.
    now replace (j + (Zdigits2 m - j)) with (Zdigits2 m) by lia.
  - apply Zdigits2_ge; [exact Hq0 | exact Hq].
Qed.

Lemma Zdigits2_mono (a b : Z) : 0 < a -> a <= b -> Zdigits2 a <= Zdigits2 b.
Proof.
  intros Ha Hab. pose proof (Zdigits2_bounds a Ha) as [Hlo _].
  apply Zdigits2_ge; lia.
Qed.

Lemma binary_round_aux_magnitude (sx : bool) (mx ex : Z) (lx : location) (k : Z) :
  0 < mx -> -1074 <= k -> k < Zdigits2 mx + ex ->
  binary_round_aux prec emax sx mx ex lx = S754_infinity sx \/
  exists m e,
    binary_round_aux prec emax sx mx ex lx = S754_finite sx m e /\
    k < Zdigits2 (Zpos m) + e.
Proof.
  intros Hmx Hk Hmag.
  destruct (binary_round_aux_spec sx mx ex lx Hmx) as (m_r & Hr & Hres).
  cbn zeta in *.
  set (e' := Z.max ex (fexp prec emax (Zdigits2 mx + ex))) in *.
  pose proof (Zdigits2_pos mx Hmx) as Hdpos.
  assert (Hn : 0 <= e' - ex < Zdigits2 mx)
    by (subst e'; rewrite fexp_eq; clear - Hk Hmag Hdpos; lia).
  pose proof (Zdigits2_div mx (e' - ex) Hmx (proj1 Hn) (proj2 Hn)) as Hd'.
  assert (Hm0 : 0 <= mx / 2 ^ (e' - ex))
    by (apply Z.div_pos; [lia | apply Z.pow_pos_nonneg; lia]).
  set (m' := mx / 2 ^ (e' - ex)) in *. clearbody m'.
  assert (Hm' : 0 < m').
  { destruct (Z.eq_dec m' 0) as [Hz|]; [rewrite Hz in Hd'; cbn in Hd'; lia | lia]. }
  assert (Hmr : m' <= m_r) by lia.
  destruct Hres as [[Hz _] | (m'' & e'' & Hval & He'' & Hres)]; [lia|].
  rewrite Hres. destruct (e'' <=? emax - prec); [right | now left].
  exists m'', e''. split; [reflexivity|].
  pose proof (Zdigits2_mono m' m_r Hm' Hmr) as Hmono.
  rewrite <- Hval, Zdigits2_shift in Hmono by lia. lia.
Qed.

(** Upper bounds: a value at most [T * 2 ^ k], a point of the grid of
    the result's exponent, rounds to at most [T * 2 ^ k]. *)

Lemma binary_round_aux_upper (sx : bool) (mx ex : Z) (lx : location) (T k : Z) :
  0 < mx ->
  let e' := Z.max ex (fexp prec emax (Zdigits2 mx + ex)) in
  e' <= k ->
  mx + slack lx <= T * 2 ^ (k - ex) ->
  binary_round_aux prec emax sx mx ex lx = S754_zero sx \/
  exists m e,
    binary_round_aux prec emax sx mx ex lx
    = (if e <=? emax - prec then S754_finite sx m e else S754_infinity sx) /\
    e' <= e /\ Zpos m * 2 ^ (e - e') <= T * 2 ^ (k - e').
Proof.
  intros Hmx e' Hk Hbound.
  destruct (binary_round_aux_spec sx mx ex lx Hmx) as (m_r & Hr & Hres).
  cbn zeta in *. fold e' in Hr, Hres.
  assert (Hn : 0 <= e' - ex) by (subst e'; lia).
  assert (Hp : 0 < 2 ^ (e' - ex)) by (apply Z.pow_pos_nonneg; lia).
  replace (k - ex) with ((k - e') + (e' - ex)) in Hbound by lia.
  rewrite Z.pow_add_r in Hbound by lia.
  pose proof (Z.div_mod mx (2 ^ (e' - ex)) ltac:(lia)) as Hdm.
  pose proof (Z.mod_pos_bound mx (2 ^ (e' - ex)) Hp) as Hrem.
  set (G := T * 2 ^ (k - e')) in *.
  assert (Hle : m_r <= G).
  { destruct Hr as [-> | [-> Hwhy]].
    - assert (slack lx >= 0) by (destruct lx; cbn [slack]; lia). nia.
    - assert (1 <= slack lx + mx mod 2 ^ (e' - ex)).
      { destruct Hwhy as [Hl | Hm]; [destruct lx; cbn [slack]; [congruence | lia] |].
        assert (slack lx >= 0) by (destruct lx; cbn [slack]; lia). lia. }
      nia. }
  destruct Hres as [[_ Hz] | (m'' & e'' & Hval & He'' & Hres)]; [now left | right].
  exists m'', e''. split; [exact Hres|]. split; [exact He'' | lia].
Qed.

(** Aligning a mantissa to a smaller exponent *)
Lemma iter_xO (m d : positive) :
  Zpos (Pos.iter xO m d) = Zpos m * 2 ^ Zpos d.
Proof.
  induction d as [|d IH] using Pos.peano_ind.
  - cbn [Pos.iter]. rewrite Pos2Z.inj_xO. change (2 ^ 1) with 2. lia.
  - rewrite Pos.iter_succ, Pos2Z.inj_xO, IH, Pos2Z.inj_succ, Z.pow_succ_r by lia.
    lia.
Qed.

Lemma shl_align_spec (mx : positive) (ex ex' : Z) :
  snd (shl_align mx ex ex') = Z.min ex ex' /\
  Zpos (fst (shl_align mx ex ex')) = Zpos mx * 2 ^ (ex - Z.min ex ex').
Proof.
  unfold shl_align. destruct (ex' - ex) as [|p|p] eqn:Hd; cbn [fst snd].
  - replace (Z.min ex ex') with ex by lia. rewrite Z.sub_diag. cbn. lia.
  - replace (Z.min ex ex') with ex by lia. rewrite Z.sub_diag. cbn. lia.
  - replace (Z.min ex ex') with ex' by lia.
    replace (ex - ex') with (Zpos p) by lia. split; [reflexivity | apply iter_xO].
Qed.

Lemma binary_round_magnitude (sx : bool) (mx : positive) (ex k : Z) :
  -1074 <= k -> k < Zdigits2 (Zpos mx) + ex ->
  binary_round prec emax sx mx ex = S754_infinity sx \/
  exists m e,
    binary_round prec emax sx mx ex = S754_finite sx m e /\
    k < Zdigits2 (Zpos m) + e.
Proof.
  intros Hk Hmag. unfold binary_round.
  destruct (shl_align_spec mx ex (fexp prec emax (Zpos (digits2_pos mx) + ex)))
    as [He Hm].
  destruct (shl_align _ _ _) as [mz ez]. cbn [fst snd] in *.
  apply binary_round_aux_magnitude; [lia | exact Hk |].
  rewrite Hm, Zdigits2_shift by lia. lia.
Qed.

Lemma binary_round_upper (sx : bool) (mx : positive) (ex T k : Z) :
  let f := fexp prec emax (Zdigits2 (Zpos mx) + ex) in
  f <= k -> ex <= k ->
  Zpos mx <= T * 2 ^ (k - ex) ->
  binary_round prec emax sx mx ex = S754_zero sx \/
  exists m e,
    binary_round prec emax sx mx ex
    = (if e <=? emax - prec then S754_finite sx m e else S754_infinity sx) /\
    f <= e /\ Zpos m * 2 ^ (e - f) <= T * 2 ^ (k - f).
Proof.
  intros f Hf Hex Hbound. unfold binary_round.
  destruct (shl_align_spec mx ex (fexp prec emax (Zpos (digits2_pos mx) + ex)))
    as [He Hm].
  change (fexp prec emax (Zpos (digits2_pos mx) + ex)) with f in *.
  destruct (shl_align _ _ _) as [mz ez]. cbn [fst snd] in *.
  assert (Hmag : Zdigits2 (Zpos mz) + ez = Zdigits2 (Zpos mx) + ex).
  { rewrite Hm, Zdigits2_shift by lia. lia. }
  assert (He' : Z.max ez (fexp prec emax (Zdigits2 (Zpos mz) + ez)) = f).
  { rewrite Hmag. fold f. lia. }
  pose proof (binary_round_aux_upper sx (Zpos mz) ez loc_Exact T k (Pos2Z.is_pos mz)) as H.
  cbn zeta in H. rewrite He' in H. apply H; [exact Hf|].
  cbn [slack]. rewrite <- He in Hm. rewrite Z.add_0_r, Hm.
  assert (0 <= ex - ez) by (clear - He; lia).
  assert (0 < 2 ^ (ex - ez)) by (apply Z.pow_pos_nonneg; lia).
  replace (k - ez) with ((k - ex) + (ex - ez)) by lia.
  rewrite Z.pow_add_r by lia.
  clear - H1 Hbound. nia.
Qed.

(** *** Signs and bounds through the operations *)





Lemma signed_false_nonneg (x : spec_float) : signed false x -> nonneg x.
Proof. destruct x; cbn; auto. Qed.

Lemma binary_normalize_signed (m e : Z) :
  0 <= m -> signed false (binary_normalize prec emax m e false).
Proof.
  intros Hm. destruct m as [|p|p]; [reflexivity | | lia].
  apply binary_round_signed.
Qed.

Lemma nonneg_abs (x : spec_float) : nonneg (SFabs x).
Proof. destruct x; cbn; auto. Qed.

Lemma nonneg_of_leb (x : spec_float) :
  SFleb (S754_zero false) x = true -> nonneg x.
Proof. destruct x as [s|[|]| |[|] m e]; cbn; auto; discriminate. Qed.

Lemma nonneg_add (x y : spec_float) :
  nonneg x -> nonneg y -> nonneg (SFadd prec emax x y).
Proof.
  destruct x as [sx|sx| |sx mx ex], y as [sy|sy| |sy my ey]; cbn [nonneg];
    intros Hx Hy; subst; try exact I; try reflexivity.
  - cbn. destruct sx, sy; exact I.
  - cbn [SFadd cond_Zopp]. apply signed_false_nonneg, binary_normalize_signed. lia.
Qed.

Lemma nonneg_mul (x y : spec_float) :
  nonneg x -> nonneg y -> nonneg (SFmul prec emax x y).
Proof.
  destruct x as [sx|sx| |sx mx ex], y as [sy|sy| |sy my ey]; cbn [nonneg];
    intros Hx Hy; subst; try exact I; try reflexivity.
  cbn [SFmul xorb]. apply signed_false_nonneg, binary_round_aux_signed.
Qed.

Lemma nonneg_div (x y : spec_float) :
  nonneg x -> signed false y -> nonneg (SFdiv prec emax x y).
Proof.
  destruct x as [sx|sx| |sx mx ex], y as [sy|sy| |sy my ey]; cbn [nonneg signed];
    intros Hx Hy; subst; try exact I; try reflexivity.
  cbn [SFdiv xorb]. destruct (SFdiv_core_binary _ _ _ _ _ _) as [[mz ez] lz].
  apply signed_false_nonneg, binary_round_aux_signed.
Qed.

Lemma signed_of_nonzero (x : spec_float) :
  nonneg x -> SFeqb x (S754_zero false) = false -> signed false x.
Proof. destruct x as [s|s| |s m e]; cbn; auto; discriminate. Qed.

Lemma Zdigits2_lower (m k : Z) : 0 < m -> k < Zdigits2 m -> 2 ^ k <= m.
Proof.
  intros Hm Hk. pose proof (Zdigits2_bounds m Hm) as [Hlo _].
  destruct (Z_lt_le_dec k 0) as [Hneg|Hpos].
  - rewrite Z.pow_neg_r by lia. lia.
  - eapply Z.le_trans; [|exact Hlo]. apply Z.pow_le_mono_r; lia.
Qed.

Lemma ge_one_integer (z : Z) :
  0 < z -> ge_one (binary_normalize prec emax z 0 false).
Proof.
  intros Hz. destruct z as [|p|p]; try lia. cbn [binary_normalize].
  pose proof (Zdigits2_pos (Zpos p) Hz).
  destruct (binary_round_magnitude false p 0 0) as [-> | (m & e & -> & Hm)];
    cbn [ge_one]; lia.
Qed.

Lemma ge_one_add (r : spec_float) :
  nonneg r -> ge_one (SFadd prec emax SF_one r).
Proof.
  destruct r as [s|s| |s m e]; cbn [nonneg]; intros Hr; subst;
    try exact I; [cbn; lia|].
  cbn [SFadd SF_one cond_Zopp].
  set (e0 := Z.min (-52) e).
  destruct (shl_align_spec 4503599627370496 (-52) e0) as [_ H1].
  destruct (shl_align_spec m e e0) as [_ H2].
  replace (Z.min (-52) e0) with e0 in H1 by lia.
  replace (Z.min e e0) with e0 in H2 by lia.
  set (M1 := fst (shl_align 4503599627370496 (-52) e0)) in *.
  set (M2 := fst (shl_align m e e0)) in *.
  change (Zpos M1 + Zpos M2) with (Zpos (M1 + M2)). cbn [binary_normalize].
  assert (Hmag : 0 < Zdigits2 (Zpos (M1 + M2)) + e0).
  { assert (1 - e0 <= Zdigits2 (Zpos (M1 + M2))); [|lia].
    apply Zdigits2_ge; [lia|]. rewrite Pos2Z.inj_add, H1.
    replace (1 - e0 - 1) with (52 + (-52 - e0)) by lia.
    rewrite Z.pow_add_r by lia. change (2 ^ 52) with 4503599627370496. lia. }
  destruct (binary_round_magnitude false (M1 + M2) e0 0) as [-> | (m' & e' & -> & Hm)];
    cbn [ge_one]; lia.
Qed.

Lemma nonneg_sub_one (x : spec_float) :
  ge_one x -> nonneg (SFsub prec emax x SF_one).
Proof.
  destruct x as [s|[|]| |[|] m e]; cbn [ge_one]; intros Hx;
    try contradiction; try exact I; try reflexivity.
  cbn [SFsub SF_one cond_Zopp].
  set (e0 := Z.min e (-52)).
  destruct (shl_align_spec m e e0) as [_ H1].
  destruct (shl_align_spec 4503599627370496 (-52) e0) as [_ H2].
  replace (Z.min e e0) with e0 in H1 by lia.
  replace (Z.min (-52) e0) with e0 in H2 by lia.
  apply signed_false_nonneg, binary_normalize_signed.
  rewrite H1, H2.
  assert (Hd : Zdigits2 (Zpos m * 2 ^ (e - e0)) = Zdigits2 (Zpos m) + (e - e0))
    by (apply Zdigits2_shift; lia).
  assert (Hp : 0 < 2 ^ (e - e0)) by (apply Z.pow_pos_nonneg; lia).
  pose proof (Zdigits2_lower (Zpos m * 2 ^ (e - e0)) (- e0) ltac:(nia) ltac:(lia)) as Hlo.
  replace (-52 - e0) with (- e0 - 52) by lia.
  change 4503599627370496 with (2 ^ 52).
  rewrite <- Z.pow_add_r by lia. replace (52 + (- e0 - 52)) with (- e0) by lia. lia.
Qed.

(** Valid floats *)
Lemma bounded_spec (m : positive) (e : Z) :
  bounded prec emax m e = true ->
  e = Z.max (Zdigits2 (Zpos m) + e - 53) (-1074) /\ e <= 971.
Proof.
  unfold bounded, canonical_mantissa. intros H.
  apply andb_true_iff in H as [Hc He].
  apply Z.eqb_eq in Hc. apply Z.leb_le in He. rewrite fexp_eq in Hc.
  cbn [Zdigits2]. change (emax - prec) with 971 in He. lia.
Qed.

Lemma upper_to_le_100 (m : positive) (e e' : Z) :
  -1074 <= e' -> e' <= e -> e' <= 2 ->
  Zpos m * 2 ^ (e - e') <= 25 * 2 ^ (2 - e') ->
  (e <=? emax - prec) = true /\ Zpos m * 2 ^ (e + 1074) <= 100 * 2 ^ 1074.
Proof.
  intros He' Hee Hk Hle.
  assert (Hp : 0 < 2 ^ (e - e')) by (apply Z.pow_pos_nonneg; lia).
  assert (Hq : 0 < 2 ^ (2 - e')) by (apply Z.pow_pos_nonneg; lia).
  assert (Hs : 0 < 2 ^ (e' + 1074)) by (apply Z.pow_pos_nonneg; lia).
  split.
  - apply Z.leb_le. change (emax - prec) with 971.
    assert (Hlt : 2 ^ (e - e') < 2 ^ (7 - e')).
    { replace (7 - e') with (5 + (2 - e')) by lia. rewrite Z.pow_add_r by lia.
      change (2 ^ 5) with 32. nia. }
    apply Z.pow_lt_mono_r_iff in Hlt; lia.
  - replace (e + 1074) with ((e - e') + (e' + 1074)) by lia.
    rewrite Z.pow_add_r by lia.
    assert (Heq : 100 * 2 ^ 1074 = 25 * 2 ^ (2 - e') * 2 ^ (e' + 1074)).
    { rewrite <- Z.mul_assoc, <- Z.pow_add_r by lia.
      replace (2 - e' + (e' + 1074)) with (2 + 1074) by lia.
      rewrite Z.pow_add_r by lia. change (2 ^ 2) with 4. lia. }
    rewrite Heq, Z.mul_assoc. apply Z.mul_le_mono_nonneg_r; lia.
Qed.

Lemma new_location_slack (n r : Z) :
  slack (new_location n r) = if r =? 0 then 0 else 1.
Proof.
  unfold new_location, new_location_even, new_location_odd.
  destruct (Z.even n), (r =? 0); reflexivity.
Qed.

Lemma le_100_div (y : spec_float) :
  valid_binary y = true -> ge_one y -> le_100 (SFdiv prec emax SF_100 y).
Proof.
  destruct y as [s|[|]| |[|] m e]; cbn [ge_one valid_binary]; intros Hv Hy;
    try contradiction; try exact I.
  apply bounded_spec in Hv as [Hcanon Hemax].
  assert (Hd : Zdigits2 (Zpos m) = 53) by lia.
  assert (He : -52 <= e) by lia.
  pose proof (Zdigits2_bounds (Zpos m) ltac:(lia)) as [Hlo Hhi].
  rewrite Hd in Hlo, Hhi. change (2 ^ (53 - 1)) with 4503599627370496 in Hlo.
  change (2 ^ 53) with 9007199254740992 in Hhi.
  cbn [SFdiv SF_100 xorb]. unfold SFdiv_core_binary.
  change (Zdigits2 (Zpos 7036874417766400)) with 53. rewrite Hd, fexp_eq.
  replace (Z.min (Z.max (53 + -46 - (53 + e) - 53) (-1074)) (-46 - e))
    with (-99 - e) by lia.
  replace (-46 - e - (-99 - e)) with 53 by lia.
  change (Z.shiftl (Zpos 7036874417766400) 53)
    with 63382530011411470074835160268800.
  pose proof (Z_div_mod 63382530011411470074835160268800 (Zpos m) ltac:(lia)) as Hdiv.
  destruct (Z.div_eucl 63382530011411470074835160268800 (Zpos m)) as [q r].
  destruct Hdiv as [Hqr Hr].
  assert (Hq : 0 < q <= 14073748835532800) by nia.
  assert (Hslack : q + slack (new_location (Zpos m) r) <= 14073748835532800).
  { rewrite new_location_slack. destruct (Z.eqb_spec r 0); nia. }
  assert (Hdq : Zdigits2 q <= 54) by (apply Zdigits2_le; cbn; lia).
  set (e' := Z.max (-99 - e) (fexp prec emax (Zdigits2 q + (-99 - e)))).
  assert (He' : -1074 <= e' <= -46) by (subst e'; rewrite fexp_eq; lia).
  destruct (binary_round_aux_upper false q (-99 - e)
              (new_location (Zpos m) r) 25 2 ltac:(lia))
    as [-> | (m' & e'' & -> & Hge & Hle)].
  - fold e'. lia.
  - replace (2 - (-99 - e)) with (49 + (52 + e)) by lia.
    rewrite Z.pow_add_r by lia.
    assert (1 <= 2 ^ (52 + e)) by (apply (Z.pow_le_mono_r 2 0); lia).
    change (2 ^ 49) with 562949953421312. nia.
  - exact I.
  - fold e' in Hge, Hle.
    destruct (@upper_to_le_100 m' e'' e') as [-> Hval]; try lia.
    exact Hval.
Qed.

Lemma le_100_sub (z : spec_float) :
  valid_binary z = true -> le_100 z -> le_100 (SFsub prec emax SF_100 z).
Proof.
  destruct z as [s|[|]| |[|] m e]; cbn [le_100 valid_binary]; intros Hv Hz;
    try contradiction; try exact I.
  - cbn [SFsub SF_100 le_100]. apply Z.leb_le. vm_compute. reflexivity.
  - apply bounded_spec in Hv as [Hcanon Hemax].
    assert (He : -1074 <= e) by lia.
    cbn [SFsub SF_100 cond_Zopp].
    set (e0 := Z.min (-46) e).
    destruct (shl_align_spec 7036874417766400 (-46) e0) as [_ H1].
    destruct (shl_align_spec m e e0) as [_ H2].
    replace (Z.min (-46) e0) with e0 in H1 by lia.
    replace (Z.min e e0) with e0 in H2 by lia.
    set (M1 := Zpos (fst (shl_align 7036874417766400 (-46) e0))) in *.
    set (M2 := Zpos (fst (shl_align m e e0))) in *.
    assert (Hs : 0 < 2 ^ (e0 + 1074)) by (apply Z.pow_pos_nonneg; lia).
    assert (HM1 : M1 = 25 * 2 ^ (2 - e0)).
    { rewrite H1. replace (2 - e0) with (48 + (-46 - e0)) by lia.
      rewrite Z.pow_add_r by lia. change (2 ^ 48) with 281474976710656. lia. }
    assert (HM2 : M2 * 2 ^ (e0 + 1074) = Zpos m * 2 ^ (e + 1074)).
    { rewrite H2, <- Z.mul_assoc, <- Z.pow_add_r by lia. do 2 f_equal. lia. }
    assert (HM1' : M1 * 2 ^ (e0 + 1074) = 100 * 2 ^ 1074).
    { rewrite HM1, <- Z.mul_assoc, <- Z.pow_add_r by lia.
      replace (2 - e0 + (e0 + 1074)) with (2 + 1074) by lia.
      rewrite Z.pow_add_r by lia. change (2 ^ 2) with 4. lia. }
    assert (Hle : M2 <= M1). { nia. }
    destruct (M1 - M2) as [|p|p] eqn:HD; try lia; [exact I|].
    cbn [binary_normalize].
    assert (Hp : Zpos p <= 25 * 2 ^ (2 - e0)). { subst M2; lia. }
    assert (Hdp : Zdigits2 (Zpos p) <= 7 - e0).
    { apply Zdigits2_le; [lia|]. replace (7 - e0) with (5 + (2 - e0)) by lia.
      rewrite Z.pow_add_r by lia. change (2 ^ 5) with 32.
      assert (0 < 2 ^ (2 - e0)) by (apply Z.pow_pos_nonneg; lia). lia. }
    set (f := fexp prec emax (Zdigits2 (Zpos p) + e0)).
    assert (Hf : -1074 <= f <= -46) by (subst f; rewrite fexp_eq; lia).
    destruct (binary_round_upper false p e0 25 2)
      as [-> | (m' & e'' & -> & Hge & Hle')]; fold f; try lia; [exact I|].
    fold f in Hge, Hle'.
    destruct (@upper_to_le_100 m' e'' f) as [-> Hval]; try lia.
    exact Hval.
Qed.

(** The comparisons with [0] and [100] *)
Lemma le_100_in_range (x : spec_float) :
  valid_binary x = true -> le_100 x ->
  x = S754_nan \/
  (SFleb (S754_zero false) x = true /\ SFleb x SF_100 = true).
Proof.
  destruct x as [s|[|]| |[|] m e]; cbn [le_100 valid_binary]; intros Hv Hx;
    try contradiction; auto.
  right. split; [reflexivity|].
  apply bounded_spec in Hv as [Hcanon Hemax].
  pose proof (Zdigits2_bounds (Zpos m) ltac:(lia)) as [Hlo Hhi].
  unfold SFleb, SFcompare, SF_100.
  destruct (Z.compare_spec e (-46)) as [Heq | Hlt | Hgt]; [| reflexivity |].
  - subst e.
    assert (Hm : Zpos m <= 7036874417766400).
    { assert (Hc : 100 * 2 ^ 1074 = 7036874417766400 * 2 ^ (-46 + 1074))
        by (vm_compute; reflexivity).
      rewrite Hc in Hx.
      apply Z.mul_le_mono_pos_r in Hx; [exact Hx|].
      apply Z.pow_pos_nonneg; lia. }
    destruct (Pos.compare_cont Eq m 7036874417766400) eqn:Hc;
      [reflexivity | reflexivity | exfalso].
    assert (Hgt : (m > 7036874417766400)%positive) by exact Hc.
    apply Pos.gt_lt, Pos2Z.pos_lt_pos in Hgt. clear - Hm Hgt. lia.
  - exfalso.
    assert (Hd : Zdigits2 (Zpos m) = 53) by lia. rewrite Hd in Hlo.
    change (2 ^ (53 - 1)) with (2 ^ 52) in Hlo.
    assert (Hbig : 2 ^ 52 * 2 ^ (e + 1074) <= Zpos m * 2 ^ (e + 1074)).
    { apply Z.mul_le_mono_nonneg_r; [apply Z.pow_nonneg; lia | exact Hlo]. }
    rewrite <- Z.pow_add_r in Hbig by lia.
    assert (Hpow : 2 ^ (7 + 1074) <= 2 ^ (52 + (e + 1074)))
      by (apply Z.pow_le_mono_r; lia).
    rewrite Z.pow_add_r in Hpow by lia. change (2 ^ 7) with 128 in Hpow.
    assert (0 < 2 ^ 1074) by (apply Z.pow_pos_nonneg; lia). lia.
Qed.

(** *** Division by one

    Rounding a value that is already a binary64 value returns it. *)

Lemma binary_round_aux_canonical (sx : bool) (mx : positive) (ex j : Z) :
  bounded prec emax mx ex = true -> 0 <= j ->
  binary_round_aux prec emax sx (Zpos mx * 2 ^ j) (ex - j) loc_Exact
  = S754_finite sx mx ex.
Proof.
  intros Hv Hj. pose proof Hv as Hb. apply bounded_spec in Hb as [Hcanon Hemax].
  assert (Hp : 0 < 2 ^ j) by (apply Z.pow_pos_nonneg; lia).
  assert (Hd : Zdigits2 (Zpos mx * 2 ^ j) + (ex - j) = Zdigits2 (Zpos mx) + ex).
  { rewrite Zdigits2_shift by lia. lia. }
  unfold binary_round_aux.
  destruct (shr_fexp_spec (Zpos mx * 2 ^ j) (ex - j) loc_Exact ltac:(lia))
    as (He1 & Hm1 & Hi1).
  rewrite Hd, fexp_eq in He1, Hm1, Hi1.
  replace (Z.max (ex - j) (Z.max (Zdigits2 (Zpos mx) + ex - 53) (-1074)))
    with ex in * by lia.
  replace (ex - (ex - j)) with j in * by lia.
  rewrite Z.div_mul in Hm1 by lia. rewrite Z.mod_mul in Hi1 by lia.
  destruct (shr_fexp prec emax (Zpos mx * 2 ^ j) (ex - j) loc_Exact) as [mrs1 e1].
  cbn [fst snd] in *. subst e1.
  destruct (round_nearest_even_spec mrs1) as [Hr | [_ Hin]].
  2:{ apply Hi1 in Hin as [Hin | Hin]; congruence. }
  rewrite Hr, Hm1.
  destruct (shr_fexp_spec (Zpos mx) ex loc_Exact ltac:(lia)) as (He2 & Hm2 & _).
  rewrite fexp_eq in He2, Hm2.
  replace (Z.max ex (Z.max (Zdigits2 (Zpos mx) + ex - 53) (-1074)))
    with ex in * by lia.
  rewrite Z.sub_diag, Z.pow_0_r, Z.div_1_r in Hm2.
  destruct (shr_fexp prec emax (Zpos mx) ex loc_Exact) as [mrs2 e2].
  cbn [fst snd] in *. subst e2. rewrite Hm2.
  change (emax - prec) with 971.
  now destruct (Z.leb_spec ex 971); [|lia].
Qed.

Lemma SFdiv_one (x : spec_float) :
  valid_binary x = true -> SFdiv prec emax x SF_one = x.
Proof.
  destruct x as [[|]|[|]| |sx mx ex]; try reflexivity.
  cbn [valid_binary]. intros Hv.
  pose proof Hv as Hb. apply bounded_spec in Hb as [Hcanon Hemax].
  pose proof (Zdigits2_pos (Zpos mx) ltac:(lia)) as Hdpos.
  cbn [SFdiv SF_one]. unfold SFdiv_core_binary.
  change (Zdigits2 (Zpos 4503599627370496)) with 53. rewrite fexp_eq.
  set (j := if Z.eq_dec ex (-1074) then 0 else 1).
  assert (Hj : 0 <= j <= 1) by (subst j; destruct (Z.eq_dec ex (-1074)); lia).
  replace (Z.min (Z.max (Zdigits2 (Zpos mx) + ex - (53 + -52) - 53) (-1074))
             (ex - -52)) with (ex - j)
    by (subst j; destruct (Z.eq_dec ex (-1074)); lia).
  replace (ex - -52 - (ex - j)) with (52 + j) by lia.
  assert (Hsh : match 52 + j with
                | Zpos _ => Z.shiftl (Zpos mx) (52 + j)
                | 0 => Zpos mx
                | Zneg _ => 0
                end = Zpos mx * 2 ^ j * 4503599627370496).
  { destruct (52 + j) as [|p|p] eqn:Hs; try lia.
    rewrite <- Hs, Z.shiftl_mul_pow2, Z.add_comm, Z.pow_add_r by lia.
    change (2 ^ 52) with 4503599627370496. lia. }
  rewrite Hsh.
  pose proof (Z_div_mod (Zpos mx * 2 ^ j * 4503599627370496) 4503599627370496
                ltac:(lia)) as Hdiv.
  destruct (Z.div_eucl (Zpos mx * 2 ^ j * 4503599627370496) 4503599627370496)
    as [q r].
  destruct Hdiv as [Hqr Hr].
  assert (Hq : q = Zpos mx * 2 ^ j /\ r = 0) by lia.
  destruct Hq as [-> ->].
  change (new_location 4503599627370496 0) with loc_Exact.
  rewrite xorb_false_r. now apply binary_round_aux_canonical.
Qed.

End Binary64Rounding.

(** ** The engine in binary64 arithmetic *)

Section Binary64Engine.

Local Open Scope Z_scope.


Lemma Prim2SF_of_nat (n : nat) :
  Z.of_nat n < 2 ^ 53 ->
  Prim2SF (of_nat n) = binary_normalize prec emax (Z.of_nat n) 0 false.
Proof.
  intros Hn. cbn [of_nat IEEE]. rewrite of_uint63_spec, Uint63.of_Z_spec.
  rewrite Z.mod_small; [reflexivity|].
  split; [lia|]. eapply Z.lt_trans; [exact Hn | reflexivity].
Qed.

(** Dividing by [1] changes nothing. *)
Lemma binary64_div_one (x : float) : PrimFloat.div x 1 = x.
Proof.
  apply Prim2SF_inj. rewrite FloatAxioms.div_spec.
  change (Prim2SF 1) with SF_one. apply SFdiv_one, Prim2SF_valid.
Qed.

(** *** Averages are never negative *)

Section Window.

Variable window : nat.
Hypothesis window_pos : (0 < window)%nat.
Hypothesis window_safe : Z.of_nat window < 2 ^ 53.

Lemma window_ge_one : ge_one (Prim2SF (of_nat window)).
Proof.
  rewrite Prim2SF_of_nat by exact window_safe. apply ge_one_integer. lia.
Qed.

Lemma window_signed : signed false (Prim2SF (of_nat window)).
Proof.
  rewrite Prim2SF_of_nat by exact window_safe. apply binary_normalize_signed. lia.
Qed.

Lemma fnonneg_window_minus_one : fnonneg (sub (of_nat window) (of_nat 1)).
Proof.
  unfold fnonneg. cbn [sub IEEE]. rewrite FloatAxioms.sub_spec.
  change (Prim2SF (of_nat 1)) with SF_one. apply nonneg_sub_one, window_ge_one.
Qed.

Lemma fnonneg_zero : fnonneg (of_nat 0).
Proof. exact I. Qed.

Lemma fnonneg_add (x y : float) : fnonneg x -> fnonneg y -> fnonneg (add x y).
Proof.
  unfold fnonneg. cbn [add IEEE]. rewrite FloatAxioms.add_spec. apply nonneg_add.
Qed.

Lemma fnonneg_mul (x y : float) : fnonneg x -> fnonneg y -> fnonneg (mul x y).
Proof.
  unfold fnonneg. cbn [mul IEEE]. rewrite FloatAxioms.mul_spec. apply nonneg_mul.
Qed.

Lemma fnonneg_abs (x : float) : fnonneg (abs x).
Proof.
  unfold fnonneg. cbn [abs IEEE]. rewrite FloatAxioms.abs_spec. apply nonneg_abs.
Qed.

Lemma fnonneg_geb (d : float) : geb d (of_nat 0) = true -> fnonneg d.
Proof.
  unfold fnonneg. cbn [geb IEEE]. rewrite FloatAxioms.leb_spec.
  change (Prim2SF (of_nat 0)) with (S754_zero false). apply nonneg_of_leb.
Qed.

Lemma fnonneg_div_window (x : float) : fnonneg x -> fnonneg (div x (of_nat window)).
Proof.
  unfold fnonneg. cbn [div IEEE]. rewrite FloatAxioms.div_spec. intros Hx.
  apply nonneg_div; [exact Hx | apply window_signed].
Qed.

Lemma fnonneg_strength (up down : float) :
  fnonneg up -> fnonneg down -> fnonneg (strength up down).
Proof.
  unfold fnonneg, strength, divisor. intros Hup Hdown.
  cbn [div eqb IEEE]. rewrite FloatAxioms.div_spec.
  apply nonneg_div; [exact Hup|].
  destruct (PrimFloat.eqb down (of_nat 0)) eqn:Hz; [reflexivity|].
  rewrite FloatAxioms.eqb_spec in Hz.
  change (Prim2SF (of_nat 0)) with (S754_zero false) in Hz.
  now apply signed_of_nonzero.
Qed.

Lemma fnonneg_accumulate (up down d : float) :
  fnonneg up -> fnonneg down ->
  fnonneg (fst (accumulate (up, down) d)) /\ fnonneg (snd (accumulate (up, down) d)).
Proof.
  intros Hup Hdown. unfold accumulate.
  destruct (geb d (of_nat 0)) eqn:Hd; cbn [fst snd]; split; try assumption.
  - apply fnonneg_add; [exact Hup | now apply fnonneg_geb].
  - apply fnonneg_add; [exact Hdown | apply fnonneg_abs].
Qed.

Lemma fnonneg_fold_accumulate (seed : list float) :
  forall up down,
    fnonneg up -> fnonneg down ->
    fnonneg (fst (fold_left accumulate seed (up, down))) /\
    fnonneg (snd (fold_left accumulate seed (up, down))).
Proof.
  induction seed as [|d seed IH]; intros up down Hup Hdown; [now split|].
  cbn [fold_left].
  destruct (fnonneg_accumulate up down d Hup Hdown) as [H1 H2].
  destruct (accumulate (up, down) d) as [up' down']. now apply IH.
Qed.

Lemma fnonneg_seed_state (closes : list float) :
  fnonneg (avgUp (seed_state closes window)) /\
  fnonneg (avgDown (seed_state closes window)).
Proof.
  unfold seed_state.
  destruct (fnonneg_fold_accumulate (firstn window (deltas closes))
              (of_nat 0) (of_nat 0) fnonneg_zero fnonneg_zero) as [H1 H2].
  destruct (fold_left _ _ _) as [up down]. cbn [fst snd avgUp avgDown] in *.
  split; now apply fnonneg_div_window.
Qed.

Lemma fnonneg_smooth (up down d : float) :
  fnonneg up -> fnonneg down ->
  fnonneg (fst (smooth window up down d)) /\ fnonneg (snd (smooth window up down d)).
Proof.
  intros Hup Hdown. unfold smooth.
  pose proof fnonneg_window_minus_one as Hw1.
  destruct (geb d (of_nat 0)) eqn:Hd; cbn [fst snd]; split;
    apply fnonneg_div_window;
    repeat first [ apply fnonneg_add | apply fnonneg_mul | apply fnonneg_abs
                 | assumption | now apply fnonneg_geb ].
Qed.

Lemma fnonneg_trace (ds : list float) :
  forall s0 s,
    fnonneg (avgUp s0) /\ fnonneg (avgDown s0) ->
    In s (trace window s0 ds) ->
    fnonneg (avgUp s) /\ fnonneg (avgDown s).
Proof.
  induction ds as [|d ds IH]; intros s0 s [Hup Hdown] Hin; cbn [trace] in Hin;
    [easy|].
  assert (H1 : fnonneg (avgUp (roll window s0 d)) /\
               fnonneg (avgDown (roll window s0 d))).
  { rewrite avgUp_roll, avgDown_roll. now apply fnonneg_smooth. }
  destruct Hin as [<- | Hin]; [exact H1 | now apply (IH _ _ H1)].
Qed.

End Window.

Lemma binary64_rsi_value (r : float) :
  fnonneg r -> rsi_value r = nan \/ in_range (rsi_value r) = true.
Proof.
  unfold fnonneg, rsi_value, in_range. intros Hr.
  cbn [add sub div geb IEEE].
  set (y := PrimFloat.add (of_nat 1) r).
  set (z := PrimFloat.div (of_nat 100) y).
  set (v := PrimFloat.sub (of_nat 100) z).
  assert (Hy : ge_one (Prim2SF y)).
  { subst y. rewrite FloatAxioms.add_spec.
    change (Prim2SF (of_nat 1)) with SF_one. now apply ge_one_add. }
  assert (Hz : le_100 (Prim2SF z)).
  { subst z. rewrite FloatAxioms.div_spec.
    change (Prim2SF (of_nat 100)) with SF_100.
    apply le_100_div; [apply Prim2SF_valid | exact Hy]. }
  assert (Hv : le_100 (Prim2SF v)).
  { subst v. rewrite FloatAxioms.sub_spec.
    change (Prim2SF (of_nat 100)) with SF_100.
    apply le_100_sub; [apply Prim2SF_valid | exact Hz]. }
  destruct (le_100_in_range (Prim2SF v) (Prim2SF_valid v) Hv) as [Hnan | [Hlo Hhi]].
  - left. apply Prim2SF_inj. exact Hnan.
  - right. rewrite !FloatAxioms.leb_spec.
    change (Prim2SF (of_nat 0)) with (S754_zero false).
    change (Prim2SF (of_nat 100)) with SF_100.
    now rewrite Hlo, Hhi.
Qed.

(** C8 (as amended).  In binary64 arithmetic, for every price series
    (whatever its entries, the infinities and NaN included) and every
    positive window below [2 ^ 53], every defined output value is NaN or
    lies in the closed interval [[0, 100]]. *)
Theorem binary64_output_in_range (closes : list float) (window : nat) (v : float) :
  (0 < window)%nat ->
  Z.of_nat window < 2 ^ 53 ->
  In (Some v) (computeRsi closes window) ->
  v = nan \/ in_range v = true.
Proof.
  intros Hw Hsafe Hin.
  apply computeRsi_defined in Hin as (s & Hs & ->).
  apply binary64_rsi_value. rewrite (@rs_roll_trace _ _ _ _ _ _ Hs).
  destruct (fnonneg_trace window Hw Hsafe _ _ s (fnonneg_seed_state window Hw Hsafe closes) Hs).
  now apply fnonneg_strength.
Qed.

(** *** The zero-division rule *)

Section DivisionNaN.

Local Open Scope Z_scope.

(** Rounding a mantissa that is not negative never gives NaN. *)
Lemma binary_round_aux_not_nan (sx : bool) (mx ex : Z) (lx : location) :
  0 <= mx -> binary_round_aux prec emax sx mx ex lx <> S754_nan.
Proof.
  intros Hmx. unfold binary_round_aux.
  destruct (shr_fexp_spec mx ex lx Hmx) as (_ & Hm1 & _).
  destruct (shr_fexp prec emax mx ex lx) as [mrs1 e1]. cbn [fst snd] in *.
  pose proof (round_nearest_even_spec mrs1) as Hr. cbn zeta in Hr.
  set (m_r := round_nearest_even (shr_m mrs1) (loc_of_shr_record mrs1)) in *.
  assert (Hm' : 0 <= shr_m mrs1).
  { rewrite Hm1. apply Z.div_pos; [exact Hmx|].
    apply Z.pow_pos_nonneg; [lia|].
    pose proof (Z.le_max_l ex (fexp prec emax (Zdigits2 mx + ex))). lia. }
  assert (Hmr : 0 <= m_r) by lia. clearbody m_r.
  destruct (shr_fexp_spec m_r e1 loc_Exact Hmr) as (_ & Hm2 & _).
  destruct (shr_fexp prec emax m_r e1 loc_Exact) as [mrs2 e2]. cbn [fst snd] in *.
  assert (Hm2' : 0 <= shr_m mrs2).
  { rewrite Hm2. apply Z.div_pos; [exact Hmr|].
    apply Z.pow_pos_nonneg; [lia|].
    pose proof (Z.le_max_l e1 (fexp prec emax (Zdigits2 m_r + e1))). lia. }
  destruct (shr_m mrs2) as [|p|p]; [discriminate | | lia].
  destruct (e2 <=? emax - prec); discriminate.
Qed.

(** A quotient of two finite numbers is not NaN. *)
Lemma SFdiv_finite_not_nan (sx sy : bool) (mx my : positive) (ex ey : Z) :
  SFdiv prec emax (S754_finite sx mx ex) (S754_finite sy my ey) <> S754_nan.
Proof.
  cbn [SFdiv]. unfold SFdiv_core_binary.
  set (s := ex - ey - _).
  set (m' := match s with Zpos _ => Z.shiftl (Zpos mx) s | 0 => Zpos mx | Zneg _ => 0 end).
  assert (Hm' : 0 <= m').
  { subst m'. destruct s; try lia. apply Z.shiftl_nonneg. lia. }
  pose proof (Z_div_mod m' (Zpos my) ltac:(lia)) as Hdm.
  destruct (Z.div_eucl m' (Zpos my)) as [q r]. destruct Hdm as [Hdm Hr].
  apply binary_round_aux_not_nan. nia.
Qed.

(** When the divisor is not zero, a quotient of numbers that are not
    negative is NaN exactly when one of them is, or both are infinite. *)
Lemma SFdiv_nan_iff (x y : spec_float) :
  nonneg x -> signed false y -> SFeqb y (S754_zero false) = false ->
  SFdiv prec emax x y = S754_nan
  <-> x = S754_nan \/ y = S754_nan
      \/ (x = S754_infinity false /\ y = S754_infinity false).
Proof.
  intros Hx Hy Hnz.
  destruct x as [sx|sx| |sx mx ex], y as [sy|sy| |sy my ey];
    cbn [nonneg signed] in Hx, Hy; subst; try discriminate;
    try (cbn [SFdiv]; split; [discriminate | intros [H | [H | [H1 H2]]]; discriminate]);
    try (cbn [SFdiv]; split; [auto | reflexivity]).
  split; [intros H; now apply SFdiv_finite_not_nan in H|].
  intros [H | [H | [H _]]]; discriminate.
Qed.

(** When the divisor is not zero, such a quotient is [Infinity] only if
    the dividend is not zero and the divisor is finite. *)
Lemma SFdiv_infinity (x y : spec_float) :
  nonneg x -> signed false y -> SFeqb y (S754_zero false) = false ->
  SFdiv prec emax x y = S754_infinity false ->
  SFeqb x (S754_zero false) = false /\ y <> S754_infinity false.
Proof.
  intros Hx Hy Hnz.
  destruct x as [sx|sx| |sx mx ex], y as [sy|sy| |sy my ey];
    cbn [nonneg signed] in Hx, Hy; subst; try discriminate;
    try (cbn [SFdiv]; discriminate).
  - intros _. split; [reflexivity | discriminate].
  - intros _. split; [reflexivity | discriminate].
Qed.

End DivisionNaN.

Section ZeroDivisionRule.

Local Open Scope Z_scope.

(** With [avgDown == 0] the divisor is [1] and [rs] is [avgUp]. *)
Lemma rs_of_zero_avgDown (closes : list float) (window : nat) (s : state) :
  In s (states closes window) ->
  eqb (avgDown s) (of_nat 0) = true -> rs s = avgUp s.
Proof.
  intros Hin Hzero. rewrite (states_rs Hin). unfold strength, divisor.
  rewrite Hzero. apply binary64_div_one.
Qed.

Lemma nan_of_Prim2SF (x : float) : x = nan <-> Prim2SF x = S754_nan.
Proof.
  split; [now intros -> | intros H; now apply Prim2SF_inj].
Qed.

Lemma infinity_of_Prim2SF (x : float) :
  x = infinity <-> Prim2SF x = S754_infinity false.
Proof.
  split; [now intros -> | intros H; now apply Prim2SF_inj].
Qed.

Lemma fnonneg_states (closes : list float) (window : nat) (s : state) :
  (0 < window)%nat -> Z.of_nat window < 2 ^ 53 ->
  In s (states closes window) ->
  fnonneg (avgUp s) /\ fnonneg (avgDown s).
Proof.
  intros Hw Hsafe [<- | Hin]; [exact (fnonneg_seed_state window Hw Hsafe closes)|].
  exact (fnonneg_trace window Hw Hsafe _ _ s
           (fnonneg_seed_state window Hw Hsafe closes) Hin).
Qed.

(** [rs] is NaN exactly when an average is NaN or both are infinite. *)
Lemma rs_nan_iff (closes : list float) (window : nat) (s : state) :
  (0 < window)%nat ->
  Z.of_nat window < 2 ^ 53 ->
  In s (states closes window) ->
  rs s = nan
  <-> avgUp s = nan \/ avgDown s = nan
      \/ (avgUp s = infinity /\ avgDown s = infinity).
Proof.
  intros Hw Hsafe Hin.
  destruct (fnonneg_states closes window s Hw Hsafe Hin) as [Hup Hdown].
  pose proof (states_rs Hin) as Hrs.
  rewrite !nan_of_Prim2SF, !infinity_of_Prim2SF.
  destruct (eqb (avgDown s) (of_nat 0)) eqn:Hzero.
  - rewrite (rs_of_zero_avgDown closes window s Hin Hzero).
    cbn [eqb IEEE] in Hzero. rewrite FloatAxioms.eqb_spec in Hzero.
    change (Prim2SF (of_nat 0)) with (S754_zero false) in Hzero.
    split; [auto|]. intros [H | [H | [_ H]]]; [exact H | |];
      rewrite H in Hzero; discriminate.
  - rewrite Hrs. unfold strength, divisor. rewrite Hzero.
    cbn [div eqb IEEE] in *. rewrite FloatAxioms.div_spec.
    rewrite FloatAxioms.eqb_spec in Hzero.
    change (Prim2SF (of_nat 0)) with (S754_zero false) in Hzero.
    apply SFdiv_nan_iff; [exact Hup | | exact Hzero].
    now apply signed_of_nonzero.
Qed.

(** C2 (as amended).  In the seed state and in the state after every
    rolling iteration (the window positive and below [2 ^ 53]), [rs] is
    [avgUp / avgDown] with the divisor [1] substituted when [avgDown == 0],
    so that [rs = avgUp] in that case, and the divisor used is never zero;
    [rs] is NaN exactly when [avgUp] or [avgDown] is NaN or both are
    infinite, and [rs] is [Infinity] only if [avgUp] is not zero and
    [avgDown] is not [Infinity]. *)
Theorem rs_zero_division_rule (closes : list float) (window : nat) (s : state) :
  (0 < window)%nat ->
  Z.of_nat window < 2 ^ 53 ->
  In s (states closes window) ->
  rs s = spec_rs (avgUp s) (avgDown s) /\
  eqb (spec_divisor (avgDown s)) (of_nat 0) = false /\
  (eqb (avgDown s) (of_nat 0) = true -> rs s = avgUp s) /\
  (rs s = nan
   <-> avgUp s = nan \/ avgDown s = nan
       \/ (avgUp s = infinity /\ avgDown s = infinity)) /\
  (rs s = infinity ->
   eqb (avgUp s) (of_nat 0) = false /\ avgDown s <> infinity).
Proof.
  intros Hw Hsafe Hin.
  destruct (fnonneg_states closes window s Hw Hsafe Hin) as [Hup Hdown].
  pose proof (states_rs Hin) as Hrs.
  split; [|split; [|split; [|split]]].
  - rewrite Hrs. reflexivity.
  - unfold spec_divisor.
    destruct (eqb (avgDown s) (of_nat 0)) eqn:Hzero; [reflexivity | exact Hzero].
  - now apply (rs_of_zero_avgDown closes window).
  - now apply (rs_nan_iff closes window).
  - rewrite !infinity_of_Prim2SF. cbn [eqb IEEE].
    rewrite FloatAxioms.eqb_spec.
    change (Prim2SF (of_nat 0)) with (S754_zero false).
    destruct (eqb (avgDown s) (of_nat 0)) eqn:Hzero.
    + rewrite (rs_of_zero_avgDown closes window s Hin Hzero).
      cbn [eqb IEEE] in Hzero. rewrite FloatAxioms.eqb_spec in Hzero.
      change (Prim2SF (of_nat 0)) with (S754_zero false) in Hzero.
      intros Hinf. rewrite Hinf. split; [reflexivity|].
      intros H. rewrite H in Hzero. discriminate.
    + rewrite Hrs. unfold strength, divisor. rewrite Hzero.
      cbn [div eqb IEEE] in *. rewrite FloatAxioms.div_spec.
      rewrite FloatAxioms.eqb_spec in Hzero.
      change (Prim2SF (of_nat 0)) with (S754_zero false) in Hzero.
      apply SFdiv_infinity; [exact Hup | | exact Hzero].
      now apply signed_of_nonzero.
Qed.

End ZeroDivisionRule.



(** *** A flat series *)

Lemma upper_finite (sx : bool) (m : positive) (e f k : Z) :
  f <= e -> f <= k -> k <= 971 ->
  Zpos m * 2 ^ (e - f) <= 2 ^ (k - f) ->
  (e <=? emax - prec) = true /\ Zdigits2 (Zpos m) + e <= k + 1.
Proof.
  intros Hfe Hfk Hk Hle.
  assert (Hp : 0 < 2 ^ (e - f)) by (apply Z.pow_pos_nonneg; lia).
  assert (Hd : Zdigits2 (Zpos m * 2 ^ (e - f)) <= k - f + 1).
  { apply Zdigits2_le; [lia|]. rewrite Z.pow_add_r by lia. 
    assert (0 < 2 ^ (k - f)) by (apply Z.pow_pos_nonneg; lia). lia. }
  rewrite Zdigits2_shift in Hd by lia.
  pose proof (Zdigits2_pos (Zpos m) ltac:(lia)).
  split; [apply Z.leb_le; change (emax - prec) with 971; lia | lia].
Qed.

Lemma binary_round_finite (mx : positive) (ex k : Z) :
  -1074 <= ex <= k -> k <= 971 -> Zpos mx <= 2 ^ (k - ex) ->
  finite_nonneg (binary_round prec emax false mx ex) /\
  below (k + 1) (binary_round prec emax false mx ex).
Proof.
  intros Hex Hk Hle.
  pose proof (Zdigits2_pos (Zpos mx) ltac:(lia)) as Hdpos.
  assert (Hd : Zdigits2 (Zpos mx) <= k - ex + 1).
  { apply Zdigits2_le; [lia|]. rewrite Z.pow_add_r by lia.
    assert (0 < 2 ^ (k - ex)) by (apply Z.pow_pos_nonneg; lia). lia. }
  set (f := fexp prec emax (Zdigits2 (Zpos mx) + ex)).
  assert (Hf : -1074 <= f <= k) by (subst f; rewrite fexp_eq; lia).
  destruct (binary_round_upper false mx ex 1 k)
    as [-> | (m & e & -> & Hge & Hle')]; fold f; try lia; [now split|].
  fold f in Hge, Hle'. rewrite !Z.mul_1_l in Hle'.
  destruct (upper_finite false m e f k) as [-> Hb]; try lia.
  now split.
Qed.

Lemma finite_nonneg_sub_one (m : positive) (e : Z) :
  valid_binary (S754_finite false m e) = true ->
  0 < Zdigits2 (Zpos m) + e <= 54 ->
  finite_nonneg (SFsub prec emax (S754_finite false m e) SF_one).
Proof.
  intros Hv Hmag. apply bounded_spec in Hv as [Hcanon Hemax].
  cbn [SFsub SF_one cond_Zopp].
  set (e0 := Z.min e (-52)).
  destruct (shl_align_spec m e e0) as [_ H1].
  destruct (shl_align_spec 4503599627370496 (-52) e0) as [_ H2].
  replace (Z.min e e0) with e0 in H1 by lia.
  replace (Z.min (-52) e0) with e0 in H2 by lia.
  rewrite H1, H2.
  assert (Hd : Zdigits2 (Zpos m * 2 ^ (e - e0)) = Zdigits2 (Zpos m) + (e - e0))
    by (apply Zdigits2_shift; lia).
  assert (Hp : 0 < 2 ^ (e - e0)) by (apply Z.pow_pos_nonneg; lia).
  pose proof (Zdigits2_lower (Zpos m * 2 ^ (e - e0)) (- e0) ltac:(nia) ltac:(lia)) as Hlo.
  pose proof (Zdigits2_bounds (Zpos m * 2 ^ (e - e0)) ltac:(nia)) as [_ Hhi].
  rewrite Hd in Hhi.
  assert (Hone : 4503599627370496 * 2 ^ (-52 - e0) = 2 ^ (- e0)).
  { change 4503599627370496 with (2 ^ 52). rewrite <- Z.pow_add_r by lia.
    f_equal. lia. }
  rewrite Hone.
  assert (Hq : 0 < 2 ^ (- e0)) by (apply Z.pow_pos_nonneg; lia).
  destruct (Zpos m * 2 ^ (e - e0) - 2 ^ (- e0)) as [|p|p] eqn:HD; try lia;
    [exact I|].
  cbn [binary_normalize]. apply (binary_round_finite p e0 54); try lia.
  assert (2 ^ (Zdigits2 (Zpos m) + (e - e0)) <= 2 ^ (54 - e0))
    by (apply Z.pow_le_mono_r; lia).
  lia.
Qed.

Section FlatWindow.

Variable window : nat.
Hypothesis window_pos : (0 < window)%nat.
Hypothesis window_safe : Z.of_nat window < 2 ^ 53.

Lemma window_finite :
  exists m e,
    Prim2SF (of_nat window) = S754_finite false m e /\
    0 < Zdigits2 (Zpos m) + e <= 54.
Proof.
  pose proof (window_ge_one window window_pos window_safe) as Hge.
  rewrite Prim2SF_of_nat in * by exact window_safe.
  destruct (Z.of_nat window) as [|p|p] eqn:Hw; try lia.
  cbn [binary_normalize] in *.
  destruct (binary_round_finite p 0 53) as [Hfin Hbelow]; try lia.
  destruct (binary_round prec emax false p 0) as [s|s| |s m e];
    cbn [finite_nonneg ge_one below] in *; try contradiction;
    destruct s; try contradiction.
  exists m, e. split; [reflexivity | lia].
Qed.

Lemma window_minus_one_finite :
  finite_nonneg (Prim2SF (sub (of_nat window) (of_nat 1))).
Proof.
  cbn [sub IEEE]. rewrite FloatAxioms.sub_spec.
  change (Prim2SF (of_nat 1)) with SF_one.
  pose proof (Prim2SF_valid (of_nat window)) as Hv.
  destruct window_finite as (m & e & Heq & Hmag). rewrite Heq in *.
  now apply finite_nonneg_sub_one.
Qed.


Lemma is_zero_eq (x : float) : is_zero x -> x = 0%float.
Proof. intros H. apply Prim2SF_inj. exact H. Qed.

Lemma is_zero_add (x d : float) :
  is_zero x -> eqb d (of_nat 0) = true -> is_zero (add x d).
Proof.
  unfold is_zero. cbn [add eqb IEEE]. intros Hx Hd.
  rewrite FloatAxioms.eqb_spec in Hd. rewrite FloatAxioms.add_spec, Hx.
  change (Prim2SF (of_nat 0)) with (S754_zero false) in Hd.
  destruct (Prim2SF d) as [[|]|[|]| |[|] m e]; try discriminate; reflexivity.
Qed.

Lemma geb_of_eqb (d : float) : eqb d (of_nat 0) = true -> geb d (of_nat 0) = true.
Proof.
  cbn [geb eqb IEEE]. rewrite FloatAxioms.eqb_spec, FloatAxioms.leb_spec.
  change (Prim2SF (of_nat 0)) with (S754_zero false).
  destruct (Prim2SF d) as [[|]|[|]| |[|] m e]; cbn; congruence.
Qed.

Lemma is_zero_div_window (x : float) : is_zero x -> is_zero (div x (of_nat window)).
Proof.
  unfold is_zero. cbn [div IEEE]. intros Hx.
  destruct window_finite as (m & e & Heq & _).
  now rewrite FloatAxioms.div_spec, Hx, Heq.
Qed.

Lemma is_zero_mul_window (x : float) :
  is_zero x -> is_zero (mul x (sub (of_nat window) (of_nat 1))).
Proof.
  unfold is_zero. intros Hx. pose proof window_minus_one_finite as Hw.
  cbn [mul IEEE]. rewrite FloatAxioms.mul_spec, Hx.
  destruct (Prim2SF (sub (of_nat window) (of_nat 1))) as [[|]|s| |[|] m e];
    try contradiction; reflexivity.
Qed.

Lemma is_zero_accumulate (seed : list float) :
  Forall (fun d => eqb d (of_nat 0) = true) seed ->
  forall up down,
    is_zero up -> is_zero down ->
    is_zero (fst (fold_left accumulate seed (up, down))) /\
    is_zero (snd (fold_left accumulate seed (up, down))).
Proof.
  induction 1 as [|d seed Hd Hseed IH]; intros up down Hup Hdown; [now split|].
  cbn [fold_left]. unfold accumulate at 2 4. rewrite (geb_of_eqb d Hd).
  apply IH; [now apply is_zero_add | exact Hdown].
Qed.

Lemma is_zero_seed_state (closes : list float) :
  Forall (fun d => eqb d (of_nat 0) = true) (deltas closes) ->
  is_zero (avgUp (seed_state closes window)) /\
  is_zero (avgDown (seed_state closes window)).
Proof.
  intros Hflat. apply (Forall_firstn_skipn window) in Hflat as [Hseed _].
  unfold seed_state.
  destruct (is_zero_accumulate _ Hseed (of_nat 0) (of_nat 0)) as [H1 H2];
    try reflexivity.
  destruct (fold_left _ _ _) as [up down]. cbn [fst snd avgUp avgDown] in *.
  split; now apply is_zero_div_window.
Qed.

Lemma is_zero_smooth (up down d : float) :
  is_zero up -> is_zero down -> eqb d (of_nat 0) = true ->
  is_zero (fst (smooth window up down d)) /\ is_zero (snd (smooth window up down d)).
Proof.
  intros Hup Hdown Hd. unfold smooth. rewrite (geb_of_eqb d Hd). cbn [fst snd].
  split; apply is_zero_div_window; [apply is_zero_add; [|exact Hd]|];
    now apply is_zero_mul_window.
Qed.

Lemma is_zero_trace (ds : list float) :
  Forall (fun d => eqb d (of_nat 0) = true) ds ->
  forall s0 s,
    is_zero (avgUp s0) /\ is_zero (avgDown s0) ->
    In s (trace window s0 ds) ->
    is_zero (avgUp s) /\ is_zero (avgDown s).
Proof.
  induction 1 as [|d ds Hd Hds IH]; intros s0 s [Hup Hdown] Hin;
    cbn [trace] in Hin; [easy|].
  assert (H1 : is_zero (avgUp (roll window s0 d)) /\
               is_zero (avgDown (roll window s0 d))).
  { rewrite avgUp_roll, avgDown_roll. now apply is_zero_smooth. }
  destruct Hin as [<- | Hin]; [exact H1 | now apply (IH _ _ H1)].
Qed.

Lemma flat_states (closes : list float) (s : state) :
  Forall (fun d => eqb d (of_nat 0) = true) (deltas closes) ->
  In s (states closes window) ->
  avgUp s = 0%float /\ avgDown s = 0%float /\ rs s = 0%float.
Proof.
  intros Hflat Hin.
  assert (Havg : is_zero (avgUp s) /\ is_zero (avgDown s)).
  { pose proof (is_zero_seed_state closes Hflat) as Hseed.
    destruct Hin as [<- | Hin]; [exact Hseed|].
    apply (Forall_firstn_skipn window) in Hflat as [_ Hrest].
    exact (is_zero_trace _ Hrest _ _ Hseed Hin). }
  destruct Havg as [Hup Hdown]. apply is_zero_eq in Hup, Hdown.
  repeat split; try assumption.
  rewrite (states_rs Hin), Hup, Hdown. reflexivity.
Qed.

End FlatWindow.

(** C6 (as amended).  In binary64 arithmetic, on a flat price series longer
    than [window + 1] (every successive difference zero), both averages and
    [rs] are [0] in the seed state and after every rolling iteration, and
    every defined output value is [100 - 100 / (1 + 0)], that is [0]; such
    a value is emitted at index [window + 1]. *)
Theorem binary64_flat_series (closes : list float) (window : nat) :
  (0 < window)%nat ->
  Z.of_nat window < 2 ^ 53 ->
  (window + 1 < List.length closes)%nat ->
  Forall (fun d => eqb d (of_nat 0) = true) (deltas closes) ->
  (forall s, In s (states closes window) ->
             avgUp s = 0%float /\ avgDown s = 0%float /\ rs s = 0%float) /\
  (forall v, In (Some v) (computeRsi closes window) -> v = 0%float) /\
  (exists v, nth_error (computeRsi closes window) (window + 1) = Some (Some v)).
Proof.
  intros Hw Hsafe Hlen Hflat. split; [|split].
  - intros s. now apply flat_states.
  - intros v Hin. apply computeRsi_defined in Hin as (s & Hs & ->).
    destruct (flat_states window Hw Hsafe closes s Hflat) as (_ & _ & ->);
      [now right | reflexivity].
  - replace (window + 1)%nat with (window + 1 + 0)%nat by lia.
    apply computeRsi_defined_at. lia.
Qed.

(** *** A series without losses *)

Section NoLoss.

Variable window : nat.
Hypothesis window_pos : (0 < window)%nat.
Hypothesis window_safe : Z.of_nat window < 2 ^ 53.

Lemma gain_of_positive (d : float) : ltb (of_nat 0) d = true -> geb d (of_nat 0) = true.
Proof.
  cbn [ltb geb IEEE]. rewrite FloatAxioms.ltb_spec, FloatAxioms.leb_spec.
  change (Prim2SF (of_nat 0)) with (S754_zero false).
  destruct (Prim2SF d) as [[|]|[|]| |[|] m e]; cbn; congruence.
Qed.

Lemma no_loss_accumulate (seed : list float) :
  Forall (fun d => geb d (of_nat 0) = true) seed ->
  forall up down, snd (fold_left accumulate seed (up, down)) = down.
Proof.
  induction 1 as [|d seed Hd Hseed IH]; intros up down; [reflexivity|].
  cbn [fold_left]. unfold accumulate at 2. rewrite Hd. apply IH.
Qed.

Lemma no_loss_seed_state (closes : list float) :
  Forall (fun d => geb d (of_nat 0) = true) (deltas closes) ->
  is_zero (avgDown (seed_state closes window)).
Proof.
  intros Hgain. apply (Forall_firstn_skipn window) in Hgain as [Hseed _].
  unfold seed_state.
  pose proof (no_loss_accumulate _ Hseed (of_nat 0) (of_nat 0)) as Hdown.
  destruct (fold_left _ _ _) as [up down]. cbn [snd avgDown] in *. subst down.
  now apply is_zero_div_window.
Qed.

Lemma no_loss_trace (ds : list float) :
  Forall (fun d => geb d (of_nat 0) = true) ds ->
  forall s0 s,
    is_zero (avgDown s0) -> In s (trace window s0 ds) -> is_zero (avgDown s).
Proof.
  induction 1 as [|d ds Hd Hds IH]; intros s0 s Hdown Hin;
    cbn [trace] in Hin; [easy|].
  assert (H1 : is_zero (avgDown (roll window s0 d))).
  { rewrite avgDown_roll. unfold smooth. rewrite Hd. cbn [snd].
    now apply is_zero_div_window, is_zero_mul_window. }
  destruct Hin as [<- | Hin]; [exact H1 | now apply (IH _ _ H1)].
Qed.

Lemma no_loss_states (closes : list float) (s : state) :
  Forall (fun d => geb d (of_nat 0) = true) (deltas closes) ->
  In s (states closes window) ->
  avgDown s = 0%float /\ rs s = avgUp s.
Proof.
  intros Hgain Hin.
  assert (Hdown : is_zero (avgDown s)).
  { pose proof (no_loss_seed_state closes Hgain) as Hseed.
    destruct Hin as [<- | Hin]; [exact Hseed|].
    apply (Forall_firstn_skipn window) in Hgain as [_ Hrest].
    exact (no_loss_trace _ Hrest _ _ Hseed Hin). }
  apply is_zero_eq in Hdown. split; [exact Hdown|].
  apply (rs_of_zero_avgDown closes window s Hin). now rewrite Hdown.
Qed.

End NoLoss.

(** ** Whole numbers in binary64 arithmetic

    Sums, differences, products and exact quotients of whole numbers below
    [2 ^ 53] are computed without rounding. *)

Section Binary64WholeNumbers.

Local Open Scope Z_scope.

Lemma bounded_intro (m : positive) (e : Z) :
  e = Z.max (Zdigits2 (Zpos m) + e - 53) (-1074) -> e <= 971 ->
  bounded prec emax m e = true.
Proof.
  intros Hcanon Hemax. unfold bounded, canonical_mantissa.
  apply andb_true_intro. split.
  - apply Z.eqb_eq. rewrite fexp_eq. cbn [Zdigits2] in Hcanon. lia.
  - apply Z.leb_le. change (emax - prec) with 971. exact Hemax.
Qed.

Lemma SF_int_mantissa (z : Z) :
  0 < z < 2 ^ 53 ->
  Zpos (Z.to_pos (z * 2 ^ (53 - Zdigits2 z))) = z * 2 ^ (53 - Zdigits2 z) /\
  1 <= Zdigits2 z <= 53 /\
  Zdigits2 (z * 2 ^ (53 - Zdigits2 z)) = 53.
Proof.
  intros [Hpos Hlt].
  pose proof (Zdigits2_pos z Hpos) as Hd.
  pose proof (Zdigits2_le z 53 Hpos Hlt) as Hd'.
  assert (Hp : 0 < 2 ^ (53 - Zdigits2 z)) by (apply Z.pow_pos_nonneg; lia).
  split; [|split; [lia|]].
  - apply Z2Pos.id. nia.
  - rewrite Zdigits2_shift by lia. lia.
Qed.

Lemma SF_int_bounded (z : Z) :
  0 < z < 2 ^ 53 ->
  bounded prec emax (Z.to_pos (z * 2 ^ (53 - Zdigits2 z))) (Zdigits2 z - 53) = true.
Proof.
  intros Hz. destruct (SF_int_mantissa z Hz) as (Hm & Hd & Hd53).
  apply bounded_intro; rewrite ?Hm, ?Hd53; lia.
Qed.

(** Rounding a whole number that is written with a small enough exponent
    returns its binary64 value. *)
Lemma binary_round_aux_int (z k : Z) :
  0 < z < 2 ^ 53 -> k <= Zdigits2 z - 53 ->
  binary_round_aux prec emax false (z * 2 ^ (- k)) k loc_Exact = SF_int z.
Proof.
  intros Hz Hk. destruct (SF_int_mantissa z Hz) as (Hm & Hd & Hd53).
  pose proof (binary_round_aux_canonical false
                (Z.to_pos (z * 2 ^ (53 - Zdigits2 z))) (Zdigits2 z - 53)
                (Zdigits2 z - 53 - k) (SF_int_bounded z Hz) ltac:(lia)) as H.
  rewrite Hm, <- Z.mul_assoc, <- Z.pow_add_r in H by lia.
  replace (53 - Zdigits2 z + (Zdigits2 z - 53 - k)) with (- k) in H by lia.
  replace (Zdigits2 z - 53 - (Zdigits2 z - 53 - k)) with k in H by lia.
  rewrite H. destruct z; try lia. reflexivity.
Qed.

Lemma binary_normalize_int (z k : Z) :
  0 < z < 2 ^ 53 -> k <= 0 ->
  binary_normalize prec emax (z * 2 ^ (- k)) k false = SF_int z.
Proof.
  intros Hz Hk. destruct (SF_int_mantissa z Hz) as (Hm & Hd & Hd53).
  assert (Hp : 0 < 2 ^ (- k)) by (apply Z.pow_pos_nonneg; lia).
  destruct (z * 2 ^ (- k)) as [|q|q] eqn:Hq; try nia.
  cbn [binary_normalize]. unfold binary_round.
  destruct (shl_align_spec q k (fexp prec emax (Zpos (digits2_pos q) + k)))
    as [He Hmz].
  change (Zpos (digits2_pos q)) with (Zdigits2 (Zpos q)) in *.
  rewrite <- Hq, Zdigits2_shift, fexp_eq in He, Hmz by lia.
  rewrite <- Hq, Zdigits2_shift, fexp_eq by lia.
  replace (Zdigits2 z + - k + k) with (Zdigits2 z) in * by lia.
  replace (Z.max (Zdigits2 z - 53) (-1074)) with (Zdigits2 z - 53) in * by lia.
  destruct (shl_align q k (Zdigits2 z - 53)) as [mz ez]. cbn [fst snd] in *.
  rewrite Hmz, <- Z.mul_assoc, <- Z.pow_add_r by lia.
  replace (- k + (k - Z.min k (Zdigits2 z - 53))) with (- ez) by lia.
  apply binary_round_aux_int; [exact Hz | lia].
Qed.

Lemma Prim2SF_of_nat_int (n : nat) :
  Z.of_nat n < 2 ^ 53 -> Prim2SF (of_nat n) = SF_int (Z.of_nat n).
Proof.
  intros Hn. rewrite Prim2SF_of_nat by exact Hn.
  destruct (Z.of_nat n) as [|p|p] eqn:Hz; [reflexivity | | lia].
  pose proof (binary_normalize_int (Zpos p) 0 ltac:(lia) ltac:(lia)) as H.
  change (2 ^ (- 0)) with 1 in H. now rewrite Z.mul_1_r in H.
Qed.

(** The mantissa of a whole number, aligned to a smaller exponent. *)
Lemma shl_align_int (z e : Z) :
  0 < z < 2 ^ 53 -> e <= Zdigits2 z - 53 ->
  Zpos (fst (shl_align (Z.to_pos (z * 2 ^ (53 - Zdigits2 z))) (Zdigits2 z - 53) e))
  = z * 2 ^ (- e).
Proof.
  intros Hz He. destruct (SF_int_mantissa z Hz) as (Hm & Hd & Hd53).
  destruct (shl_align_spec (Z.to_pos (z * 2 ^ (53 - Zdigits2 z)))
              (Zdigits2 z - 53) e) as [_ Hmz].
  rewrite Hmz, Hm, <- Z.mul_assoc, <- Z.pow_add_r by lia.
  f_equal. f_equal. lia.
Qed.

Lemma SFadd_int (a b : Z) :
  0 <= a -> 0 <= b -> a + b < 2 ^ 53 ->
  SFadd prec emax (SF_int a) (SF_int b) = SF_int (a + b).
Proof.
  intros Ha Hb Hsum.
  destruct a as [|a|a]; [|destruct b as [|b|b]|]; try lia.
  - destruct b; try lia; reflexivity.
  - rewrite Z.add_0_r. reflexivity.
  - assert (Hza : 0 < Zpos a < 2 ^ 53) by lia.
    assert (Hzb : 0 < Zpos b < 2 ^ 53) by lia.
    destruct (SF_int_mantissa _ Hza) as (_ & Hda & _).
    destruct (SF_int_mantissa _ Hzb) as (_ & Hdb & _).
    cbn [SF_int SFadd cond_Zopp].
    set (ez := Z.min (Zdigits2 (Zpos a) - 53) (Zdigits2 (Zpos b) - 53)).
    rewrite (shl_align_int (Zpos a) ez Hza), (shl_align_int (Zpos b) ez Hzb)
      by (subst ez; lia).
    rewrite <- Z.mul_add_distr_r.
    apply binary_normalize_int; [lia | subst ez; lia].
Qed.

Lemma SFsub_int (a b : Z) :
  0 <= b -> b <= a -> a < 2 ^ 53 ->
  SFsub prec emax (SF_int a) (SF_int b) = SF_int (a - b).
Proof.
  intros Hb Hab Ha.
  destruct b as [|b|b]; try lia.
  - rewrite Z.sub_0_r. destruct a; try lia; reflexivity.
  - destruct a as [|a|a]; try lia.
    assert (Hza : 0 < Zpos a < 2 ^ 53) by lia.
    assert (Hzb : 0 < Zpos b < 2 ^ 53) by lia.
    destruct (SF_int_mantissa _ Hza) as (_ & Hda & _).
    destruct (SF_int_mantissa _ Hzb) as (_ & Hdb & _).
    cbn [SF_int SFsub cond_Zopp].
    set (ez := Z.min (Zdigits2 (Zpos a) - 53) (Zdigits2 (Zpos b) - 53)).
    rewrite (shl_align_int (Zpos a) ez Hza), (shl_align_int (Zpos b) ez Hzb)
      by (subst ez; lia).
    rewrite <- Z.mul_sub_distr_r.
    destruct (Z.eq_dec (Zpos a) (Zpos b)) as [Heq | Hne].
    + rewrite Heq, Z.sub_diag. reflexivity.
    + apply binary_normalize_int; [lia | subst ez; lia].
Qed.

Lemma SFmul_int (a b : Z) :
  0 <= a -> 0 <= b -> a * b < 2 ^ 53 ->
  SFmul prec emax (SF_int a) (SF_int b) = SF_int (a * b).
Proof.
  intros Ha Hb Hprod.
  destruct a as [|a|a]; [|destruct b as [|b|b]|]; try lia.
  - destruct b; try lia; reflexivity.
  - rewrite Z.mul_0_r. reflexivity.
  - assert (Hza : 0 < Zpos a < 2 ^ 53) by nia.
    assert (Hzb : 0 < Zpos b < 2 ^ 53) by nia.
    assert (Hzab : 0 < Zpos a * Zpos b < 2 ^ 53) by nia.
    destruct (SF_int_mantissa _ Hza) as (Hma & Hda & _).
    destruct (SF_int_mantissa _ Hzb) as (Hmb & Hdb & _).
    pose proof (Zdigits2_mono (Zpos a) (Zpos a * Zpos b) ltac:(lia) ltac:(nia))
      as Hmono.
    cbn [SF_int SFmul xorb]. rewrite Pos2Z.inj_mul, Hma, Hmb.
    set (da := Zdigits2 (Zpos a)) in *. set (db := Zdigits2 (Zpos b)) in *.
    replace (Zpos a * 2 ^ (53 - da) * (Zpos b * 2 ^ (53 - db)))
      with (Zpos a * Zpos b * 2 ^ (- (da - 53 + (db - 53)))).
    + apply binary_round_aux_int; [exact Hzab | lia].
    + replace (- (da - 53 + (db - 53))) with ((53 - da) + (53 - db)) by lia.
      rewrite Z.pow_add_r by lia. ring.
Qed.

Lemma new_location_exact (m : Z) : new_location m 0 = loc_Exact.
Proof.
  unfold new_location, new_location_even, new_location_odd.
  destruct (Z.even m); reflexivity.
Qed.

Lemma SFdiv_int (a b : Z) :
  0 <= a -> 0 < b -> a * b < 2 ^ 53 ->
  SFdiv prec emax (SF_int (a * b)) (SF_int b) = SF_int a.
Proof.
  intros Ha Hb Hprod.
  destruct a as [|a|a]; try lia.
  - destruct b; try lia; reflexivity.
  - assert (Hza : 0 < Zpos a < 2 ^ 53) by nia.
    assert (Hzb : 0 < b < 2 ^ 53) by nia.
    assert (Hzab : 0 < Zpos a * b < 2 ^ 53) by nia.
    destruct (SF_int_mantissa _ Hza) as (_ & Hda & _).
    destruct (SF_int_mantissa _ Hzb) as (Hmb & Hdb & Hdb53).
    destruct (SF_int_mantissa _ Hzab) as (Hmab & Hdab & Hdab53).
    assert (Hupper : Zdigits2 (Zpos a * b) <= Zdigits2 (Zpos a) + Zdigits2 b).
    { apply Zdigits2_le; [lia|]. rewrite Z.pow_add_r by lia.
      pose proof (Zdigits2_bounds (Zpos a) ltac:(lia)).
      pose proof (Zdigits2_bounds b ltac:(lia)). nia. }
    assert (Hlower : Zdigits2 b <= Zdigits2 (Zpos a * b))
      by (apply Zdigits2_mono; nia).
    destruct (Zpos a * b) as [|ab|ab] eqn:Hab; try lia.
    destruct b as [|b|b]; try lia.
    cbn [SF_int SFdiv xorb]. unfold SFdiv_core_binary.
    change (Zdigits2 (Zpos (Z.to_pos ?m))) with (Zdigits2 (Zpos (Z.to_pos m))).
    rewrite Hmab, Hmb, Hdab53, Hdb53, fexp_eq.
    set (dab := Zdigits2 (Zpos ab)) in *. set (db := Zdigits2 (Zpos b)) in *.
    replace (Z.min (Z.max (53 + (dab - 53) - (53 + (db - 53)) - 53) (-1074))
               (dab - 53 - (db - 53))) with (dab - db - 53) by lia.
    replace (dab - 53 - (db - 53) - (dab - db - 53)) with 53 by lia.
    cbn match. rewrite Z.shiftl_mul_pow2 by lia.
    assert (Hq : Zpos ab * 2 ^ (53 - dab) * 2 ^ 53
                 = Zpos a * 2 ^ (- (dab - db - 53)) * (Zpos b * 2 ^ (53 - db)) + 0).
    { assert (E1 : 2 ^ (- (dab - db - 53)) = 2 ^ (53 - dab) * 2 ^ db)
        by (rewrite <- Z.pow_add_r by lia; f_equal; lia).
      assert (E2 : 2 ^ 53 = 2 ^ (53 - db) * 2 ^ db)
        by (rewrite <- Z.pow_add_r by lia; f_equal; lia).
      rewrite <- Hab, E1, E2. ring. }
    assert (Hpos : 0 < Zpos b * 2 ^ (53 - db))
      by (apply Z.mul_pos_pos; [lia | apply Z.pow_pos_nonneg; lia]).
    pose proof (Z_div_mod (Zpos ab * 2 ^ (53 - dab) * 2 ^ 53)
                  (Zpos b * 2 ^ (53 - db)) ltac:(lia)) as Hdm.
    destruct (Z.div_eucl (Zpos ab * 2 ^ (53 - dab) * 2 ^ 53)
                (Zpos b * 2 ^ (53 - db))) as [q r].
    destruct Hdm as [Hdm Hr].
    assert (Hqr : q = Zpos a * 2 ^ (- (dab - db - 53)) /\ r = 0).
    { rewrite Hq in Hdm. symmetry in Hdm.
      apply (Z.div_mod_unique (Zpos b * 2 ^ (53 - db))); [left; lia | left; lia |].
      rewrite Hdm. ring. }
    destruct Hqr as [-> ->]. rewrite new_location_exact.
    apply binary_round_aux_int; [exact Hza | lia].
Qed.

Lemma SFcompare_int (a b : Z) :
  0 <= a < 2 ^ 53 -> 0 <= b < 2 ^ 53 ->
  SFcompare (SF_int a) (SF_int b) = Some (a ?= b).
Proof.
  intros Ha Hb.
  destruct a as [|a|a]; [|destruct b as [|b|b]|]; try lia.
  - destruct b; try lia; reflexivity.
  - reflexivity.
  - assert (Hza : 0 < Zpos a < 2 ^ 53) by lia.
    assert (Hzb : 0 < Zpos b < 2 ^ 53) by lia.
    destruct (SF_int_mantissa _ Hza) as (Hma & Hda & _).
    destruct (SF_int_mantissa _ Hzb) as (Hmb & Hdb & _).
    pose proof (Zdigits2_bounds (Zpos a) ltac:(lia)) as Hba.
    pose proof (Zdigits2_bounds (Zpos b) ltac:(lia)) as Hbb.
    cbn [SF_int SFcompare]. f_equal.
    set (da := Zdigits2 (Zpos a)) in *. set (db := Zdigits2 (Zpos b)) in *.
    destruct (Z.compare_spec (da - 53) (db - 53)) as [Heq | Hlt | Hgt].
    + rewrite Pos.compare_cont_spec.
      assert (Hp : 0 < 2 ^ (53 - da)) by (apply Z.pow_pos_nonneg; lia).
      assert (Hc : (Z.to_pos (Zpos a * 2 ^ (53 - da))
                    ?= Z.to_pos (Zpos b * 2 ^ (53 - db)))%positive
                   = (Zpos a ?= Zpos b)).
      { rewrite (Pos2Z.inj_compare (Z.to_pos (Zpos a * 2 ^ (53 - da)))
                      (Z.to_pos (Zpos b * 2 ^ (53 - db)))), Hma, Hmb.
        replace db with da by lia.
        destruct (Z.compare_spec (Zpos a) (Zpos b)) as [H | H | H].
        - rewrite H. apply Z.compare_refl.
        - apply Z.compare_lt_iff. nia.
        - apply Z.compare_gt_iff. nia. }
      rewrite Hc. now destruct (Zpos a ?= Zpos b).
    + symmetry. apply Z.compare_lt_iff.
      assert (2 ^ da <= 2 ^ (db - 1)) by (apply Z.pow_le_mono_r; lia). lia.
    + symmetry. apply Z.compare_gt_iff.
      assert (2 ^ db <= 2 ^ (da - 1)) by (apply Z.pow_le_mono_r; lia). lia.
Qed.

End Binary64WholeNumbers.

Section WholeNumberFloats.

Local Open Scope Z_scope.

Lemma of_nat_add (a b : nat) :
  Z.of_nat (a + b) < 2 ^ 53 -> add (of_nat a) (of_nat b) = of_nat (a + b).
Proof.
  intros H. apply Prim2SF_inj. cbn [add IEEE].
  rewrite FloatAxioms.add_spec, !Prim2SF_of_nat_int, Nat2Z.inj_add by lia.
  apply SFadd_int; lia.
Qed.

Lemma of_nat_sub (a b : nat) :
  (b <= a)%nat -> Z.of_nat a < 2 ^ 53 -> sub (of_nat a) (of_nat b) = of_nat (a - b).
Proof.
  intros Hle H. apply Prim2SF_inj. cbn [sub IEEE].
  rewrite FloatAxioms.sub_spec, !Prim2SF_of_nat_int, Nat2Z.inj_sub by lia.
  apply SFsub_int; lia.
Qed.

Lemma of_nat_mul (a b : nat) :
  Z.of_nat a < 2 ^ 53 -> Z.of_nat b < 2 ^ 53 -> Z.of_nat (a * b) < 2 ^ 53 ->
  mul (of_nat a) (of_nat b) = of_nat (a * b).
Proof.
  intros Ha Hb H. apply Prim2SF_inj. cbn [mul IEEE].
  rewrite FloatAxioms.mul_spec, !Prim2SF_of_nat_int by lia.
  rewrite Nat2Z.inj_mul in *. apply SFmul_int; lia.
Qed.

Lemma of_nat_div (a b : nat) :
  (0 < b)%nat -> Z.of_nat b < 2 ^ 53 -> Z.of_nat (a * b) < 2 ^ 53 ->
  div (of_nat (a * b)) (of_nat b) = of_nat a.
Proof.
  intros Hb Hb' H. apply Prim2SF_inj. cbn [div IEEE].
  rewrite FloatAxioms.div_spec, (Prim2SF_of_nat_int (a * b)),
    (Prim2SF_of_nat_int b), (Prim2SF_of_nat_int a) by nia.
  rewrite Nat2Z.inj_mul in *. apply SFdiv_int; lia.
Qed.

Lemma of_nat_compare (a b : nat) :
  Z.of_nat a < 2 ^ 53 -> Z.of_nat b < 2 ^ 53 ->
  SFcompare (Prim2SF (of_nat a)) (Prim2SF (of_nat b)) = Some (Nat.compare a b).
Proof.
  intros Ha Hb. rewrite !Prim2SF_of_nat_int by lia.
  rewrite SFcompare_int by lia. now rewrite Nat2Z.inj_compare.
Qed.

Lemma of_nat_leb (a b : nat) :
  Z.of_nat a < 2 ^ 53 -> Z.of_nat b < 2 ^ 53 ->
  PrimFloat.leb (of_nat a) (of_nat b) = Nat.leb a b.
Proof.
  intros Ha Hb. rewrite FloatAxioms.leb_spec. unfold SFleb.
  rewrite of_nat_compare by lia.
  destruct (Nat.compare_spec a b), (Nat.leb_spec a b); try reflexivity; lia.
Qed.

Lemma of_nat_ltb (a b : nat) :
  Z.of_nat a < 2 ^ 53 -> Z.of_nat b < 2 ^ 53 ->
  PrimFloat.ltb (of_nat a) (of_nat b) = Nat.ltb a b.
Proof.
  intros Ha Hb. rewrite FloatAxioms.ltb_spec. unfold SFltb.
  rewrite of_nat_compare by lia.
  destruct (Nat.compare_spec a b), (Nat.ltb_spec a b); try reflexivity; lia.
Qed.

End WholeNumberFloats.

(** *** A rise by a constant step *)

Section WholeStep.

Local Open Scope Z_scope.

Variable window : nat.
Variable n : nat.
Hypothesis window_pos : (0 < window)%nat.
Hypothesis step_pos : ltb (of_nat 0) (of_nat n) = true.
Hypothesis product_safe : Z.of_nat (n * window) < 2 ^ 53.

Lemma whole_step_safe :
  Z.of_nat n < 2 ^ 53 /\ Z.of_nat window < 2 ^ 53 /\ (0 < n)%nat.
Proof.
  assert (Hn : (0 < n)%nat).
  { destruct n; [|lia]. discriminate step_pos. }
  rewrite Nat2Z.inj_mul in product_safe. repeat split; try assumption; nia.
Qed.

Lemma whole_step_accumulate (seed : list float) :
  Forall (fun d => d = of_nat n) seed ->
  forall j down,
    (j + List.length seed <= window)%nat ->
    fst (fold_left accumulate seed (of_nat (j * n), down))
    = of_nat ((j + List.length seed) * n).
Proof.
  destruct whole_step_safe as (Hn & Hw & Hpos).
  induction 1 as [|d seed -> Hseed IH]; intros j down Hj; cbn [List.length] in *.
  - now rewrite Nat.add_0_r.
  - cbn [fold_left]. unfold accumulate at 2.
    rewrite (gain_of_positive _ step_pos).
    rewrite of_nat_add by (rewrite Nat2Z.inj_mul in *; nia).
    replace (j * n + n)%nat with (Datatypes.S j * n)%nat by lia.
    rewrite IH by lia. f_equal. lia.
Qed.

Lemma whole_step_seed_state (closes : list float) :
  (window <= List.length (deltas closes))%nat ->
  Forall (fun d => d = of_nat n) (deltas closes) ->
  avgUp (seed_state closes window) = of_nat n.
Proof.
  destruct whole_step_safe as (Hn & Hw & Hpos).
  intros Hlen Hrise. apply (Forall_firstn_skipn window) in Hrise as [Hseed _].
  unfold seed_state.
  pose proof (whole_step_accumulate _ Hseed 0 (of_nat 0)) as Hup.
  rewrite length_firstn, Nat.min_l in Hup by exact Hlen.
  specialize (Hup ltac:(lia)). cbn [Nat.mul Nat.add] in Hup.
  destruct (fold_left _ _ _) as [up down]. cbn [fst avgUp] in *. subst up.
  replace (window * n)%nat with (n * window)%nat by lia.
  apply of_nat_div; assumption.
Qed.

Lemma whole_step_smooth (down : float) :
  fst (smooth window (of_nat n) down (of_nat n)) = of_nat n.
Proof.
  destruct whole_step_safe as (Hn & Hw & Hpos).
  unfold smooth. rewrite (gain_of_positive _ step_pos). cbn [fst].
  rewrite of_nat_sub by lia.
  rewrite of_nat_mul by (rewrite ?Nat2Z.inj_mul in *; nia).
  rewrite of_nat_add by (rewrite ?Nat2Z.inj_add, ?Nat2Z.inj_mul in *; nia).
  replace (n * (window - 1) + n)%nat with (n * window)%nat by nia.
  apply of_nat_div; assumption.
Qed.

Lemma whole_step_trace (ds : list float) :
  Forall (fun d => d = of_nat n) ds ->
  forall s0 s,
    avgUp s0 = of_nat n -> In s (trace window s0 ds) -> avgUp s = of_nat n.
Proof.
  induction 1 as [|d ds -> Hds IH]; intros s0 s Hup Hin;
    cbn [trace] in Hin; [easy|].
  assert (H1 : avgUp (roll window s0 (of_nat n)) = of_nat n).
  { rewrite avgUp_roll, Hup. apply whole_step_smooth. }
  destruct Hin as [<- | Hin]; [exact H1 | now apply (IH _ _ H1)].
Qed.

Lemma whole_step_states (closes : list float) (s : state) :
  (window <= List.length (deltas closes))%nat ->
  Forall (fun d => d = of_nat n) (deltas closes) ->
  In s (states closes window) ->
  avgUp s = of_nat n.
Proof.
  intros Hlen Hrise Hin.
  pose proof (whole_step_seed_state closes Hlen Hrise) as Hseed.
  destruct Hin as [<- | Hin]; [exact Hseed|].
  apply (Forall_firstn_skipn window) in Hrise as [_ Hrest].
  exact (whole_step_trace _ Hrest _ _ Hseed Hin).
Qed.

End WholeStep.

Section ConstantRise.

Local Open Scope Z_scope.

(** The entry at index [window + 1 + k] comes from the state after the
    rolling iteration [k]. *)
Lemma computeRsi_emitted (closes : list float) (window k : nat) :
  (window + 1 + k < List.length closes)%nat ->
  exists s,
    nth_error (states closes window) (Datatypes.S k) = Some s /\
    nth_error (computeRsi closes window) (window + 1 + k)
    = Some (Some (rsi_value (rs s))).
Proof.
  intros Hk. rewrite computeRsi_unfold.
  rewrite nth_error_app2 by (rewrite repeat_length; lia).
  rewrite repeat_length. replace (window + 1 + k - Datatypes.S window)%nat with k by lia.
  unfold rolling_values, states. cbn [nth_error]. rewrite nth_error_map.
  destruct (nth_error (trace window (seed_state closes window)
                         (skipn window (deltas closes))) k) as [s|] eqn:Hs.
  - exists s. now split.
  - apply nth_error_None in Hs.
    rewrite trace_length, length_skipn, deltas_length in Hs. lia.
Qed.

(** C7 (as amended).  In binary64 arithmetic, on a price series longer than
    [window + 1] whose successive differences all equal one positive
    [step] (the window positive and below [2 ^ 53]): [avgDown] is [0] in the
    seed state and after every rolling iteration, so that [rs = avgUp] by
    the substitution rule; the entry at index [window + 1 + k] is
    [100 - 100 / (1 + avgUp)] for the [avgUp] of the state after the
    rolling iteration [k]; and when the step is a whole number [n] with
    [n * window < 2 ^ 53], [avgUp] is the step in every state and every
    defined entry is [100 - 100 / (1 + step)]. *)
Theorem binary64_constant_rise (closes : list float) (window : nat) (step : float) :
  (0 < window)%nat ->
  Z.of_nat window < 2 ^ 53 ->
  (window + 1 < List.length closes)%nat ->
  ltb (of_nat 0) step = true ->
  Forall (fun d => d = step) (deltas closes) ->
  (forall s, In s (states closes window) -> avgDown s = 0%float /\ rs s = avgUp s) /\
  (forall k, (window + 1 + k < List.length closes)%nat ->
             exists s,
               nth_error (states closes window) (Datatypes.S k) = Some s /\
               nth_error (computeRsi closes window) (window + 1 + k)
               = Some (Some (rsi_value (avgUp s)))) /\
  (forall n, step = of_nat n -> Z.of_nat (n * window) < 2 ^ 53 ->
             (forall s, In s (states closes window) -> avgUp s = step) /\
             (forall v, In (Some v) (computeRsi closes window) ->
                        v = rsi_value step)).
Proof.
  intros Hw Hsafe Hlen Hstep Hrise.
  assert (Hgain : Forall (fun d => geb d (of_nat 0) = true) (deltas closes)).
  { eapply Forall_impl; [|exact Hrise]. intros d ->. now apply gain_of_positive. }
  assert (Hstates : forall s, In s (states closes window) ->
                              avgDown s = 0%float /\ rs s = avgUp s).
  { intros s. now apply no_loss_states. }
  split; [exact Hstates|]. split.
  - intros k Hk. destruct (computeRsi_emitted closes window k Hk) as (s & Hs & Hout).
    exists s. split; [exact Hs|].
    apply nth_error_In in Hs. destruct (Hstates s Hs) as [_ <-]. exact Hout.
  - intros n -> Hn.
    assert (Hwhole : forall s, In s (states closes window) -> avgUp s = of_nat n).
    { intros s. apply (whole_step_states window n Hw Hstep Hn).
      - rewrite deltas_length. lia.
      - exact Hrise. }
    split; [exact Hwhole|].
    intros v Hin. apply computeRsi_defined in Hin as (s & Hs & ->).
    assert (Hin : In s (states closes window)) by now right.
    destruct (Hstates s Hin) as [_ ->]. now rewrite (Hwhole s Hin).
Qed.

End ConstantRise.

(** Every binary64 value but NaN is either [>= 0] or [< 0], and not
    both. *)
Lemma binary64_ordered (d : float) : ordered d <-> d <> nan.
Proof.
  unfold ordered. cbn [ltb geb IEEE].
  rewrite FloatAxioms.ltb_spec, FloatAxioms.leb_spec.
  change (Prim2SF (of_nat 0)) with (S754_zero false).
  split.
  - intros H ->. discriminate H.
  - intros Hd. destruct (Prim2SF d) as [[|]|[|]| |[|] m e] eqn:Hsf;
      try reflexivity.
    exfalso. apply Hd. apply Prim2SF_inj. exact Hsf.
Qed.

End Binary64Engine.

(** ** A call with any window *)

Section Passes.

Variable S : Type.
Variable body : S -> pass S.

Lemma passes_nat_add (a b : nat) (s : S) :
  passes_nat (a + b) body s
  = match passes_nat a body s with
    | Continue s' => passes_nat b body s'
    | done => done
    end.
Proof.
  revert s. induction a as [|a IH]; intros s; [reflexivity|].
  cbn [Nat.add passes_nat]. destruct (body s); [apply IH | reflexivity..].
Qed.

Lemma passes_one_by_one (fuel : positive) (s : S) :
  passes fuel body s = passes_nat (Pos.to_nat fuel) body s.
Proof.
  revert s. induction fuel as [fuel IH | fuel IH |]; intros s; cbn [passes].
  - rewrite Pos2Nat.inj_xI. cbn [passes_nat]. destruct (body s); try reflexivity.
    replace (2 * Pos.to_nat fuel)%nat with (Pos.to_nat fuel + Pos.to_nat fuel)%nat by lia.
    rewrite passes_nat_add, <- IH.
    destruct (passes fuel body s0); [apply IH | reflexivity..].
  - rewrite Pos2Nat.inj_xO.
    replace (2 * Pos.to_nat fuel)%nat with (Pos.to_nat fuel + Pos.to_nat fuel)%nat by lia.
    rewrite passes_nat_add, <- IH.
    destruct (passes fuel body s); [apply IH | reflexivity..].
  - change (Pos.to_nat 1) with 1%nat. cbn [passes_nat]. now destruct (body s).
Qed.

(** A loop that has ended is not changed by more fuel. *)
Lemma passes_nat_more (a b : nat) (s : S) :
  (forall s', passes_nat a body s <> Continue s') ->
  passes_nat (a + b) body s = passes_nat a body s.
Proof.
  intros Hdone. rewrite passes_nat_add.
  destruct (passes_nat a body s) as [s'| |]; [now destruct (Hdone s') | reflexivity..].
Qed.

Lemma passes_nat_enough (a fuel : nat) (s : S) (r : pass S) :
  a <= fuel ->
  passes_nat a body s = r ->
  (forall s', r <> Continue s') ->
  passes_nat fuel body s = r.
Proof.
  intros Hle Hr Hdone. replace fuel with (a + (fuel - a)) by lia.
  rewrite passes_nat_more; [exact Hr | now rewrite Hr].
Qed.

(** A loop whose passes use up a finite room ends. *)
Lemma passes_nat_ends (room : S -> nat) :
  (forall s s', body s = Continue s' -> room s' < room s) ->
  forall fuel s s', room s < fuel -> passes_nat fuel body s <> Continue s'.
Proof.
  intros Hroom. induction fuel as [|fuel IH]; intros s s' Hfuel; [lia|].
  cbn [passes_nat]. destruct (body s) as [s1| |] eqn:Hbody; try discriminate.
  apply IH. apply Hroom in Hbody. lia.
Qed.

End Passes.

Section CallAnyWindow.

Lemma push_room (A : Type) (a a' : list A) (x : A) :
  push a x = Normal a' ->
  a' = a ++ [x] /\ (N.of_nat (List.length a) < max_array_length)%N.
Proof.
  unfold push, array_full.
  destruct (N.leb_spec max_array_length (N.of_nat (List.length a)));
    [discriminate|].
  intros Heq. injection Heq as <-. now split.
Qed.

Lemma push_error (A : Type) (a : list A) (x : A) (message : string) :
  push a x = Throw message -> message = RangeError.
Proof.
  unfold push. destruct (array_full a); [|discriminate].
  intros Heq. now injection Heq.
Qed.

Lemma push_within (A : Type) (a : list A) (x : A) :
  (N.of_nat (List.length a) < max_array_length)%N -> push a x = Normal (a ++ [x]).
Proof.
  intros Hroom. unfold push, array_full.
  destruct (N.leb_spec max_array_length (N.of_nat (List.length a)));
    [lia | reflexivity].
Qed.

Lemma null_pass_room (length : float) (s s' : float * list (option float)) :
  null_pass length s = Continue s' -> room (snd s') < room (snd s).
Proof.
  destruct s as [i rsi]. unfold null_pass.
  destruct (PrimFloat.leb i length); [|discriminate].
  destruct (push rsi None) as [rsi'|message] eqn:Hpush; [|discriminate].
  intros Heq. injection Heq as <-. cbn [snd].
  apply push_room in Hpush as [-> Hroom]. unfold room.
  rewrite length_app. cbn [List.length]. lia.
Qed.

Lemma null_pass_error (length : float) (s : float * list (option float))
    (message : string) :
  null_pass length s = Raise message -> message = RangeError.
Proof.
  destruct s as [i rsi]. unfold null_pass.
  destruct (PrimFloat.leb i length); [|discriminate].
  destruct (push rsi None) as [rsi'|message'] eqn:Hpush; [discriminate|].
  intros Heq. injection Heq as <-. now apply push_error in Hpush.
Qed.

Lemma rolling_pass_room (length : float) (ds : list float) (c c' : float * state) :
  rolling_pass length ds c = Continue c' ->
  room (rsi (snd c')) < room (rsi (snd c)).
Proof.
  destruct c as [i s]. unfold rolling_pass.
  destruct (PrimFloat.ltb i (of_nat (List.length ds))); [|discriminate].
  destruct (smooth_with _ _ _ _) as [up down].
  destruct (push (rsi s) _) as [rsi'|message] eqn:Hpush; [|discriminate].
  intros Heq. injection Heq as <-. cbn [snd rsi].
  apply push_room in Hpush as [-> Hroom]. unfold room.
  rewrite length_app. cbn [List.length]. lia.
Qed.

Lemma rolling_pass_error (length : float) (ds : list float) (c : float * state)
    (message : string) :
  rolling_pass length ds c = Raise message -> message = RangeError.
Proof.
  destruct c as [i s]. unfold rolling_pass.
  destruct (PrimFloat.ltb i (of_nat (List.length ds))); [|discriminate].
  destruct (smooth_with _ _ _ _) as [up down].
  destruct (push (rsi s) _) as [rsi'|message'] eqn:Hpush; [discriminate|].
  intros Heq. injection Heq as <-. now apply push_error in Hpush.
Qed.

(** A loop raises what one of its passes raises. *)
Lemma passes_nat_error (S : Type) (body : S -> pass S) (message : string) :
  (forall s message', body s = Raise message' -> message' = message) ->
  forall fuel s message',
    passes_nat fuel body s = Raise message' -> message' = message.
Proof.
  intros Hbody. induction fuel as [|fuel IH]; intros s message'; [discriminate|].
  cbn [passes_nat]. destruct (body s) as [s1| |m] eqn:Hs; try discriminate.
  - apply IH.
  - intros Heq. injection Heq as <-. now apply Hbody in Hs.
Qed.

Lemma unshift_nulls_within_error (times : nat) :
  forall out message,
    unshift_nulls_within times out = Throw message -> message = RangeError.
Proof.
  induction times as [|times IH]; intros out message; cbn [unshift_nulls_within];
    [discriminate|].
  destruct (array_full out); [|apply IH].
  intros Heq. now injection Heq.
Qed.

Lemma enough_room (A : Type) (a : list A) : room a < Pos.to_nat enough.
Proof. unfold room, enough, max_array_length. lia. Qed.

(** Whatever the window, the call ends: it returns an array, or it raises
    the [RangeError] of an array that has no room left. *)
Lemma call_computeRsi_ends (closes : list float) (length : float) :
  (exists out, call_computeRsi closes length = Some (Normal out)) \/
  call_computeRsi closes length = Some (Throw RangeError).
Proof.
  unfold call_computeRsi.
  destruct (fold_left accumulate _ _) as [up down].
  rewrite passes_one_by_one.
  destruct (passes_nat _ (null_pass length) _) as [s1|[i nulls]|message] eqn:Hnulls.
  - exfalso. revert Hnulls.
    apply (passes_nat_ends _ _ (fun s => room (snd s))); [apply null_pass_room|].
    apply enough_room.
  - rewrite passes_one_by_one.
    match goal with
    | |- context [passes_nat ?fuel (rolling_pass length ?ds) ?c] =>
        destruct (passes_nat fuel (rolling_pass length ds) c)
          as [c'|[j s]|message] eqn:Hroll
    end.
    + exfalso. revert Hroll.
      apply (passes_nat_ends _ _ (fun c => room (rsi (snd c))));
        [apply rolling_pass_room | apply enough_room].
    + destruct (unshift_nulls_within _ _) as [out|message] eqn:Hpad.
      * left. now exists out.
      * right. now apply unshift_nulls_within_error in Hpad as ->.
    + right. apply passes_nat_error with (message := RangeError) in Hroll as ->;
        [reflexivity | apply rolling_pass_error].
  - right. apply passes_nat_error with (message := RangeError) in Hnulls as ->;
      [reflexivity | apply null_pass_error].
Qed.

End CallAnyWindow.

Section CallWholeWindow.

Local Open Scope Z_scope.

Lemma SF_int_shift (z : Z) :
  0 < z < 2 ^ 53 ->
  Z.shiftl (z * 2 ^ (53 - Zdigits2 z)) (Zdigits2 z - 53) = z /\
  Z.shiftl z (- (Zdigits2 z - 53)) = z * 2 ^ (53 - Zdigits2 z).
Proof.
  intros Hz. destruct (SF_int_mantissa z Hz) as (_ & Hd & _). split.
  - rewrite Z.shiftl_div_pow2 by lia.
    replace (- (Zdigits2 z - 53)) with (53 - Zdigits2 z) by lia.
    apply Z.div_mul. apply Z.pow_nonzero; lia.
  - rewrite Z.shiftl_mul_pow2 by lia. f_equal. f_equal. lia.
Qed.

Lemma ToIntegerOrInfinity_of_nat (n : nat) :
  Z.of_nat n < 2 ^ 53 -> ToIntegerOrInfinity (of_nat n) = Integer (Z.of_nat n).
Proof.
  intros Hn. unfold ToIntegerOrInfinity. rewrite Prim2SF_of_nat_int by exact Hn.
  destruct (Z.of_nat n) as [|p|p] eqn:Hp; [reflexivity | | lia].
  destruct (SF_int_mantissa (Zpos p) ltac:(lia)) as (Hm & _ & _).
  destruct (SF_int_shift (Zpos p) ltac:(lia)) as [Hshift _].
  cbn [SF_int cond_Zopp]. now rewrite Hm, Hshift.
Qed.

Lemma slice_to_of_nat (A : Type) (a : list A) (n : nat) :
  Z.of_nat n < 2 ^ 53 -> slice_to a (of_nat n) = firstn n a.
Proof.
  intros Hn. unfold slice_to. rewrite ToIntegerOrInfinity_of_nat by exact Hn.
  destruct (Z.ltb_spec (Z.of_nat n) 0); [lia|].
  destruct (Nat.le_gt_cases n (List.length a)) as [Hle | Hgt].
  - f_equal. lia.
  - rewrite (firstn_all2 (n := n)) by lia. apply firstn_all2. lia.
Qed.

Lemma element_of_nat (A : Type) (a : list A) (k : nat) :
  (k < List.length a)%nat -> Z.of_nat k < 2 ^ 53 ->
  element a (of_nat k) = nth_error a k.
Proof.
  intros Hk Hsafe. unfold element. rewrite Prim2SF_of_nat_int by exact Hsafe.
  destruct (Z.of_nat k) as [|p|p] eqn:Hp; [|  | lia].
  - cbn [SF_int]. f_equal. lia.
  - destruct (SF_int_mantissa (Zpos p) ltac:(lia)) as (Hm & _ & _).
    destruct (SF_int_shift (Zpos p) ltac:(lia)) as [Hshift Hback].
    cbn [SF_int]. rewrite Hm, Hshift, Hback, Z.eqb_refl.
    destruct (Z.ltb_spec (Zpos p) (Z.of_nat (List.length a))); [|lia].
    cbn [andb]. f_equal. lia.
Qed.

Lemma smooth_with_of_nat (n : nat) (up down d : float) :
  smooth_with (of_nat n) up down d = smooth n up down d.
Proof. reflexivity. Qed.

Variable closes : list float.
Variable window : nat.
Hypothesis closes_array : (N.of_nat (List.length closes) <= max_array_length)%N.
Hypothesis window_small : (N.of_nat window < max_array_length)%N.

Lemma small_safe (k : nat) :
  (N.of_nat k <= max_array_length)%N -> Z.of_nat k < 2 ^ 53 /\ Z.of_nat (k + 1) < 2 ^ 53.
Proof.
  unfold max_array_length. intros Hk.
  assert (H : 2 ^ 33 < 2 ^ 53) by (apply Z.pow_lt_mono_r; lia).
  change (2 ^ 33) with 8589934592 in H. lia.
Qed.

(** The first loop pushes [window + 1] nulls. *)
Lemma null_passes (todo : nat) :
  forall k,
    (k + todo = window + 1)%nat ->
    passes_nat (todo + 1) (null_pass (of_nat window)) (of_nat k, repeat None k)
    = Break (of_nat (window + 1), repeat None (window + 1)).
Proof.
  induction todo as [|todo IH]; intros k Hk.
  - cbn [Nat.add passes_nat null_pass].
    destruct (small_safe k ltac:(lia)) as [Hsafe _].
    destruct (small_safe window ltac:(lia)) as [Hsafe' _].
    rewrite of_nat_leb by lia.
    destruct (Nat.leb_spec k window); [lia|].
    now replace k with (window + 1)%nat by lia.
  - cbn [Nat.add passes_nat null_pass].
    destruct (small_safe k ltac:(lia)) as [Hsafe Hsafe1].
    destruct (small_safe window ltac:(lia)) as [Hsafe' _].
    rewrite of_nat_leb by lia.
    destruct (Nat.leb_spec k window); [|lia].
    rewrite push_within by (rewrite repeat_length; lia).
    change (PrimFloat.add (of_nat k) 1) with (add (of_nat k) (of_nat 1)).
    rewrite of_nat_add by exact Hsafe1.
    replace (repeat None k ++ [None]) with (repeat (@None float) (k + 1))
      by (rewrite repeat_app; reflexivity).
    apply IH. lia.
Qed.

(** The second loop visits the deltas from index [window] on. *)
Lemma rolling_passes (rest : list float) :
  forall i s,
    skipn i (deltas closes) = rest ->
    (i <= List.length (deltas closes))%nat ->
    List.length (rsi s) = (i + 1)%nat ->
    passes_nat (List.length rest + 1)
      (rolling_pass (of_nat window) (deltas closes)) (of_nat i, s)
    = Break (of_nat (List.length (deltas closes)), fold_left (roll window) rest s).
Proof.
  pose proof (deltas_length closes) as Hds.
  induction rest as [|d rest IH]; intros i s Hskip Hi Hrsi.
  - assert (Hend : i = List.length (deltas closes)).
    { apply (f_equal (@List.length float)) in Hskip.
      rewrite length_skipn in Hskip. cbn in Hskip. lia. }
    cbn [List.length Nat.add passes_nat rolling_pass fold_left].
    destruct (small_safe i ltac:(lia)) as [Hsafe _].
    rewrite <- Hend, of_nat_ltb, Nat.ltb_irrefl by lia. reflexivity.
  - assert (Hlt : (i < List.length (deltas closes))%nat).
    { apply (f_equal (@List.length float)) in Hskip.
      rewrite length_skipn in Hskip. cbn in Hskip. lia. }
    assert (Hd : nth_error (deltas closes) i = Some d).
    { rewrite <- (firstn_skipn i (deltas closes)) at 1.
      rewrite nth_error_app2 by (rewrite length_firstn; lia).
      rewrite length_firstn, Hskip.
      replace (i - Nat.min i (List.length (deltas closes)))%nat with 0%nat by lia.
      reflexivity. }
    destruct (small_safe i ltac:(lia)) as [Hsafe Hsafe1].
    destruct (small_safe (List.length (deltas closes)) ltac:(lia)) as [Hsafe' _].
    cbn [List.length Nat.add passes_nat rolling_pass fold_left].
    rewrite of_nat_ltb by lia.
    destruct (Nat.ltb_spec i (List.length (deltas closes))); [|lia].
    rewrite element_of_nat, Hd by lia. cbn [ToNumber].
    rewrite smooth_with_of_nat.
    unfold roll at 2.
    destruct (smooth window (avgUp s) (avgDown s) d) as [up down].
    rewrite push_within by lia.
    change (PrimFloat.add (of_nat i) 1) with (add (of_nat i) (of_nat 1)).
    rewrite of_nat_add by exact Hsafe1.
    apply IH.
    + replace (i + 1)%nat with (1 + i)%nat by lia.
      now rewrite <- skipn_skipn, Hskip.
    + lia.
    + cbn [rsi]. rewrite length_app. cbn [List.length]. lia.
Qed.

Lemma unshift_nulls_within_room (times : nat) :
  forall out,
    (N.of_nat (List.length out + times) <= max_array_length)%N ->
    unshift_nulls_within times out = Normal (unshift_nulls times out).
Proof.
  induction times as [|times IH]; intros out Hroom; [reflexivity|].
  cbn [unshift_nulls_within unshift_nulls]. unfold array_full.
  destruct (N.leb_spec max_array_length (N.of_nat (List.length out))); [lia|].
  apply IH. cbn [List.length]. lia.
Qed.

(** With a whole number as the window and room for the output, the call
    returns what [computeRsi] computes. *)
Lemma call_computeRsi_whole :
  call_computeRsi closes (of_nat window) = Some (Normal (computeRsi closes window)).
Proof.
  pose proof (deltas_length closes) as Hds.
  destruct (small_safe window ltac:(lia)) as [Hsafe _].
  assert (Hfuel : (window + 2 <= Pos.to_nat enough)%nat)
    by (unfold enough, max_array_length in *; lia).
  assert (Hfuel' : (List.length closes + 1 <= Pos.to_nat enough)%nat)
    by (unfold enough, max_array_length in *; lia).
  unfold call_computeRsi. rewrite slice_to_of_nat by exact Hsafe.
  rewrite passes_one_by_one.
  rewrite (passes_nat_enough _ _ (window + 1 + 1) (Pos.to_nat enough) _
             (Break (of_nat (window + 1), repeat None (window + 1))));
    [|lia | apply (null_passes (window + 1) 0); lia | discriminate].
  destruct (fold_left accumulate (firstn window (deltas closes)) (0%float, 0%float))
    as [up down] eqn:Hseed.
  rewrite passes_one_by_one.
  set (seeded := {| avgUp := _; avgDown := _; rs := _; rsi := _ |}).
  assert (Hseeded : seeded = seed_state closes window).
  { unfold seed_state.
    change (of_nat 0, of_nat 0) with (0%float, 0%float). rewrite Hseed.
    subst seeded. f_equal. f_equal. lia. }
  rewrite Hseeded. clear seeded Hseeded.
  unfold computeRsi, rolled.
  destruct (Nat.le_gt_cases window (List.length (deltas closes))) as [Hle | Hgt].
  - pose proof (rolling_passes (skipn window (deltas closes)) window
                  (seed_state closes window) eq_refl Hle) as Hroll.
    rewrite rsi_seed_state, repeat_length in Hroll.
    specialize (Hroll ltac:(lia)). rewrite length_skipn in Hroll.
    rewrite (passes_nat_enough _ _ (List.length (deltas closes) - window + 1)
               (Pos.to_nat enough) _ _ ltac:(lia) Hroll)
      by discriminate.
    f_equal. apply unshift_nulls_within_room.
    rewrite rsi_fold_roll, length_app, rsi_seed_state, repeat_length, length_map,
      trace_length, length_skipn.
    lia.
  - assert (Hstop : passes_nat 1 (rolling_pass (of_nat window) (deltas closes))
                      (of_nat window, seed_state closes window)
                    = Break (of_nat window, seed_state closes window)).
    { cbn [passes_nat rolling_pass].
      destruct (small_safe (List.length (deltas closes)) ltac:(lia)) as [Hsafe' _].
      rewrite of_nat_ltb by lia.
      now destruct (Nat.ltb_spec window (List.length (deltas closes))); [lia|]. }
    rewrite (passes_nat_enough _ _ 1 (Pos.to_nat enough) _ _ ltac:(lia) Hstop)
      by discriminate.
    rewrite skipn_all2 by lia. cbn [fold_left]. f_equal.
    apply unshift_nulls_within_room.
    rewrite rsi_seed_state, repeat_length. lia.
Qed.

End CallWholeWindow.

Section CallHugeWindow.

Local Open Scope Z_scope.

Variable closes : list float.
Variable huge : nat.
Hypothesis huge_window : (max_array_length <= N.of_nat huge)%N.
Hypothesis huge_safe : Z.of_nat huge < 2 ^ 53.

(** The first loop fills the array and then raises. *)
Lemma null_passes_full (todo : nat) :
  forall k,
    (k + todo = N.to_nat max_array_length)%nat ->
    passes_nat (todo + 1) (null_pass (of_nat huge)) (of_nat k, repeat None k)
    = Raise RangeError.
Proof.
  induction todo as [|todo IH]; intros k Hk;
    cbn [Nat.add passes_nat null_pass];
    (rewrite of_nat_leb by lia);
    (destruct (Nat.leb_spec k huge); [|lia]).
  - unfold push, array_full. rewrite repeat_length.
    destruct (N.leb_spec max_array_length (N.of_nat k)); [reflexivity | lia].
  - rewrite push_within by (rewrite repeat_length; lia).
    change (PrimFloat.add (of_nat k) 1) with (add (of_nat k) (of_nat 1)).
    rewrite of_nat_add by lia.
    replace (repeat None k ++ [None]) with (repeat (@None float) (k + 1))
      by (rewrite repeat_app; reflexivity).
    apply IH. lia.
Qed.

(** A window of [2 ^ 32 - 1] or more asks for more nulls than an array
    holds: the call raises, after the seed has been computed. *)
Lemma call_computeRsi_huge :
  call_computeRsi closes (of_nat huge) = Some (Throw RangeError).
Proof.
  unfold call_computeRsi.
  destruct (fold_left accumulate _ _) as [up down].
  rewrite passes_one_by_one.
  rewrite (passes_nat_enough _ _ (N.to_nat max_array_length + 1)
             (Pos.to_nat enough) _ (Raise RangeError));
    [reflexivity | unfold enough, max_array_length; lia | | discriminate].
  apply (null_passes_full (N.to_nat max_array_length) 0). lia.
Qed.

End CallHugeWindow.

(** C9 (as amended).  The body never looks at the window before it
    computes with it, and nothing in it raises an error for a window that
    is not a positive integer.  For an array of prices and a window that is
    a whole number below [2 ^ 32 - 1], zero included, the call returns the
    whole output, of length [max (closes.length, window + 1)].  For every
    window, any number at all, the call ends: it returns an array, or it
    raises the [RangeError] of an array that has grown to the largest
    length. *)
Theorem computeRsi_never_throws (closes : list float) (window : nat) (length : float) :
  (N.of_nat (List.length closes) <= max_array_length)%N ->
  (N.of_nat window < max_array_length)%N ->
  call_computeRsi closes (of_nat window) = Some (Normal (computeRsi closes window)) /\
  List.length (computeRsi closes window)
  = Nat.max (List.length closes) (Datatypes.S window) /\
  ((exists out, call_computeRsi closes length = Some (Normal out)) \/
   call_computeRsi closes length = Some (Throw RangeError)).
Proof.
  intros Hcloses Hwindow. split; [|split].
  - now apply call_computeRsi_whole.
  - apply computeRsi_length.
  - apply call_computeRsi_ends.
Qed.

(** ** Runs in binary64 arithmetic *)

Section Binary64.

Local Open Scope float_scope.

(** C6, the claim as stated: on the flat series [7, 7, 7, 7] with window 2
    the one defined output is [0], not [50]. *)
Lemma flat_series_is_not_50 :
  deltas [7; 7; 7; 7] = [0; 0; 0] /\
  computeRsi [7; 7; 7; 7] 2 = [None; None; None; Some 0] /\
  ~ (forall v, In (Some v) (computeRsi [7; 7; 7; 7] 2) -> (v =? 50) = true).
Proof.
  split; [reflexivity|]. split; [reflexivity|].
  intros H. specialize (H 0). discriminate H.
  vm_compute. tauto.
Qed.

(** C7, the claim as stated: on the series [1, 2, 3, 4], rising by the
    constant step 1, with window 2 the one defined output is [50], not
    [100]. *)
Lemma constant_rise_is_not_100 :
  deltas [1; 2; 3; 4] = [1; 1; 1] /\
  computeRsi [1; 2; 3; 4] 2 = [None; None; None; Some 50] /\
  ~ (forall v, In (Some v) (computeRsi [1; 2; 3; 4] 2) -> (v =? 100) = true).
Proof.
  split; [reflexivity|]. split; [reflexivity|].
  intros H. specialize (H 50). discriminate H.
  vm_compute. tauto.
Qed.

(** C8, the claim as stated: with prices that swing between [0] and
    [2^1023] the sums of gains and of losses both overflow to [Infinity],
    [rs] is [Infinity / Infinity], and the defined output is NaN, which is
    not in [[0, 100]]. *)
Lemma overflow_emits_nan :
  computeRsi [0; 0x1p1023; 0; 0x1p1023; 0; 0] 4
  = [None; None; None; None; None; Some nan] /\
  in_range nan = false /\
  ~ (forall v, In (Some v) (computeRsi [0; 0x1p1023; 0; 0x1p1023; 0; 0] 4) ->
               in_range v = true).
Proof.
  split; [reflexivity|]. split; [reflexivity|].
  intros H. specialize (H nan). discriminate H.
  vm_compute. tauto.
Qed.

(** C2, the claim as stated: on [2^-1000, 0, 2^1000, 2^1000] with window
    [2] the seed averages are the finite numbers [2^999] and [2^-1001],
    [avgDown] is not zero, and their quotient [rs] is [Infinity]; on the
    series of C8 both averages are [Infinity] and [rs] is NaN. *)
Lemma rs_is_infinite_or_nan :
  (let s := seed_state [0x1p-1000; 0; 0x1p1000; 0x1p1000] 2 in
   In s (states [0x1p-1000; 0; 0x1p1000; 0x1p1000] 2) /\
   avgUp s = 0x1p999 /\ avgDown s = 0x1p-1001 /\ rs s = infinity) /\
  (let s := seed_state [0; 0x1p1023; 0; 0x1p1023; 0; 0] 4 in
   In s (states [0; 0x1p1023; 0; 0x1p1023; 0; 0] 4) /\
   avgUp s = infinity /\ avgDown s = infinity /\ rs s = nan).
Proof.
  split; (split; [left; reflexivity | repeat split; reflexivity]).
Qed.

(** C9, the claim as stated: with the invalid windows [0] and [-5] the
    call raises nothing; it computes with the window and returns a
    sequence. *)
Lemma zero_window_returns :
  call_computeRsi [1; 2; 3] 0 = Some (Normal [None; Some nan; Some nan]) /\
  call_computeRsi [1; 2; 3] (-5)
  = Some (Normal [Some nan; Some nan; Some nan; Some nan; Some nan; Some nan;
                  Some nan]) /\
  ~ (exists message, call_computeRsi [1; 2; 3] 0 = Some (Throw message)).
Proof.
  split; [vm_compute; reflexivity|]. split; [vm_compute; reflexivity|].
  intros [message H]. vm_compute in H. discriminate H.
Qed.

End Binary64.

(** ** The theorems at concrete inputs *)

Section Instances.

Lemma leading_entries_undefined_witness :
  nth_error (computeRsi [1; 2; 3; 4]%float 2) 2 = Some None /\
  Forall (fun o => o = None) (computeRsi [1; 2]%float 2).
Proof.
  split.
  - apply (proj1 (leading_entries_undefined [1; 2; 3; 4]%float 2)).
    apply le_n.
  - apply (proj2 (leading_entries_undefined [1; 2]%float 2)).
    apply le_n.
Defined.


Lemma rs_zero_division_rule_witness :
  let s := seed_state [1; 2; 3; 4]%float 2 in
  In s (states [1; 2; 3; 4]%float 2) /\
  rs s = spec_rs (avgUp s) (avgDown s) /\
  eqb (spec_divisor (avgDown s)) (of_nat 0) = false /\
  (eqb (avgDown s) (of_nat 0) = true -> rs s = avgUp s) /\
  (rs s = nan
   <-> avgUp s = nan \/ avgDown s = nan
       \/ (avgUp s = infinity /\ avgDown s = infinity)) /\
  (rs s = infinity ->
   eqb (avgUp s) (of_nat 0) = false /\ avgDown s <> infinity).
Proof.
  intros s.
  assert (Hin : In s (states [1; 2; 3; 4]%float 2)) by (left; reflexivity).
  split; [exact Hin|].
  exact (rs_zero_division_rule [1; 2; 3; 4]%float 2 s
           (le_S 1 1 (le_n 1)) eq_refl Hin).
Defined.

Lemma seed_phase_averages_witness :
  let seed := firstn 2 (deltas [1; 3; 2; 5]%float) in
  Forall ordered seed /\
  avgUp (seed_state [1; 3; 2; 5]%float 2) = div (spec_sumGain seed) (of_nat 2) /\
  avgDown (seed_state [1; 3; 2; 5]%float 2) = div (spec_sumLoss seed) (of_nat 2).
Proof.
  intros seed.
  assert (Hord : Forall ordered seed) by (repeat constructor).
  split; [exact Hord|].
  exact (proj2 (proj2 (seed_phase_averages [1; 3; 2; 5]%float 2)) Hord).
Defined.

Lemma rolling_phase_step_witness :
  let before := seed_state [1; 3; 2; 5]%float 2 in
  nth_error (deltas [1; 3; 2; 5]%float) (2 + 0) = Some 3%float /\
  nth_error (states [1; 3; 2; 5]%float 2) 0 = Some before /\
  exists after,
    nth_error (states [1; 3; 2; 5]%float 2) 1 = Some after /\
    (avgUp after, avgDown after)
    = spec_wilder 2 (avgUp before, avgDown before) 3%float /\
    rs after = spec_rs (avgUp after) (avgDown after) /\
    nth_error (computeRsi [1; 3; 2; 5]%float 2) (2 + 0 + 1)
    = Some (Some (spec_rsi (avgUp after, avgDown after))).
Proof.
  intros before. split; [reflexivity|]. split; [reflexivity|].
  exact (@rolling_phase_step float IEEE [1; 3; 2; 5]%float 2 0 3%float before
           eq_refl eq_refl).
Defined.

Lemma binary64_flat_series_witness :
  Forall (fun d => eqb d (of_nat 0) = true) (deltas [7; 7; 7; 7]%float) /\
  (forall v, In (Some v) (computeRsi [7; 7; 7; 7]%float 2) -> v = 0%float) /\
  (exists v, nth_error (computeRsi [7; 7; 7; 7]%float 2) (2 + 1) = Some (Some v)).
Proof.
  assert (Hflat : Forall (fun d => eqb d (of_nat 0) = true)
                    (deltas [7; 7; 7; 7]%float))
    by (repeat constructor).
  split; [exact Hflat|].
  exact (proj2 (binary64_flat_series [7; 7; 7; 7]%float 2
                  (le_S 1 1 (le_n 1)) eq_refl (le_n 4) Hflat)).
Defined.

Lemma binary64_constant_rise_witness :
  Forall (fun d => d = 1%float) (deltas [1; 2; 3; 4]%float) /\
  (forall s, In s (states [1; 2; 3; 4]%float 2) ->
             avgDown s = 0%float /\ rs s = avgUp s) /\
  (forall k, 2 + 1 + k < List.length [1; 2; 3; 4]%float ->
             exists s,
               nth_error (states [1; 2; 3; 4]%float 2) (S k) = Some s /\
               nth_error (computeRsi [1; 2; 3; 4]%float 2) (2 + 1 + k)
               = Some (Some (rsi_value (avgUp s)))) /\
  (forall s, In s (states [1; 2; 3; 4]%float 2) -> avgUp s = 1%float) /\
  (forall v, In (Some v) (computeRsi [1; 2; 3; 4]%float 2) -> v = 50%float).
Proof.
  assert (Hrise : Forall (fun d => d = 1%float) (deltas [1; 2; 3; 4]%float))
    by (repeat constructor).
  split; [exact Hrise|].
  destruct (binary64_constant_rise [1; 2; 3; 4]%float 2 1%float
              (le_S 1 1 (le_n 1)) eq_refl (le_n 4) eq_refl Hrise)
    as (Hstates & Hentries & Hwhole).
  destruct (Hwhole 1 eq_refl eq_refl) as [Hup Hvalues].
  split; [exact Hstates|]. split; [exact Hentries|].
  split; [exact Hup | exact Hvalues].
Defined.

Lemma computeRsi_never_throws_witness :
  call_computeRsi [1; 2; 3]%float (of_nat 0)
  = Some (Normal (computeRsi [1; 2; 3]%float 0)) /\
  List.length (computeRsi [1; 2; 3]%float 0) = Nat.max (List.length [1; 2; 3]%float) 1 /\
  ((exists out, call_computeRsi [1; 2; 3]%float (-5)%float = Some (Normal out)) \/
   call_computeRsi [1; 2; 3]%float (-5)%float = Some (Throw RangeError)).
Proof.
  assert (Hcloses : (N.of_nat (List.length [1; 2; 3]%float) <= max_array_length)%N)
    by (intros H; discriminate H).
  exact (computeRsi_never_throws [1; 2; 3]%float 0 (-5)%float Hcloses eq_refl).
Defined.

Lemma binary64_output_in_range_witness :
  In (Some 50%float) (computeRsi [1; 2; 3; 4]%float 2) /\
  (50%float = nan \/ in_range 50%float = true).
Proof.
  assert (Hin : In (Some 50%float) (computeRsi [1; 2; 3; 4]%float 2)).
  { right. right. right. left. reflexivity. }
  split; [exact Hin|].
  exact (binary64_output_in_range [1; 2; 3; 4]%float 2 50%float
           (le_S 1 1 (le_n 1)) eq_refl Hin).
Defined.

End Instances.

(** ** Which entries are defined, and what new prices change *)

Section Entries.

Context {num : Type} {N : Number num}.

Lemma deltas_from_app (l more : list num) :
  forall prev,
    exists extra, deltas_from prev (l ++ more) = deltas_from prev l ++ extra.
Proof.
  induction l as [|c l IH]; intros prev; [now eexists|].
  destruct (IH c) as [extra Hextra]. exists extra.
  cbn [app deltas_from]. now rewrite Hextra.
Qed.

Lemma deltas_app (closes more : list num) :
  closes <> [] ->
  exists extra, deltas (closes ++ more) = deltas closes ++ extra.
Proof.
  destruct closes as [|c0 rest]; [congruence|]. intros _.
  cbn [app deltas]. apply deltas_from_app.
Qed.

Lemma trace_app (window : nat) (ds more : list num) :
  forall s,
    trace window s (ds ++ more)
    = trace window s ds ++ trace window (fold_left (roll window) ds s) more.
Proof.
  induction ds as [|d ds IH]; intros s; [reflexivity|].
  cbn [app trace fold_left]. now rewrite IH.
Qed.

Lemma nth_error_rolling_values (closes : list num) (window k : nat) :
  nth_error (rolling_values closes window) k <> Some None.
Proof.
  unfold rolling_values. rewrite nth_error_map.
  destruct (nth_error _ k); discriminate.
Qed.


Lemma computeRsi_number_iff (closes : list num) (window i : nat) :
  (exists v, nth_error (computeRsi closes window) i = Some (Some v))
  <-> window < i < List.length closes.
Proof.
  rewrite computeRsi_unfold.
  destruct (le_lt_dec i window) as [Hle | Hgt].
  - rewrite nth_error_app1 by (rewrite repeat_length; lia).
    rewrite nth_error_repeat by lia. split; [|lia].
    intros [v Hv]. discriminate.
  - rewrite nth_error_app2 by (rewrite repeat_length; lia).
    rewrite repeat_length.
    pose proof (rolling_values_length closes window) as Hlen.
    destruct (nth_error (rolling_values closes window) (i - S window))
      as [[v|]|] eqn:Hnth.
    + split; [|now exists v]. intros _.
      assert (Hsome : nth_error (rolling_values closes window) (i - S window) <> None)
        by congruence.
      apply nth_error_Some in Hsome. lia.
    + now apply nth_error_rolling_values in Hnth.
    + apply nth_error_None in Hnth. split; [|lia].
      intros [v Hv]. discriminate.
Qed.


(** The output has one entry for each price exactly when there are more
    prices than the window. *)
Theorem computeRsi_aligned (closes : list num) (window : nat) :
  List.length (computeRsi closes window) = List.length closes
  <-> window < List.length closes.
Proof. rewrite computeRsi_length. lia. Qed.

(** Prices appended to a series leave the output at the indices of the
    series as it was. *)
Theorem computeRsi_prefix_stable (closes more : list num) (window i : nat) :
  i < List.length closes ->
  nth_error (computeRsi (closes ++ more) window) i
  = nth_error (computeRsi closes window) i.
Proof.
  intros Hi. rewrite !computeRsi_unfold.
  assert (Hpad : List.length (repeat (@None num) (S window)) = S window)
    by apply repeat_length.
  destruct (le_lt_dec i window) as [Hle | Hgt].
  - now rewrite !nth_error_app1 by lia.
  - rewrite !nth_error_app2 by lia. rewrite Hpad.
    destruct (@deltas_app closes more) as [extra Hd].
    { intros ->. cbn in Hi. lia. }
    pose proof (deltas_length closes) as Hlen.
    assert (Hseed : seed_state (closes ++ more) window = seed_state closes window).
    { unfold seed_state. rewrite Hd, firstn_app.
      replace (window - List.length (deltas closes)) with 0 by lia.
      now rewrite firstn_O, app_nil_r. }
    unfold rolling_values. rewrite Hseed, Hd, skipn_app.
    replace (window - List.length (deltas closes)) with 0 by lia.
    rewrite skipn_O, trace_app, map_app.
    apply nth_error_app1.
    rewrite length_map, trace_length, length_skipn. lia.
Qed.

End Entries.

(** ** A series that never rises *)

Section NoGain.

Local Open Scope Z_scope.

Variable window : nat.
Hypothesis window_pos : (0 < window)%nat.
Hypothesis window_safe : Z.of_nat window < 2 ^ 53.

(** A delta that is not positive is a loss, a NaN, or a zero. *)
Lemma no_gain_cases (d : float) :
  ltb (of_nat 0) d = false ->
  geb d (of_nat 0) = false \/ eqb d (of_nat 0) = true.
Proof.
  cbn [ltb geb eqb IEEE].
  rewrite FloatAxioms.ltb_spec, FloatAxioms.leb_spec, FloatAxioms.eqb_spec.
  change (Prim2SF (of_nat 0)) with (S754_zero false).
  destruct (Prim2SF d) as [[|]|[|]| |[|] m e]; cbn; auto.
Qed.

Lemma no_gain_accumulate (seed : list float) :
  Forall (fun d => ltb (of_nat 0) d = false) seed ->
  forall up down,
    is_zero up -> is_zero (fst (fold_left accumulate seed (up, down))).
Proof.
  induction 1 as [|d seed Hd Hseed IH]; intros up down Hup; [exact Hup|].
  cbn [fold_left]. unfold accumulate at 2.
  destruct (no_gain_cases d Hd) as [Hloss | Hzero].
  - rewrite Hloss. now apply IH.
  - rewrite (geb_of_eqb d Hzero). apply IH.
    now apply is_zero_add.
Qed.

Lemma no_gain_seed_state (closes : list float) :
  Forall (fun d => ltb (of_nat 0) d = false) (deltas closes) ->
  is_zero (avgUp (seed_state closes window)).
Proof.
  intros Hfall. apply (Forall_firstn_skipn window) in Hfall as [Hseed _].
  unfold seed_state.
  pose proof (no_gain_accumulate _ Hseed (of_nat 0) (of_nat 0) eq_refl) as Hup.
  destruct (fold_left _ _ _) as [up down]. cbn [fst avgUp] in *.
  now apply (is_zero_div_window window window_pos window_safe).
Qed.

Lemma no_gain_smooth (up down d : float) :
  is_zero up -> ltb (of_nat 0) d = false ->
  is_zero (fst (smooth window up down d)).
Proof.
  intros Hup Hd. unfold smooth.
  destruct (no_gain_cases d Hd) as [Hloss | Hzero].
  - rewrite Hloss. cbn [fst].
    now apply (is_zero_div_window window window_pos window_safe),
      (is_zero_mul_window window window_pos window_safe).
  - rewrite (geb_of_eqb d Hzero). cbn [fst].
    apply (is_zero_div_window window window_pos window_safe).
    apply is_zero_add; [|exact Hzero].
    now apply (is_zero_mul_window window window_pos window_safe).
Qed.

Lemma no_gain_trace (ds : list float) :
  Forall (fun d => ltb (of_nat 0) d = false) ds ->
  forall s0 s,
    is_zero (avgUp s0) -> In s (trace window s0 ds) -> is_zero (avgUp s).
Proof.
  induction 1 as [|d ds Hd Hds IH]; intros s0 s Hup Hin;
    cbn [trace] in Hin; [easy|].
  assert (H1 : is_zero (avgUp (roll window s0 d))).
  { rewrite avgUp_roll. now apply no_gain_smooth. }
  destruct Hin as [<- | Hin]; [exact H1 | now apply (IH _ _ H1)].
Qed.

Lemma no_gain_states (closes : list float) (s : state) :
  Forall (fun d => ltb (of_nat 0) d = false) (deltas closes) ->
  In s (states closes window) ->
  avgUp s = 0%float.
Proof.
  intros Hfall Hin. apply is_zero_eq.
  pose proof (no_gain_seed_state closes Hfall) as Hseed.
  destruct Hin as [<- | Hin]; [exact Hseed|].
  apply (Forall_firstn_skipn window) in Hfall as [_ Hrest].
  exact (no_gain_trace _ Hrest _ _ Hseed Hin).
Qed.

(** [0 / (down === 0 ? 1 : down)] is [0], or NaN when [down] is. *)
Lemma no_gain_strength (down : float) :
  fnonneg down ->
  strength 0%float down = 0%float \/ strength 0%float down = nan.
Proof.
  unfold fnonneg, strength, divisor. cbn [div eqb IEEE]. intros Hdown.
  destruct (PrimFloat.eqb down (of_nat 0)) eqn:Hz; [now left|].
  rewrite FloatAxioms.eqb_spec in Hz.
  change (Prim2SF (of_nat 0)) with (S754_zero false) in Hz.
  assert (Hq : Prim2SF (PrimFloat.div 0%float down) = S754_zero false
               \/ Prim2SF (PrimFloat.div 0%float down) = S754_nan).
  { rewrite FloatAxioms.div_spec.
    change (Prim2SF 0%float) with (S754_zero false).
    destruct (Prim2SF down) as [[|]|[|]| |[|] m e]; cbn in *;
      try discriminate; auto. }
  destruct Hq as [Hq | Hq]; [left | right]; apply Prim2SF_inj; exact Hq.
Qed.

Lemma no_gain_values (closes : list float) (v : float) :
  Forall (fun d => ltb (of_nat 0) d = false) (deltas closes) ->
  In (Some v) (computeRsi closes window) ->
  v = 0%float \/ v = nan.
Proof.
  intros Hfall Hin.
  apply computeRsi_defined in Hin as (s & Hs & ->).
  rewrite (@rs_roll_trace _ _ _ _ _ _ Hs).
  rewrite (no_gain_states closes s Hfall (or_intror Hs)).
  destruct (fnonneg_trace window window_pos window_safe _ _ s
              (fnonneg_seed_state window window_pos window_safe closes) Hs)
    as [_ Hdown].
  destruct (no_gain_strength (avgDown s) Hdown) as [-> | ->];
    [left | right]; reflexivity.
Qed.

End NoGain.

(** In binary64 arithmetic, on a price series none of whose successive
    differences is positive (the window positive and below [2 ^ 53]),
    [avgUp] is [0] in the seed state and after every rolling iteration, and
    every defined output value is [0], or NaN when the average loss is. *)
Theorem binary64_no_gain_series (closes : list float) (window : nat) :
  (0 < window)%nat ->
  (Z.of_nat window < 2 ^ 53)%Z ->
  Forall (fun d => ltb (of_nat 0) d = false) (deltas closes) ->
  (forall s, In s (states closes window) -> avgUp s = 0%float) /\
  (forall v, In (Some v) (computeRsi closes window) -> v = 0%float \/ v = nan).
Proof.
  intros Hw Hsafe Hfall. split.
  - intros s. now apply no_gain_states.
  - intros v. now apply no_gain_values.
Qed.

(** ** When an output value is NaN *)

Section OutputNaN.

Local Open Scope Z_scope.

Lemma binary_round_not_nan (sx : bool) (mx : positive) (ex : Z) :
  binary_round prec emax sx mx ex <> S754_nan.
Proof.
  unfold binary_round. destruct (shl_align _ _ _) as [mz ez].
  apply binary_round_aux_not_nan. lia.
Qed.

Lemma binary_normalize_not_nan (m e : Z) (szero : bool) :
  binary_normalize prec emax m e szero <> S754_nan.
Proof.
  destruct m; cbn [binary_normalize];
    [discriminate | apply binary_round_not_nan..].
Qed.

Lemma SFadd_one_not_nan (r : spec_float) :
  nonneg r -> r <> S754_nan -> SFadd prec emax SF_one r <> S754_nan.
Proof.
  destruct r as [s|[|]| |[|] m e]; cbn [nonneg]; intros Hr Hnan;
    try discriminate Hr; try contradiction; cbn [SFadd SF_one];
    try discriminate.
  apply binary_normalize_not_nan.
Qed.

Lemma SFdiv_100_not_nan (y : spec_float) :
  ge_one y -> y <> S754_nan -> SFdiv prec emax SF_100 y <> S754_nan.
Proof.
  destruct y as [s|[|]| |[|] m e]; cbn [ge_one]; intros Hy Hnan;
    try contradiction; [cbn [SFdiv SF_100]; discriminate|].
  apply SFdiv_finite_not_nan.
Qed.

Lemma SFsub_100_not_nan (z : spec_float) :
  le_100 z -> z <> S754_nan -> SFsub prec emax SF_100 z <> S754_nan.
Proof.
  destruct z as [s|[|]| |[|] m e]; cbn [le_100]; intros Hz Hnan;
    try contradiction; cbn [SFsub SF_100]; [discriminate|].
  apply binary_normalize_not_nan.
Qed.

(** [100 - 100 / (1 + rs)] is NaN only when [rs] is. *)
Lemma rsi_value_nan_iff (r : float) :
  fnonneg r -> rsi_value r = nan <-> r = nan.
Proof.
  intros Hr. split; [|now intros ->].
  rewrite !nan_of_Prim2SF. intros Hv.
  destruct (Prim2SF r) as [s|s| |s m e] eqn:Hsf; [| |reflexivity|]; exfalso;
    (assert (Hnum : Prim2SF r <> S754_nan) by (rewrite Hsf; discriminate));
    unfold fnonneg in Hr; clear Hsf; revert Hv;
    unfold rsi_value; cbn [add sub div IEEE];
    set (y := PrimFloat.add (of_nat 1) r);
    set (z := PrimFloat.div (of_nat 100) y);
    (assert (Hy : ge_one (Prim2SF y) /\ Prim2SF y <> S754_nan)
      by (subst y; rewrite FloatAxioms.add_spec;
          change (Prim2SF (of_nat 1)) with SF_one;
          split; [now apply ge_one_add | now apply SFadd_one_not_nan]));
    destruct Hy as [Hy Hynum];
    (assert (Hz : le_100 (Prim2SF z) /\ Prim2SF z <> S754_nan)
      by (subst z; rewrite FloatAxioms.div_spec;
          change (Prim2SF (of_nat 100)) with SF_100;
          split; [apply le_100_div; [apply Prim2SF_valid | exact Hy]
                 | now apply SFdiv_100_not_nan]));
    destruct Hz as [Hz Hznum];
    rewrite FloatAxioms.sub_spec;
    change (Prim2SF (of_nat 100)) with SF_100;
    now apply SFsub_100_not_nan.
Qed.

(** In binary64 arithmetic, the entry at index [window + 1 + k] (the
    window positive and below [2 ^ 53]) is NaN exactly when, in the state
    after the rolling iteration [k], an average is NaN or both averages
    are [Infinity]; in every other case it lies in [[0, 100]]. *)
Theorem binary64_output_nan (closes : list float) (window k : nat) :
  (0 < window)%nat ->
  Z.of_nat window < 2 ^ 53 ->
  (window + 1 + k < List.length closes)%nat ->
  exists s v,
    nth_error (states closes window) (Datatypes.S k) = Some s /\
    nth_error (computeRsi closes window) (window + 1 + k) = Some (Some v) /\
    (v = nan
     <-> avgUp s = nan \/ avgDown s = nan
         \/ (avgUp s = infinity /\ avgDown s = infinity)) /\
    (v <> nan -> in_range v = true).
Proof.
  intros Hw Hsafe Hk.
  destruct (computeRsi_emitted closes window k Hk) as (s & Hs & Hout).
  exists s, (rsi_value (rs s)). split; [exact Hs|]. split; [exact Hout|].
  apply nth_error_In in Hs.
  destruct (fnonneg_states closes window s Hw Hsafe Hs) as [Hup Hdown].
  assert (Hrs : fnonneg (rs s)).
  { rewrite (states_rs Hs). now apply fnonneg_strength. }
  split.
  - rewrite (rsi_value_nan_iff _ Hrs). exact (rs_nan_iff closes window s Hw Hsafe Hs).
  - intros Hnum. destruct (binary64_rsi_value (rs s) Hrs); [contradiction | assumption].
Qed.

End OutputNaN.

(** ** The RSI chart of the strategy page *)

Section RsiChart.

Lemma map_indexed_app (A B : Type) (f : A -> nat -> B) (l more : list A) :
  forall i,
    map_indexed f i (l ++ more)
    = map_indexed f i l ++ map_indexed f (i + List.length l) more.
Proof.
  induction l as [|v l IH]; intros i; cbn [app map_indexed List.length].
  - now rewrite Nat.add_0_r.
  - rewrite IH. now replace (S i + List.length l) with (i + S (List.length l)) by lia.
Qed.

Lemma map_indexed_length (A B : Type) (f : A -> nat -> B) (l : list A) :
  forall i, List.length (map_indexed f i l) = List.length l.
Proof.
  induction l as [|v l IH]; intros i; cbn [map_indexed List.length]; [reflexivity|].
  now rewrite IH.
Qed.

Lemma In_map_indexed (A B : Type) (f : A -> nat -> B) (l : list A) (p : B) :
  forall i,
    In p (map_indexed f i l)
    <-> exists k v, nth_error l k = Some v /\ p = f v (i + k).
Proof.
  induction l as [|v l IH]; intros i; cbn [map_indexed In].
  - split; [easy|]. intros (k & w & Hnth & _). destruct k; discriminate.
  - rewrite IH. split.
    + intros [<- | (k & w & Hnth & ->)].
      * exists 0, v. now rewrite Nat.add_0_r.
      * exists (S k), w. split; [exact Hnth|]. f_equal. lia.
    + intros ([|k] & w & Hnth & ->); cbn [nth_error] in Hnth.
      * left. injection Hnth as ->. now rewrite Nat.add_0_r.
      * right. exists k, w. split; [exact Hnth|]. f_equal. lia.
Qed.

(** The point made of the entry [v] at index [i]. *)
Lemma rsiPoints_In (candles : list Candle.t) (p : Point.t) :
  In p (rsiPoints candles)
  <-> plotted p = true /\
      exists i, nth_error (computeRsi (map Candle.close candles) 14) i
                = Some (Point.value p) /\
                Point.time p = nth_error (map Candle.time candles) i.
Proof.
  unfold rsiPoints. rewrite filter_In, In_map_indexed. split.
  - intros [(k & v & Hnth & ->) Hp]. split; [exact Hp|]. now exists k.
  - intros [Hp (i & Hnth & Htime)]. split; [|exact Hp].
    exists i, (Point.value p). split; [exact Hnth|].
    destruct p as [t v]. cbn [Point.time Point.value] in *. now subst t.
Qed.

Lemma plotted_value (p : Point.t) :
  plotted p = true -> exists v, Point.value p = Some v /\ truthy v = true.
Proof.
  unfold plotted. destruct (Point.value p) as [v|]; [|discriminate].
  intros Hv. now exists v.
Qed.

Lemma filter_nulls (f : option float -> nat -> Point.t) (n : nat) :
  (forall i, Point.value (f None i) = None) ->
  forall i, filter plotted (map_indexed f i (repeat None n)) = [].
Proof.
  intros Hf. induction n as [|n IH]; intros i; [reflexivity|].
  cbn [repeat map_indexed filter]. unfold plotted at 1. now rewrite Hf, IH.
Qed.

(** A truthy number that is [>= 0] is [> 0]. *)
Lemma truthy_positive (v : float) :
  truthy v = true -> geb v (of_nat 0) = true -> PrimFloat.ltb 0 v = true.
Proof.
  unfold truthy. cbn [geb IEEE].
  rewrite !FloatAxioms.ltb_spec, FloatAxioms.leb_spec.
  change (Prim2SF (of_nat 0)) with (S754_zero false).
  change (Prim2SF 0%float) with (S754_zero false).
  destruct (Prim2SF v) as [[|]|[|]| |[|] m e]; cbn; congruence.
Qed.

(** A defined entry of the output is NaN or in the range [[0, 100]]. *)
Lemma binary64_defined_value (closes : list float) (window : nat) (v : float) :
  0 < window ->
  (Z.of_nat window < 2 ^ 53)%Z ->
  In (Some v) (computeRsi closes window) ->
  v = nan \/ in_range v = true.
Proof.
  intros Hw Hsafe Hin.
  apply computeRsi_defined in Hin as (s & Hs & ->).
  apply binary64_rsi_value. rewrite (@rs_roll_trace _ _ _ _ _ _ Hs).
  destruct (fnonneg_trace window Hw Hsafe _ _ s
              (fnonneg_seed_state window Hw Hsafe closes) Hs).
  now apply fnonneg_strength.
Qed.

(** Every point of the RSI line has a value above [0] and at most [100]:
    the filter drops the [null]s, the zeros and the NaNs of the output of
    [computeRsi], whatever the candles are. *)
Theorem rsiPoints_in_range (candles : list Candle.t) (p : Point.t) :
  In p (rsiPoints candles) ->
  exists v,
    Point.value p = Some v /\
    PrimFloat.ltb 0 v = true /\ PrimFloat.leb v 100 = true.
Proof.
  intros Hin. apply rsiPoints_In in Hin as [Hp (i & Hnth & _)].
  apply plotted_value in Hp as (v & Hv & Htruthy). exists v.
  split; [exact Hv|]. rewrite Hv in Hnth. apply nth_error_In in Hnth.
  destruct (binary64_defined_value _ 14 v ltac:(lia) eq_refl Hnth)
    as [-> | Hrange]; [discriminate|].
  unfold in_range in Hrange. apply andb_prop in Hrange as [Hlo Hhi].
  split; [now apply truthy_positive | exact Hhi].
Qed.

(** Every point of the RSI line pairs an entry of the output of
    [computeRsi] with the time of the candle at the same index, an index
    above [14]: no point has an [undefined] time, although the output is
    longer than [times] when there are fewer than [15] candles. *)
Theorem rsiPoints_candle_time (candles : list Candle.t) (p : Point.t) :
  In p (rsiPoints candles) ->
  exists i c,
    14 < i /\
    nth_error candles i = Some c /\
    Point.time p = Some (Candle.time c) /\
    nth_error (computeRsi (map Candle.close candles) 14) i = Some (Point.value p).
Proof.
  intros Hin. apply rsiPoints_In in Hin as [Hp (i & Hnth & Htime)].
  apply plotted_value in Hp as (v & Hv & _).
  destruct (computeRsi_number_iff (map Candle.close candles) 14 i) as [Hdefined _].
  destruct Hdefined as [Hlo Hhi]; [exists v; now rewrite Hnth, Hv|].
  rewrite length_map in Hhi.
  destruct (nth_error candles i) as [c|] eqn:Hc;
    [|apply nth_error_None in Hc; lia].
  exists i, c. repeat split; try assumption.
  rewrite Htime. now apply map_nth_error.
Qed.

(** No other entry is dropped: a candle whose entry in the output of
    [computeRsi] is a number other than [0] and NaN has its point on the
    RSI line, at the time of the candle. *)
Theorem rsiPoints_complete (candles : list Candle.t) (i : nat) (c : Candle.t) (v : float) :
  nth_error candles i = Some c ->
  nth_error (computeRsi (map Candle.close candles) 14) i = Some (Some v) ->
  truthy v = true ->
  In {| Point.time := Some (Candle.time c); Point.value := Some v |}
     (rsiPoints candles).
Proof.
  intros Hc Hnth Hv. apply rsiPoints_In. split; [exact Hv|].
  exists i. cbn [Point.time Point.value]. split; [exact Hnth|].
  symmetry. now apply map_nth_error.
Qed.

Lemma rsiPoints_unfold (candles : list Candle.t) :
  rsiPoints candles
  = filter plotted
      (map_indexed
         (fun v i => {| Point.time := nth_error (map Candle.time candles) i;
                        Point.value := v |})
         15 (rolling_values (map Candle.close candles) 14)).
Proof.
  unfold rsiPoints. rewrite computeRsi_unfold, map_indexed_app, filter_app.
  rewrite filter_nulls by reflexivity. now rewrite repeat_length.
Qed.

(** The RSI line has at most [candles.length - 15] points, and none when
    there are [15] candles or fewer. *)
Theorem rsiPoints_length (candles : list Candle.t) :
  List.length (rsiPoints candles) <= List.length candles - 15.
Proof.
  rewrite rsiPoints_unfold.
  eapply Nat.le_trans; [apply filter_length_le|].
  rewrite map_indexed_length, rolling_values_length, length_map. lia.
Qed.

(** On candles whose close never rises above the close before it, the
    RSI line is empty: every defined entry of the output of [computeRsi]
    is [0] or NaN there, and the filter drops both. *)
Theorem rsiPoints_no_gain (candles : list Candle.t) :
  Forall (fun d => PrimFloat.ltb 0 d = false) (deltas (map Candle.close candles)) ->
  rsiPoints candles = [].
Proof.
  intros Hfall. destruct (rsiPoints candles) as [|p points] eqn:Hpoints;
    [reflexivity | exfalso].
  assert (Hin : In p (rsiPoints candles)) by (rewrite Hpoints; now left).
  apply rsiPoints_In in Hin as [Hp (i & Hnth & _)].
  apply plotted_value in Hp as (v & Hv & Htruthy).
  rewrite Hv in Hnth. apply nth_error_In in Hnth.
  destruct (no_gain_values 14 ltac:(lia) eq_refl _ v Hfall Hnth) as [-> | ->];
    discriminate.
Qed.

End RsiChart.

(** ** The trade markers of the strategy page *)

Section Markers.

Variable number_text : float -> string.

Lemma fold_push_markers (trades : list Trade.t) :
  forall markers,
    fold_left (push_markers number_text) trades markers
    = markers ++ flat_map (fun t => [entry_marker t; exit_marker number_text t]) trades.
Proof.
  induction trades as [|t trades IH]; intros markers; cbn [fold_left flat_map].
  - now rewrite app_nil_r.
  - rewrite IH. unfold push_markers. now rewrite <- !app_assoc.
Qed.

Lemma nth_error_pairs (A B : Type) (f g : A -> B) (l : list A) :
  forall k a,
    nth_error l k = Some a ->
    nth_error (flat_map (fun a => [f a; g a]) l) (2 * k) = Some (f a) /\
    nth_error (flat_map (fun a => [f a; g a]) l) (2 * k + 1) = Some (g a).
Proof.
  induction l as [|a0 l IH]; intros [|k] a Hnth; cbn [nth_error] in Hnth;
    try discriminate.
  - injection Hnth as ->. now split.
  - destruct (IH k a Hnth) as [Hf Hg]. cbn [flat_map app].
    replace (2 * S k) with (S (S (2 * k))) by lia.
    replace (S (S (2 * k)) + 1) with (S (S (2 * k + 1))) by lia.
    now split.
Qed.

(** Every trade has its two markers, in the order of the trades: the
    trade at index [k] puts its entry marker at index [2 k], at the entry
    time, and its exit marker right after it, at the exit time; there is
    no other marker. *)
Theorem trade_markers_pairs (trades : list Trade.t) (k : nat) (t : Trade.t) :
  nth_error trades k = Some t ->
  nth_error (trade_markers number_text trades) (2 * k) = Some (entry_marker t) /\
  nth_error (trade_markers number_text trades) (2 * k + 1)
  = Some (exit_marker number_text t) /\
  List.length (trade_markers number_text trades) = 2 * List.length trades.
Proof.
  intros Hnth. unfold trade_markers. rewrite fold_push_markers. cbn [app].
  destruct (nth_error_pairs _ _ entry_marker (exit_marker number_text) trades k t Hnth)
    as [Hentry Hexit].
  repeat split; try assumption.
  clear. induction trades as [|t trades IH]; [reflexivity|].
  cbn [flat_map app List.length]. rewrite IH. lia.
Qed.

End Markers.

(** ** The loading state of a button *)

Section Loading.

Local Open Scope string_scope.

(** The caption the first call saves in [dataset.label]. *)
Lemma or_else_saved (saved other : string) :
  saved <> "" -> or_else (Some saved) other = saved.
Proof.
  intros Hsaved. unfold or_else.
  destruct (String.eqb_spec saved ""); [contradiction | reflexivity].
Qed.

Lemma setLoading_saved (state : bool) (b : button) (label : string) :
  or_else (dataset_label b) (textContent b) <> "" ->
  exists b',
    setLoading state (Some b) label = Some b' /\
    or_else (dataset_label b') (textContent b')
    = or_else (dataset_label b) (textContent b).
Proof.
  intros Hsaved. eexists. split; [reflexivity|].
  cbn [dataset_label textContent]. now apply or_else_saved.
Qed.

Lemma setLoading_calls_saved (calls : list (bool * string)) :
  forall b,
    or_else (dataset_label b) (textContent b) <> "" ->
    exists b',
      setLoading_calls calls (Some b) = Some b' /\
      or_else (dataset_label b') (textContent b')
      = or_else (dataset_label b) (textContent b).
Proof.
  unfold setLoading_calls.
  induction calls as [|[state label] calls IH]; intros b Hsaved; [now exists b|].
  cbn [fold_left fst snd].
  destruct (setLoading_saved state b label Hsaved) as (b1 & -> & H1).
  destruct (IH b1) as (b' & Hcalls & H'); [now rewrite H1|].
  exists b'. split; [exact Hcalls | now rewrite H', H1].
Qed.

(** A button whose caption is not empty gets that caption back: after any
    series of calls, [dataset.label] holds the caption the button had
    before the first of them, and the button shows the label of the last
    call while loading, and that caption otherwise, whatever label the
    call that ends the loading passes. *)
Theorem setLoading_restores (b : button) (calls : list (bool * string))
    (state : bool) (label : string) :
  let caption := or_else (dataset_label b) (textContent b) in
  caption <> "" ->
  setLoading_calls (calls ++ [(state, label)])%list (Some b)
  = Some {| disabled := state;
            dataset_label := Some caption;
            textContent := if state then label else caption |}.
Proof.
  intros caption Hcaption.
  destruct (setLoading_calls_saved calls b Hcaption) as (b' & Hcalls & Hsaved).
  unfold setLoading_calls in *. rewrite fold_left_app, Hcalls.
  cbn [fold_left fst snd setLoading]. now rewrite Hsaved.
Qed.

(** A button without a caption keeps the loading label: once loading has
    started and ended, the button is enabled, and both its text and
    [dataset.label] are the label of the loading call. *)
Theorem setLoading_empty_caption (b : button) (label label' : string) :
  or_else (dataset_label b) (textContent b) = "" ->
  setLoading false (setLoading true (Some b) label) label'
  = Some {| disabled := false;
            dataset_label := Some label;
            textContent := label |}.
Proof.
  intros Hcaption. cbn [setLoading dataset_label textContent].
  rewrite Hcaption. reflexivity.
Qed.

End Loading.

(** ** The page that is initialised *)

Section Route.

Local Open Scope string_scope.

Lemma split_slash_nonempty (pathname : string) : split_slash pathname <> [].
Proof.
  destruct pathname as [|c rest]; cbn [split_slash]; [discriminate|].
  destruct (Ascii.eqb c "/"); [discriminate|].
  destruct (split_slash rest); discriminate.
Qed.

Lemma split_slash_app (dir rest : string) :
  split_slash (dir ++ String "/" rest) = (split_slash dir ++ split_slash rest)%list.
Proof.
  induction dir as [|c dir IH]; [reflexivity|].
  cbn [String.append split_slash]. rewrite IH.
  destruct (Ascii.eqb c "/"); [reflexivity|].
  pose proof (split_slash_nonempty dir) as Hdir.
  destruct (split_slash dir); [contradiction | reflexivity].
Qed.

Lemma split_slash_segment (segment : string) :
  no_slash segment = true -> split_slash segment = [segment].
Proof.
  induction segment as [|c segment IH]; [reflexivity|].
  cbn [no_slash split_slash]. intros H. apply andb_prop in H as [Hc Hrest].
  apply negb_true_iff in Hc. now rewrite Hc, IH.
Qed.

Lemma pop_last (segments : list string) (segment : string) :
  pop (segments ++ [segment])%list = Some segment.
Proof. unfold pop. now rewrite rev_app_distr. Qed.

(** [currentPage] is the text after the last slash. *)
Lemma currentPage_last_segment (dir segment : string) :
  no_slash segment = true ->
  pop (split_slash (dir ++ String "/" segment)) = Some segment.
Proof.
  intros Hsegment.
  now rewrite split_slash_app, (split_slash_segment segment Hsegment), pop_last.
Qed.

(** The page that is initialised depends on the text after the last slash
    of the pathname only: whatever directories come before it, the script
    runs the initialiser it runs for that text alone. *)
Theorem init_page_last_segment (dir segment : string) :
  no_slash segment = true ->
  init_page (dir ++ "/" ++ segment) = init_page segment.
Proof.
  intros Hsegment. unfold init_page.
  change (dir ++ "/" ++ segment) with (dir ++ String "/" segment).
  rewrite (currentPage_last_segment dir segment Hsegment).
  now rewrite (split_slash_segment segment Hsegment).
Qed.

(** A pathname that ends in a slash initialises the dashboard, whatever
    comes before the slash. *)
Theorem init_page_directory (dir : string) :
  init_page (dir ++ "/") = Some initDashboard.
Proof.
  unfold init_page.
  now rewrite (currentPage_last_segment dir "" eq_refl).
Qed.

End Route.

(** ** The sentiment forecast *)

Section Forecast.

Local Open Scope Z_scope.

(** Rounding a positive mantissa never gives NaN. *)
Lemma binary_round_aux_number (sx : bool) (mx ex : Z) (lx : location) :
  0 < mx -> binary_round_aux prec emax sx mx ex lx <> S754_nan.
Proof.
  intros Hmx.
  destruct (binary_round_aux_spec sx mx ex lx Hmx)
    as (m_r & _ & [[_ ->] | (m'' & e'' & _ & _ & ->)]); [discriminate|].
  destruct (e'' <=? emax - prec); discriminate.
Qed.

(** [sent.score || 0] is never NaN. *)
Lemma score_or_zero_number (sc : score) : Prim2SF (score_or_zero sc) <> S754_nan.
Proof.
  destruct sc as [| |x]; cbn [score_or_zero]; try discriminate.
  destruct (truthy x) eqn:Hx; [|discriminate].
  unfold truthy in Hx. rewrite !FloatAxioms.ltb_spec in Hx.
  intros Hnan. rewrite Hnan in Hx. discriminate.
Qed.

(** [Math.abs(s * 100)] is [+0], positive or [+Infinity] when [s] is not
    NaN. *)
Lemma abs_times_100 (s : float) :
  Prim2SF s <> S754_nan ->
  Prim2SF (PrimFloat.abs (PrimFloat.mul s 100)) <> S754_nan /\
  signed false (Prim2SF (PrimFloat.abs (PrimFloat.mul s 100))).
Proof.
  intros Hs. rewrite FloatAxioms.abs_spec, FloatAxioms.mul_spec.
  change (Prim2SF 100%float) with SF_100. unfold SF_100, SF64mul.
  destruct (Prim2SF s) as [sx|sx| |sx mx ex]; [| |contradiction|].
  - cbn [SFmul SFabs signed]. split; [discriminate | reflexivity].
  - cbn [SFmul SFabs signed]. split; [discriminate | reflexivity].
  - cbn [SFmul].
    pose proof (binary_round_aux_number (xorb sx false)
                  (Zpos (mx * 7036874417766400)) (ex + -46) loc_Exact
                  ltac:(reflexivity)) as Hnum.
    destruct (binary_round_aux _ _ _ _ _ _) as [s'|s'| |s' m' e'];
      [| |contradiction|]; cbn [SFabs signed]; split;
      try discriminate; reflexivity.
Qed.

Lemma is_nan_false (y : float) :
  Prim2SF y <> S754_nan -> signed false (Prim2SF y) -> PrimFloat.is_nan y = false.
Proof.
  unfold PrimFloat.is_nan. rewrite FloatAxioms.eqb_spec.
  destruct (Prim2SF y) as [sy|sy| |sy my ey]; cbn [signed];
    intros Hy Hsign; [| |contradiction|]; subst; try reflexivity.
  unfold SFeqb, SFcompare. now rewrite Z.compare_refl, Pos.compare_cont_refl.
Qed.

(** The percentage of the forecast lies in [[0, 100]] for every score:
    a number (NaN and the infinities included), [null], or none. *)
Theorem forecast_percent_in_range (sc : score) :
  in_range (forecast_percent sc) = true.
Proof.
  unfold forecast_percent, Math_min.
  destruct (abs_times_100 (score_or_zero sc) (score_or_zero_number sc))
    as [Hnum Hsign].
  set (y := PrimFloat.abs (PrimFloat.mul (score_or_zero sc) 100)) in *.
  rewrite (is_nan_false y Hnum Hsign).
  change (PrimFloat.is_nan 100) with false.
  change (PrimFloat.eqb 100 0) with false.
  cbn [orb andb].
  destruct (PrimFloat.ltb y 100) eqn:Hlt; [|reflexivity].
  unfold in_range. cbn [geb IEEE]. apply andb_true_intro.
  rewrite FloatAxioms.ltb_spec in Hlt. rewrite !FloatAxioms.leb_spec.
  change (Prim2SF (of_nat 0)) with (S754_zero false).
  change (Prim2SF (of_nat 100)) with (Prim2SF 100%float).
  unfold SFltb in Hlt. unfold SFleb.
  destruct (SFcompare (Prim2SF y) (Prim2SF 100%float)) as [[| |]|];
    try discriminate.
  split; [|reflexivity].
  destruct (Prim2SF y) as [sy|sy| |sy my ey]; cbn [signed] in Hsign;
    [| |contradiction|]; subst; reflexivity.
Qed.

End Forecast.

(** ** The further theorems at concrete inputs *)

Section FurtherInstances.

(** Four prices and a fifth: the entry at index [3] stays as it was. *)
Lemma computeRsi_prefix_stable_witness :
  nth_error (computeRsi ([1; 2; 3; 4] ++ [9])%float 2) 3
  = nth_error (computeRsi [1; 2; 3; 4]%float 2) 3.
Proof.
  exact (computeRsi_prefix_stable [1; 2; 3; 4]%float [9]%float 2 3
           (le_n 4)).
Defined.

(** A falling series with window [2]. *)
Lemma binary64_no_gain_series_witness :
  (forall s, In s (states [4; 3; 2; 1]%float 2) -> avgUp s = 0%float) /\
  (forall v, In (Some v) (computeRsi [4; 3; 2; 1]%float 2) ->
             v = 0%float \/ v = nan).
Proof.
  assert (Hfall : Forall (fun d => ltb (of_nat 0) d = false)
                    (deltas [4; 3; 2; 1]%float)).
  { repeat constructor. }
  exact (binary64_no_gain_series [4; 3; 2; 1]%float 2
           (le_S 1 1 (le_n 1)) eq_refl Hfall).
Defined.

(** Sixteen candles that rise by [1]: the one point of the RSI line. *)
Lemma rsiPoints_in_range_witness :
  let candles :=
    map (fun c => {| Candle.time := Some (c * 60)%float;
                     Candle.open := c; Candle.high := c; Candle.low := c;
                     Candle.close := c |})
        [1; 2; 3; 4; 5; 6; 7; 8; 9; 10; 11; 12; 13; 14; 15; 16]%float in
  let p := {| Point.time := Some (Some 960%float); Point.value := Some 50%float |} in
  exists v,
    Point.value p = Some v /\
    PrimFloat.ltb 0 v = true /\ PrimFloat.leb v 100 = true.
Proof.
  intros candles p.
  assert (Hin : In p (rsiPoints candles)) by (vm_compute; left; reflexivity).
  exact (rsiPoints_in_range candles p Hin).
Defined.

Lemma rsiPoints_candle_time_witness :
  let candles :=
    map (fun c => {| Candle.time := Some (c * 60)%float;
                     Candle.open := c; Candle.high := c; Candle.low := c;
                     Candle.close := c |})
        [1; 2; 3; 4; 5; 6; 7; 8; 9; 10; 11; 12; 13; 14; 15; 16]%float in
  let p := {| Point.time := Some (Some 960%float); Point.value := Some 50%float |} in
  exists i c,
    14 < i /\
    nth_error candles i = Some c /\
    Point.time p = Some (Candle.time c) /\
    nth_error (computeRsi (map Candle.close candles) 14) i = Some (Point.value p).
Proof.
  intros candles p.
  assert (Hin : In p (rsiPoints candles)) by (vm_compute; left; reflexivity).
  exact (rsiPoints_candle_time candles p Hin).
Defined.

Lemma rsiPoints_complete_witness :
  let candles :=
    map (fun c => {| Candle.time := Some (c * 60)%float;
                     Candle.open := c; Candle.high := c; Candle.low := c;
                     Candle.close := c |})
        [1; 2; 3; 4; 5; 6; 7; 8; 9; 10; 11; 12; 13; 14; 15; 16]%float in
  let c := {| Candle.time := Some 960%float;
              Candle.open := 16%float; Candle.high := 16%float;
              Candle.low := 16%float; Candle.close := 16%float |} in
  In {| Point.time := Some (Candle.time c); Point.value := Some 50%float |}
     (rsiPoints candles).
Proof.
  intros candles c.
  exact (rsiPoints_complete candles 15 c 50%float eq_refl eq_refl eq_refl).
Defined.

(** Seventeen candles that fall by [1]: the output of [computeRsi] has two
    entries [0], and the RSI line has no point. *)
Lemma rsiPoints_no_gain_witness :
  let candles :=
    map (fun c => {| Candle.time := Some (c * 60)%float;
                     Candle.open := c; Candle.high := c; Candle.low := c;
                     Candle.close := c |})
        [17; 16; 15; 14; 13; 12; 11; 10; 9; 8; 7; 6; 5; 4; 3; 2; 1]%float in
  nth_error (computeRsi (map Candle.close candles) 14) 15 = Some (Some 0%float) /\
  rsiPoints candles = [].
Proof.
  intros candles. split; [reflexivity|].
  assert (Hfall : Forall (fun d => PrimFloat.ltb 0 d = false)
                    (deltas (map Candle.close candles))).
  { repeat constructor. }
  exact (rsiPoints_no_gain candles Hfall).
Defined.

(** A trade that was won. *)
Lemma trade_markers_pairs_witness :
  let number_text := fun _ : float => "1.5"%string in
  let t := {| Trade.entry_time := 600%float; Trade.exit_time := 1200%float;
              Trade.direction := "LONG"%string; Trade.status := "WIN"%string;
              Trade.pnl_percent := 1.5%float |} in
  nth_error (trade_markers number_text [t]) (2 * 0) = Some (entry_marker t) /\
  nth_error (trade_markers number_text [t]) (2 * 0 + 1)
  = Some (exit_marker number_text t) /\
  List.length (trade_markers number_text [t]) = 2 * List.length [t].
Proof.
  intros number_text t.
  exact (trade_markers_pairs number_text [t] 0 t eq_refl).
Defined.

(** The button of the strategy page, through a simulation and a second
    click. *)
Lemma setLoading_restores_witness :
  let b := {| disabled := false; dataset_label := None;
              textContent := "Run Simulation"%string |} in
  setLoading_calls
    ([(true, "Running simulation..."%string); (false, "Run Simulation"%string)]
       ++ [(true, "Running simulation..."%string)])
    (Some b)
  = Some {| disabled := true;
            dataset_label := Some "Run Simulation"%string;
            textContent := "Running simulation..."%string |}.
Proof.
  intros b.
  assert (Hcaption : or_else (dataset_label b) (textContent b) <> ""%string)
    by discriminate.
  exact (setLoading_restores b
           [(true, "Running simulation..."%string); (false, "Run Simulation"%string)]
           true "Running simulation..."%string Hcaption).
Defined.

(** A button that holds no text. *)
Lemma setLoading_empty_caption_witness :
  let b := {| disabled := false; dataset_label := None; textContent := ""%string |} in
  setLoading false (setLoading true (Some b) "Refreshing..."%string) "Refresh"%string
  = Some {| disabled := false;
            dataset_label := Some "Refreshing..."%string;
            textContent := "Refreshing..."%string |}.
Proof.
  intros b.
  exact (setLoading_empty_caption b "Refreshing..."%string "Refresh"%string eq_refl).
Defined.

(** The strategy page in a directory. *)
Lemma init_page_last_segment_witness :
  init_page ("/btc/dashboard" ++ "/" ++ "strategy.html")%string
  = init_page "strategy.html"%string.
Proof.
  exact (init_page_last_segment "/btc/dashboard"%string "strategy.html"%string eq_refl).
Defined.

(** The series of swings between [0] and [2^1023]: both averages are
    [Infinity] and the entry is NaN. *)
Lemma binary64_output_nan_witness :
  exists s v,
    nth_error (states [0; 0x1p1023; 0; 0x1p1023; 0; 0]%float 4) 1 = Some s /\
    nth_error (computeRsi [0; 0x1p1023; 0; 0x1p1023; 0; 0]%float 4) (4 + 1 + 0)
    = Some (Some v) /\
    (v = nan
     <-> avgUp s = nan \/ avgDown s = nan
         \/ (avgUp s = infinity /\ avgDown s = infinity)) /\
    (v <> nan -> in_range v = true).
Proof.
  exact (binary64_output_nan [0; 0x1p1023; 0; 0x1p1023; 0; 0]%float 4 0
           (le_S 1 3 (le_S 1 2 (le_S 1 1 (le_n 1)))) eq_refl (le_n 6)).
Defined.

End FurtherInstances.
